(** * Holarchic physics lab: the simulation core, embedded and verified

    A shallow embedding of [src/lib/physics/hamiltonian.ts] and
    [src/lib/physics/holarchic-memory.ts] (with the record types of
    [src/lib/store.ts]), followed by the properties the specification
    states about them.

    Numbers.  The specification's data model speaks of reals, and so does
    the main part of this development: a JavaScript [number] is a real
    number of the Standard Library.  One operation of the source is not
    total on the reals: [a / b] with [b = 0] is [Infinity] or [NaN] in
    JavaScript.  The embedding therefore does not use the Standard
    Library's division (which is total, with [/ 0 = 0]) but a section
    variable [jsdiv], of which the theorems only know that it agrees with
    real division when the divisor is not zero.  A theorem proved for every
    such [jsdiv] cannot depend on the outcome of a division by zero.

    Rounding.  Whether two results of the source are exactly equal can
    depend on the rounding of IEEE 754 doubles, which the reals do not
    show.  The pairwise force, of which the specification claims an exact
    negation, is therefore embedded a second time, in the module
    [Binary64], on the binary64 floats of the Standard Library; sums and
    products are stated in the order in which the source evaluates them.

    Identifiers.  The source draws the identifier of a merged particle and
    of a memory node from the clock and a random source.  The embedding
    takes the sequence of identifiers handed out during one call as an
    oracle ([particleIdAt], [nodeIdAt]: the k-th identifier generated). *)

From Stdlib Require Import Floats.
From Stdlib Require Import Reals Lra Lia ZArith List String Bool ListSet.
From Stdlib Require Import Sorting.Sorted Sorting.Permutation.
Import ListNotations.

Open Scope R_scope.

(** ** Comparisons of numbers, as booleans *)

Definition Rltb (x y : R) : bool := if Rlt_dec x y then true else false.
Definition Rgtb (x y : R) : bool := Rltb y x.
Definition Reqb (x y : R) : bool := if Req_dec_T x y then true else false.

(** ** Data model ([src/lib/store.ts]) *)

(** [[number, number, number]]: the components are [a[0]], [a[1]], [a[2]]. *)
Record vec3 : Type := V3 { c0 : R; c1 : R; c2 : R }.

Record Particle : Type := mkParticle {
  id : string;
  position : vec3;
  momentum : vec3;
  mass : R;
  charge : R;
  holarchyLevel : Z;
  energy : R;
  color : string
}.

(** The fields [id] and [position] of a memory node are [node_id] and
    [node_position] here: a record field is a global name in Rocq. *)
Record HolarchicMemoryNode : Type := mkNode {
  node_id : string;
  level : Z;
  node_position : vec3;
  children : list string;
  parent : option string;
  activationEnergy : R;
  memoryStrength : R
}.

Record PhysicsConfig : Type := mkPhysicsConfig {
  springConstant : R;
  dampingFactor : R;
  gravitationalConstant : R;
  couplingStrength : R;
  timeScale : R
}.

Record EnergyResult : Type := mkEnergyResult {
  kinetic : R;
  potential : R;
  total : R
}.

Record MemoryConfig : Type := mkMemoryConfig {
  decayRate : R;
  synchronizationStrength : R;
  activationThreshold : R
}.

Inductive GestureMode : Type := attract | repel | spawn | destroy.

(** [{...p, position: q}] and the like. *)
Definition with_position (p : Particle) (q : vec3) : Particle :=
  mkParticle (id p) q (momentum p) (mass p) (charge p) (holarchyLevel p)
             (energy p) (color p).

Definition with_momentum_energy (p : Particle) (m : vec3) (e : R) : Particle :=
  mkParticle (id p) (position p) m (mass p) (charge p) (holarchyLevel p)
             e (color p).

Definition with_memoryStrength (n : HolarchicMemoryNode) (s : R)
  : HolarchicMemoryNode :=
  mkNode (node_id n) (level n) (node_position n) (children n) (parent n)
         (activationEnergy n) s.

Definition with_reinforcement (n : HolarchicMemoryNode) (q : vec3) (s a : R)
  : HolarchicMemoryNode :=
  mkNode (node_id n) (level n) q (children n) (parent n) a s.

Definition with_parent (n : HolarchicMemoryNode) (p : option string)
  : HolarchicMemoryNode :=
  mkNode (node_id n) (level n) (node_position n) (children n) p
         (activationEnergy n) (memoryStrength n).

Definition push_child (n : HolarchicMemoryNode) (c : string)
  : HolarchicMemoryNode :=
  mkNode (node_id n) (level n) (node_position n) (children n ++ [c])
         (parent n) (activationEnergy n) (memoryStrength n).

(** ** Array helpers *)

(** [xs.map((x, i) => f(x, i))]. *)
Fixpoint mapi_from {A B : Type} (f : A -> nat -> B) (i : nat) (l : list A)
  : list B :=
  match l with
  | [] => []
  | x :: t => f x i :: mapi_from f (S i) t
  end.

Definition mapi {A B : Type} (f : A -> nat -> B) (l : list A) : list B :=
  mapi_from f 0 l.

(** [xs[i] = f(xs[i])] for an index inside the array; the source never
    writes outside it. *)
Fixpoint update_at {A : Type} (i : nat) (f : A -> A) (l : list A) {struct l}
  : list A :=
  match l, i with
  | [], _ => []
  | x :: t, O => f x :: t
  | x :: t, S i' => x :: update_at i' f t
  end.

(** [set.has(s)] and [set.add(s)] on a [Set<string>]. *)
Definition has (s : set string) (x : string) : bool := set_mem string_dec x s.
Definition add (s : set string) (x : string) : set string :=
  set_add string_dec x s.

Arguments has : simpl never.
Arguments add : simpl never.

(** [arr.includes(s)]. *)
Definition includes (l : list string) (x : string) : bool :=
  existsb (String.eqb x) l.

Definition vzero : vec3 := V3 0 0 0.

(** ** Further data: maps, the store, the frame loop *)

Definition Rleb (x y : R) : bool := if Rle_dec x y then true else false.

(** [xs.reduce((sum, x) => sum + f(x), 0)] over any array: [sumOver] below
    is this sum over particles. *)
Definition sumR {A : Type} (f : A -> R) (l : list A) : R :=
  fold_left (fun sum x => sum + f x) l 0.

(** A [Map<string, V>]: the keys in insertion order; [set] replaces the
    value of a key that is present and appends a new key. *)
Fixpoint mapSet {V : Type} (k : string) (v : V) (m : list (string * V))
  : list (string * V) :=
  match m with
  | [] => [(k, v)]
  | (k', v') :: rest =>
      if String.eqb k' k then (k', v) :: rest
      else (k', v') :: mapSet k v rest
  end.

Fixpoint mapGet {V : Type} (k : string) (m : list (string * V)) : option V :=
  match m with
  | [] => None
  | (k', v') :: rest => if String.eqb k' k then Some v' else mapGet k rest
  end.

(** The part of the store ([SimulationState]) that the frame loop reads and
    writes. *)
Record SimulationState : Type := mkSimulationState {
  sim_isRunning : bool;
  sim_timeScale : R;
  sim_totalEnergy : R;
  sim_kineticEnergy : R;
  sim_potentialEnergy : R;
  sim_springConstant : R;
  sim_dampingFactor : R;
  sim_gravitationalConstant : R;
  sim_couplingStrength : R;
  sim_holarchyDepth : Z;
  sim_emergenceThreshold : R;
  sim_memoryDecayRate : R;
  sim_synchronizationStrength : R;
  sim_particles : list Particle;
  sim_memoryNodes : list HolarchicMemoryNode;
  sim_handPosition : option vec3;
  sim_gestureMode : GestureMode
}.

(** [updateParticles], [updateMemoryNodes] and [setEnergies] of the store,
    one after the other. *)
Definition storeFrame (st : SimulationState) (particles : list Particle)
    (nodes : list HolarchicMemoryNode) (e : EnergyResult) : SimulationState :=
  mkSimulationState (sim_isRunning st) (sim_timeScale st)
    (total e) (kinetic e) (potential e)
    (sim_springConstant st) (sim_dampingFactor st)
    (sim_gravitationalConstant st) (sim_couplingStrength st)
    (sim_holarchyDepth st) (sim_emergenceThreshold st)
    (sim_memoryDecayRate st) (sim_synchronizationStrength st)
    particles nodes (sim_handPosition st) (sim_gestureMode st).

(** [addParticle] and [removeParticle] of the store, on its [particles]. *)
Definition addParticle (particles : list Particle) (particle : Particle)
  : list Particle :=
  particles ++ [particle].

Definition removeParticle (particles : list Particle) (name : string)
  : list Particle :=
  filter (fun p => negb (String.eqb (id p) name)) particles.

(** ** Concrete inputs *)

(** The coefficients the store starts with. *)
Definition defaultConfig : PhysicsConfig := mkPhysicsConfig 0.5 0.02 0.1 0.3 1.

Definition defaultMemoryConfig : MemoryConfig := mkMemoryConfig 0.01 0.5 0.5.


(** A level-0 particle of mass 1 and charge 1 at rest. *)
Definition quantum (name : string) (q : vec3) : Particle :=
  mkParticle name q (V3 0 0 0) 1 1 0 0 "#6366f1".

(** A level-1 particle of mass 2 at rest. *)
Definition atomic (name : string) (q : vec3) : Particle :=
  mkParticle name q (V3 0 0 0) 2 1 1 0 "#22d3ee".

(** A level-1 memory node at the origin, without children. *)
Definition atomicNode : HolarchicMemoryNode :=
  mkNode "mem" 1 (V3 0 0 0) [] None 0 1.

(** A level-0 memory node at the origin, without children. *)
Definition quantumNode : HolarchicMemoryNode :=
  mkNode "mem" 0 (V3 0 0 0) [] None 0 1.

(** Three level-0 particles at the origin, a fourth at distance 1, and a
    level-1 particle. *)
Definition particleA : Particle := quantum "a" (V3 0 0 0).
Definition particleB : Particle := quantum "b" (V3 0 0 0).
Definition particleC : Particle := quantum "c" (V3 0 0 0).
Definition particleD : Particle := quantum "d" (V3 1 0 0).
Definition particleE : Particle := atomic "e" (V3 0 1 0).

(** The two particles of the end-to-end scenario. *)
Definition scenarioP1 : Particle := quantum "p1" (V3 0 0 0).
Definition scenarioP2 : Particle := quantum "p2" (V3 0.05 0 0).

(** Two level-0 memory nodes at distance 1. *)
Definition nodeLeft : HolarchicMemoryNode :=
  mkNode "n1" 0 (V3 0 0 0) [] None 0 1.
Definition nodeRight : HolarchicMemoryNode :=
  mkNode "n2" 0 (V3 1 0 0) [] None 0 1.

(** A level-0 memory node at distance 10 from the origin. *)
Definition farNode : HolarchicMemoryNode :=
  mkNode "far" 0 (V3 10 0 0) [] None 0 1.

Definition mergedIds (k : nat) : string :=
  match k with
  | O => "m0"
  | 1%nat => "m1"
  | _ => "m2"
  end.

Definition memoryIds (k : nat) : string :=
  match k with
  | O => "mem0"
  | 1%nat => "mem1"
  | _ => "mem2"
  end.

(** ** The pairwise force on IEEE 754 doubles

    The loop body of [calculateForce] once more, with [number] as the
    binary64 floats of the Standard Library: [+], [-], [*], [/] and
    [Math.sqrt] round to nearest, ties to even, [Math.abs] is exact,
    [<] and [===] are the comparisons of IEEE 754.  A decimal literal
    stands for the nearest double, as in JavaScript. *)

Set Warnings "-inexact-float".

Module Binary64.

Local Open Scope float_scope.

Record vec3 : Type := V3 { c0 : float; c1 : float; c2 : float }.

Record Particle : Type := mkParticle {
  id : string;
  position : vec3;
  momentum : vec3;
  mass : float;
  charge : float;
  holarchyLevel : float;
  energy : float;
  color : string
}.

Record PhysicsConfig : Type := mkPhysicsConfig {
  springConstant : float;
  dampingFactor : float;
  gravitationalConstant : float;
  couplingStrength : float;
  timeScale : float
}.

Definition vec3Add (a b : vec3) : vec3 :=
  V3 (c0 a + c0 b) (c1 a + c1 b) (c2 a + c2 b).

Definition vec3Sub (a b : vec3) : vec3 :=
  V3 (c0 a - c0 b) (c1 a - c1 b) (c2 a - c2 b).

Definition vec3Scale (v : vec3) (s : float) : vec3 :=
  V3 (c0 v * s) (c1 v * s) (c2 v * s).

Definition vec3Length (v : vec3) : float :=
  PrimFloat.sqrt (c0 v * c0 v + c1 v * c1 v + c2 v * c2 v).

Definition vec3Normalize (v : vec3) : vec3 :=
  let len := vec3Length v in
  if len =? 0 then V3 0 0 0
  else vec3Scale v (1 / len).

(** The body of the loop [for (const other of allParticles)]. *)
Definition interaction (config : PhysicsConfig) (particle : Particle)
    (force : vec3) (other : Particle) : vec3 :=
  if String.eqb (id other) (id particle) then force
  else
    let diff := vec3Sub (position other) (position particle) in
    let distance := vec3Length diff in
    if distance <? 0.1 then force
    else
      let direction := vec3Normalize diff in
      let gravMagnitude :=
        (gravitationalConstant config * mass particle * mass other)
        / (distance * distance) in
      let gravForce := vec3Scale direction gravMagnitude in
      let force := vec3Add force gravForce in
      let levelDiff :=
        PrimFloat.abs (holarchyLevel particle - holarchyLevel other) in
      let holarchicMod :=
        if levelDiff =? 0 then 1.0 else 0.5 / (1 + levelDiff) in
      let chargeMagnitude :=
        (couplingStrength config * charge particle * charge other)
        / (distance * distance) in
      let chargeForce :=
        vec3Scale direction (- chargeMagnitude * holarchicMod) in
      vec3Add force chargeForce.

(** The pairwise terms of the force on [particle] from [other]: what the
    loop body adds to the accumulator [[0, 0, 0]]. *)
Definition pairwiseForce (config : PhysicsConfig) (particle other : Particle)
  : vec3 :=
  interaction config particle (V3 0 0 0) other.

(** The coefficients the store starts with. *)
Definition defaultConfig : PhysicsConfig :=
  mkPhysicsConfig 0.5 0.02 0.1 0.3 1.

(** Two level-0 particles of charge 1 at rest, at distance 1: of masses 1.2
    and 1.5, and both of mass 1. *)
Definition light : Particle :=
  mkParticle "i" (V3 0 0 0) (V3 0 0 0) 1.2 1 0 0 "#6366f1".
Definition heavy : Particle :=
  mkParticle "j" (V3 1 0 0) (V3 0 0 0) 1.5 1 0 0 "#6366f1".
Definition unitLeft : Particle :=
  mkParticle "i" (V3 0 0 0) (V3 0 0 0) 1 1 0 0 "#6366f1".
Definition unitRight : Particle :=
  mkParticle "j" (V3 1 0 0) (V3 0 0 0) 1 1 0 0 "#6366f1".

End Binary64.

Set Warnings "inexact-float".

(** [y] is the negation of [x]: [y] is [-x], or both are zeros, which
    [===] does not tell apart ([NaN] is its own negation). *)
Definition negated (x y : float) : Prop :=
  y = PrimFloat.opp x
  \/ (PrimFloat.eqb x 0%float = true /\ PrimFloat.eqb y 0%float = true).

Definition negatedVec (u v : Binary64.vec3) : Prop :=
  negated (Binary64.c0 u) (Binary64.c0 v)
  /\ negated (Binary64.c1 u) (Binary64.c1 v)
  /\ negated (Binary64.c2 u) (Binary64.c2 v).

(** The same on the specification of the floats. *)
Definition isZero (x : spec_float) : Prop := exists s, x = S754_zero s.

Definition SFnegates (x y : spec_float) : Prop :=
  y = SFopp x \/ (isZero x /\ isZero y).

Section Engine.

(** JavaScript's [/]: see the header. *)
Variable jsdiv : R -> R -> R.

(** The k-th identifier produced by
    [`p_${Date.now()}_${Math.random()...}`] during one call of
    [checkHolarchicEmergence], and by [generateNodeId] during one call of
    [buildHolarchicTree]. *)
Variable particleIdAt : nat -> string.
Variable nodeIdAt : nat -> string.

(** ** [hamiltonian.ts]: vector operations *)

Definition vec3Add (a b : vec3) : vec3 :=
  V3 (c0 a + c0 b) (c1 a + c1 b) (c2 a + c2 b).

Definition vec3Sub (a b : vec3) : vec3 :=
  V3 (c0 a - c0 b) (c1 a - c1 b) (c2 a - c2 b).

Definition vec3Scale (v : vec3) (s : R) : vec3 :=
  V3 (c0 v * s) (c1 v * s) (c2 v * s).

Definition vec3Dot (a b : vec3) : R :=
  c0 a * c0 b + c1 a * c1 b + c2 a * c2 b.

Definition vec3Length (v : vec3) : R :=
  sqrt (c0 v * c0 v + c1 v * c1 v + c2 v * c2 v).

Definition vec3Normalize (v : vec3) : vec3 :=
  let len := vec3Length v in
  if Reqb len 0 then V3 0 0 0
  else vec3Scale v (jsdiv 1 len).

(** ** [calculateForce] *)

(** [levelDiff === 0 ? 1.0 : 0.5 / (1 + levelDiff)] with
    [levelDiff = Math.abs(a - b)]. *)
Definition holarchicModOf (a b : Z) : R :=
  let levelDiff := Z.abs (a - b) in
  if Z.eqb levelDiff 0 then 1 else jsdiv 0.5 (1 + IZR levelDiff).

(** The body of the loop [for (const other of allParticles)]: the force
    accumulated so far, after [other] has been looked at. *)
Definition interaction (config : PhysicsConfig) (particle : Particle)
    (force : vec3) (other : Particle) : vec3 :=
  if String.eqb (id other) (id particle) then force
  else
    let diff := vec3Sub (position other) (position particle) in
    let distance := vec3Length diff in
    if Rltb distance 0.1 then force
    else
      let direction := vec3Normalize diff in
      let gravMagnitude :=
        jsdiv (gravitationalConstant config * mass particle * mass other)
              (distance * distance) in
      let gravForce := vec3Scale direction gravMagnitude in
      let force := vec3Add force gravForce in
      let holarchicMod :=
        holarchicModOf (holarchyLevel particle) (holarchyLevel other) in
      let chargeMagnitude :=
        jsdiv (couplingStrength config * charge particle * charge other)
              (distance * distance) in
      let chargeForce :=
        vec3Scale direction ((- chargeMagnitude) * holarchicMod) in
      vec3Add force chargeForce.

(** The block [if (handPosition) { ... }]. *)
Definition handInteraction (particle : Particle) (force : vec3)
    (handPosition : option vec3) (gestureMode : GestureMode) : vec3 :=
  match handPosition with
  | None => force
  | Some hand =>
      let toHand := vec3Sub hand (position particle) in
      let handDist := vec3Length toHand in
      if Rgtb handDist 0.1 && Rltb handDist 10 then
        let handDir := vec3Normalize toHand in
        let handStrength := jsdiv 5 (handDist * handDist) in
        match gestureMode with
        | attract => vec3Add force (vec3Scale handDir handStrength)
        | repel => vec3Add force (vec3Scale handDir (- handStrength))
        | _ => force
        end
      else force
  end.

(** The spring and damping terms, accumulated from [[0, 0, 0]]. *)
Definition selfForce (particle : Particle) (config : PhysicsConfig) : vec3 :=
  let force := V3 0 0 0 in
  let toOrigin := vec3Scale (position particle) (- springConstant config) in
  let force := vec3Add force toOrigin in
  let velocity := vec3Scale (momentum particle) (jsdiv 1 (mass particle)) in
  let damping := vec3Scale velocity (- dampingFactor config) in
  vec3Add force damping.

Definition calculateForce (particle : Particle) (allParticles : list Particle)
    (config : PhysicsConfig) (handPosition : option vec3)
    (gestureMode : GestureMode) : vec3 :=
  let force := selfForce particle config in
  let force := fold_left (interaction config particle) allParticles force in
  handInteraction particle force handPosition gestureMode.

(** ** Energies *)

Definition calculateKineticEnergy (particles : list Particle) : R :=
  fold_left
    (fun sum p =>
       let pSquared := vec3Dot (momentum p) (momentum p) in
       sum + jsdiv pSquared (2 * mass p))
    particles 0.

(** The body of the inner loop of the pairwise part of
    [calculatePotentialEnergy], for the pair [(pi, pj)]. *)
Definition pairPotential (config : PhysicsConfig) (pi : Particle)
    (potential : R) (pj : Particle) : R :=
  let diff := vec3Sub (position pj) (position pi) in
  let distance := vec3Length diff in
  if Rltb distance 0.1 then potential
  else
    let potential :=
      potential
      - jsdiv (gravitationalConstant config * mass pi * mass pj) distance in
    let holarchicMod := holarchicModOf (holarchyLevel pi) (holarchyLevel pj) in
    potential
    + jsdiv (couplingStrength config * charge pi * charge pj * holarchicMod)
            distance.

(** [for (i = 0; ...) for (j = i + 1; ...)]: every particle with the
    particles after it. *)
Fixpoint pairwisePotential (config : PhysicsConfig) (particles : list Particle)
    (potential : R) : R :=
  match particles with
  | [] => potential
  | pi :: rest =>
      pairwisePotential config rest
        (fold_left (pairPotential config pi) rest potential)
  end.

Definition calculatePotentialEnergy (particles : list Particle)
    (config : PhysicsConfig) : R :=
  let potential := 0 in
  let potential :=
    fold_left
      (fun potential p =>
         let rSquared := vec3Dot (position p) (position p) in
         potential + 0.5 * springConstant config * rSquared)
      particles potential in
  pairwisePotential config particles potential.

(** ** [integrateHamiltonian] *)

(** The function of the first [particles.map((p, i) => ...)], with
    [force] for [forces[i]]. *)
Definition advancePosition (timeStep : R) (p : Particle) (force : vec3)
  : Particle :=
  let velocity := vec3Scale (momentum p) (jsdiv 1 (mass p)) in
  let acceleration := vec3Scale force (jsdiv 1 (mass p)) in
  let newPosition :=
    V3 (c0 (position p) + c0 velocity * timeStep
        + 0.5 * c0 acceleration * timeStep * timeStep)
       (c1 (position p) + c1 velocity * timeStep
        + 0.5 * c1 acceleration * timeStep * timeStep)
       (c2 (position p) + c2 velocity * timeStep
        + 0.5 * c2 acceleration * timeStep * timeStep) in
  with_position p newPosition.

(** The function of [updatedParticles.map((p, i) => ...)], with [force]
    for [forces[i]] and [newForce] for [newForces[i]]. *)
Definition advanceMomentum (timeStep : R) (p : Particle)
    (force newForce : vec3) : Particle :=
  let avgForce :=
    V3 (0.5 * (c0 force + c0 newForce))
       (0.5 * (c1 force + c1 newForce))
       (0.5 * (c2 force + c2 newForce)) in
  let newMomentum :=
    V3 (c0 (momentum p) + c0 avgForce * timeStep)
       (c1 (momentum p) + c1 avgForce * timeStep)
       (c2 (momentum p) + c2 avgForce * timeStep) in
  let kineticEnergy := jsdiv (vec3Dot newMomentum newMomentum) (2 * mass p) in
  with_momentum_energy p newMomentum kineticEnergy.

(** [forces[i]] is [nth i forces vzero]: [forces] and [newForces] are as
    long as the arrays mapped over, so the default is never read. *)
Definition integrateHamiltonian (particles : list Particle)
    (config : PhysicsConfig) (dt : R) (handPosition : option vec3)
    (gestureMode : GestureMode) : list Particle * EnergyResult :=
  let timeStep := dt * timeScale config in
  let forces :=
    map (fun p => calculateForce p particles config handPosition gestureMode)
        particles in
  let updatedParticles :=
    mapi (fun p i => advancePosition timeStep p (nth i forces vzero))
         particles in
  let newForces :=
    map (fun p =>
           calculateForce p updatedParticles config handPosition gestureMode)
        updatedParticles in
  let finalParticles :=
    mapi (fun p i =>
            advanceMomentum timeStep p (nth i forces vzero)
                            (nth i newForces vzero))
         updatedParticles in
  let kinetic := calculateKineticEnergy finalParticles in
  let potential := calculatePotentialEnergy finalParticles config in
  (finalParticles, mkEnergyResult kinetic potential (kinetic + potential)).



(** ** [checkHolarchicEmergence] *)

Definition HOLARCHY_COLORS : list string :=
  ["#6366f1"; "#22d3ee"; "#10b981"; "#fbbf24"; "#f472b6"]%string.

(** [HOLARCHY_COLORS[i]]; an index outside the array gives [undefined] in
    the source, the empty string here. *)
Definition colorAt (i : Z) : string :=
  if (i <? 0)%Z then ""%string
  else nth (Z.to_nat i) HOLARCHY_COLORS ""%string.

(** The state of the two loops: the array [result], the set [toMerge], and
    how many identifiers have been generated so far. *)
Record EmergenceState : Type := mkEmergence {
  result : list Particle;
  toMerge : set string;
  generated : nat
}.

(** The object literal pushed on [result]. *)
Definition mergedParticle (pi pj : Particle) (newId : string) : Particle :=
  let newMass := mass pi + mass pj in
  let newPosition :=
    V3 (jsdiv (c0 (position pi) * mass pi + c0 (position pj) * mass pj) newMass)
       (jsdiv (c1 (position pi) * mass pi + c1 (position pj) * mass pj) newMass)
       (jsdiv (c2 (position pi) * mass pi + c2 (position pj) * mass pj) newMass)
  in
  let newMomentum :=
    V3 (c0 (momentum pi) + c0 (momentum pj))
       (c1 (momentum pi) + c1 (momentum pj))
       (c2 (momentum pi) + c2 (momentum pj)) in
  mkParticle newId newPosition newMomentum newMass (charge pi + charge pj)
             (holarchyLevel pi + 1) 0
             (colorAt (Z.rem (holarchyLevel pi + 1)
                             (Z.of_nat (List.length HOLARCHY_COLORS)))).

(** The two tests [distance < emergenceThreshold] and
    [relVel < emergenceThreshold]. *)
Definition closeAndSlow (emergenceThreshold : R) (pi pj : Particle) : bool :=
  let diff := vec3Sub (position pj) (position pi) in
  let distance := vec3Length diff in
  if Rltb distance emergenceThreshold then
    let relMomentum := vec3Sub (momentum pj) (momentum pi) in
    let relVel := jsdiv (vec3Length relMomentum) (mass pi + mass pj) in
    Rltb relVel emergenceThreshold
  else false.

(** The body of the inner loop, for the pair [(pi, pj)]. *)
Definition mergeBody (emergenceThreshold : R) (maxLevel : Z) (pi : Particle)
    (st : EmergenceState) (pj : Particle) : EmergenceState :=
  if has (toMerge st) (id pj) then st
  else if negb (Z.eqb (holarchyLevel pi) (holarchyLevel pj)) then st
  else if Z.geb (holarchyLevel pi) (maxLevel - 1) then st
  else if closeAndSlow emergenceThreshold pi pj then
    mkEmergence
      (result st ++ [mergedParticle pi pj (particleIdAt (generated st))])
      (add (add (toMerge st) (id pi)) (id pj))
      (S (generated st))
  else st.

(** The outer loop over [i], with the inner loop over [j > i]. *)
Fixpoint emergenceLoop (emergenceThreshold : R) (maxLevel : Z)
    (particles : list Particle) (st : EmergenceState) : EmergenceState :=
  match particles with
  | [] => st
  | pi :: rest =>
      if has (toMerge st) (id pi) then
        emergenceLoop emergenceThreshold maxLevel rest st
      else
        emergenceLoop emergenceThreshold maxLevel rest
          (fold_left (mergeBody emergenceThreshold maxLevel pi) rest st)
  end.

Definition checkHolarchicEmergence (particles : list Particle)
    (emergenceThreshold : R) (maxLevel : Z) : list Particle :=
  let st :=
    emergenceLoop emergenceThreshold maxLevel particles
      (mkEmergence particles [] 0) in
  filter (fun p => negb (has (toMerge st) (id p))) (result st).

(** ** [holarchic-memory.ts] *)

(** [particles.reduce((sum, p) => sum + f(p), 0)]. *)
Definition sumOver (f : Particle -> R) (particles : list Particle) : R :=
  fold_left (fun sum p => sum + f p) particles 0.

(** The mass-weighted centroid, as [createMemoryNodeFromParticles],
    [updateMemoryNodes] and [recognizePattern] each compute it. *)
Definition massCentroid (particles : list Particle) : vec3 :=
  let totalMass := sumOver mass particles in
  V3 (jsdiv (sumOver (fun p => c0 (position p) * mass p) particles) totalMass)
     (jsdiv (sumOver (fun p => c1 (position p) * mass p) particles) totalMass)
     (jsdiv (sumOver (fun p => c2 (position p) * mass p) particles) totalMass).

(** [Math.sqrt(dx * dx + dy * dy + dz * dz)] for [d = a - b]. *)
Definition distanceBetween (a b : vec3) : R :=
  let dx := c0 a - c0 b in
  let dy := c1 a - c1 b in
  let dz := c2 a - c2 b in
  sqrt (dx * dx + dy * dy + dz * dz).

Definition createMemoryNodeFromParticles (particles : list Particle)
    (level : Z) (parentId : option string) (newId : string)
  : HolarchicMemoryNode :=
  let centroid := massCentroid particles in
  let totalEnergy := sumOver energy particles in
  mkNode newId level centroid (map id particles) parentId totalEnergy 1.

(** [levelGroups]: a [Map] iterates in insertion order, so it is an
    association list here.  [pushToGroup] is
    [if (!has(level)) set(level, []); get(level).push(p)]. *)
Fixpoint pushToGroup (lvl : Z) (p : Particle)
    (levelGroups : list (Z * list Particle)) : list (Z * list Particle) :=
  match levelGroups with
  | [] => [(lvl, [p])]
  | (l, group) :: rest =>
      if Z.eqb l lvl then (l, group ++ [p]) :: rest
      else (l, group) :: pushToGroup lvl p rest
  end.

Definition groupByLevel (particles : list Particle)
  : list (Z * list Particle) :=
  fold_left (fun levelGroups p => pushToGroup (holarchyLevel p) p levelGroups)
            particles [].

(** [for (const [level, group] of levelGroups)]: [k] identifiers have been
    generated before. *)
Fixpoint createNodes (levelGroups : list (Z * list Particle)) (k : nat)
  : list HolarchicMemoryNode :=
  match levelGroups with
  | [] => []
  | (lvl, group) :: rest =>
      if (0 <? List.length group)%nat then
        createMemoryNodeFromParticles group lvl None (nodeIdAt k)
        :: createNodes rest (S k)
      else createNodes rest k
  end.

(** [nodes.sort((a, b) => a.level - b.level)]: the sort of an array is
    stable, an insertion sort that keeps equal levels in their order. *)
Fixpoint insertByLevel (n : HolarchicMemoryNode)
    (sorted : list HolarchicMemoryNode) : list HolarchicMemoryNode :=
  match sorted with
  | [] => [n]
  | m :: t =>
      if (level n <=? level m)%Z then n :: m :: t
      else m :: insertByLevel n t
  end.

Definition sortByLevel (nodes : list HolarchicMemoryNode)
  : list HolarchicMemoryNode :=
  fold_right insertByLevel [] nodes.

(** [for (j = start; j >= 0; j--) if (nodes[j].level < currentLevel)]: the
    index at which the loop breaks, if it does. *)
Fixpoint findParent (nodes : list HolarchicMemoryNode) (currentLevel : Z)
    (j : nat) : option nat :=
  match nth_error nodes j with
  | Some nj =>
      if (level nj <? currentLevel)%Z then Some j
      else match j with
           | O => None
           | S j' => findParent nodes currentLevel j'
           end
  | None => None
  end.

(** One round of the loop [for (i = 1; i < nodes.length; i++)]. *)
Definition linkNode (nodes : list HolarchicMemoryNode) (i : nat)
  : list HolarchicMemoryNode :=
  match i, nth_error nodes i with
  | S i', Some currentNode =>
      match findParent nodes (level currentNode) i' with
      | Some j =>
          match nth_error nodes j with
          | Some nj =>
              update_at j (fun n => push_child n (node_id currentNode))
                (update_at i (fun n => with_parent n (Some (node_id nj)))
                   nodes)
          | None => nodes
          end
      | None => nodes
      end
  | _, _ => nodes
  end.

Definition linkNodes (nodes : list HolarchicMemoryNode)
  : list HolarchicMemoryNode :=
  fold_left linkNode (seq 1 (List.length nodes - 1)) nodes.

Definition buildHolarchicTree (particles : list Particle) (maxDepth : Z)
  : list HolarchicMemoryNode :=
  let nodes := createNodes (groupByLevel particles) 0 in
  let nodes := sortByLevel nodes in
  linkNodes nodes.

(** ** [updateMemoryNodes] *)

Definition matchingParticlesOf (node : HolarchicMemoryNode)
    (particles : list Particle) : list Particle :=
  filter
    (fun p => includes (children node) (id p)
              || Z.eqb (holarchyLevel p) (level node))
    particles.

(** The function mapped over [nodes]. *)
Definition updateNode (particles : list Particle) (config : MemoryConfig)
    (deltaTime : R) (node : HolarchicMemoryNode) : HolarchicMemoryNode :=
  let newStrength := memoryStrength node * (1 - decayRate config * deltaTime) in
  let matchingParticles := matchingParticlesOf node particles in
  if (0 <? List.length matchingParticles)%nat then
    let currentCentroid := massCentroid matchingParticles in
    let distance := distanceBetween currentCentroid (node_position node) in
    let similarity := exp (- distance) in
    let newStrength := Rmin 1 (newStrength + similarity * 0.1) in
    let learningRate := 0.01 in
    let newPosition :=
      V3 (c0 (node_position node)
          + (c0 currentCentroid - c0 (node_position node)) * learningRate)
         (c1 (node_position node)
          + (c1 currentCentroid - c1 (node_position node)) * learningRate)
         (c2 (node_position node)
          + (c2 currentCentroid - c2 (node_position node)) * learningRate) in
    let newActivation := sumOver energy matchingParticles in
    with_reinforcement node newPosition newStrength newActivation
  else with_memoryStrength node newStrength.

Definition updateMemoryNodes (nodes : list HolarchicMemoryNode)
    (particles : list Particle) (config : MemoryConfig) (deltaTime : R)
  : list HolarchicMemoryNode :=
  filter (fun node => Rgtb (memoryStrength node) 0.01)
         (map (updateNode particles config deltaTime) nodes).

(** ** [recognizePattern] *)

(** [node.memoryStrength * Math.exp(-distance)]. *)
Definition similarityTo (currentCentroid : vec3) (node : HolarchicMemoryNode)
  : R :=
  let distance := distanceBetween currentCentroid (node_position node) in
  memoryStrength node * exp (- distance).

(** The body of [for (const node of nodes)], on the pair
    [(bestMatch, bestSimilarity)]. *)
Definition recognizeBody (lvl : Z) (currentCentroid : vec3)
    (best : option HolarchicMemoryNode * R) (node : HolarchicMemoryNode)
  : option HolarchicMemoryNode * R :=
  if negb (Z.eqb (level node) lvl) then best
  else
    let similarity := similarityTo currentCentroid node in
    if Rgtb similarity (snd best) then (Some node, similarity) else best.

Definition recognizePattern (particles : list Particle)
    (nodes : list HolarchicMemoryNode) (lvl : Z)
  : option HolarchicMemoryNode :=
  let levelParticles :=
    filter (fun p => Z.eqb (holarchyLevel p) lvl) particles in
  if (List.length levelParticles =? 0)%nat then None
  else
    let currentCentroid := massCentroid levelParticles in
    let best :=
      fold_left (recognizeBody lvl currentCentroid) nodes (None, -1) in
    if Rgtb (snd best) 0.1 then fst best else None.

(** ** [calculateHolarchicCoherence] *)

(** The body of [for (const particle of levelParticles)], on the pair
    [(totalCoherence, count)]. *)
Definition coherenceBody (node : HolarchicMemoryNode) (acc : R * nat)
    (particle : Particle) : R * nat :=
  let distance := distanceBetween (position particle) (node_position node) in
  (fst acc + exp (- distance) * memoryStrength node, S (snd acc)).

Definition calculateHolarchicCoherence (particles : list Particle)
    (nodes : list HolarchicMemoryNode) : R :=
  if (List.length particles =? 0)%nat || (List.length nodes =? 0)%nat then 0
  else
    let acc :=
      fold_left
        (fun acc node =>
           let levelParticles :=
             filter (fun p => Z.eqb (holarchyLevel p) (level node)) particles in
           if (List.length levelParticles =? 0)%nat then acc
           else fold_left (coherenceBody node) levelParticles acc)
        nodes (0, O) in
    if (0 <? snd acc)%nat then jsdiv (fst acc) (INR (snd acc)) else 0.

(** ** [calculateSynchronizationForces] *)

(** [levelGroups] of nodes, as [pushToGroup] for particles. *)
Fixpoint pushNodeToGroup (lvl : Z) (n : HolarchicMemoryNode)
    (levelGroups : list (Z * list HolarchicMemoryNode))
  : list (Z * list HolarchicMemoryNode) :=
  match levelGroups with
  | [] => [(lvl, [n])]
  | (l, group) :: rest =>
      if Z.eqb l lvl then (l, group ++ [n]) :: rest
      else (l, group) :: pushNodeToGroup lvl n rest
  end.

Definition groupNodesByLevel (nodes : list HolarchicMemoryNode)
  : list (Z * list HolarchicMemoryNode) :=
  fold_left (fun levelGroups n => pushNodeToGroup (level n) n levelGroups)
            nodes [].

(** The body of [for (const other of group)]. *)
Definition syncBody (config : MemoryConfig) (node : HolarchicMemoryNode)
    (force : vec3) (other : HolarchicMemoryNode) : vec3 :=
  if String.eqb (node_id other) (node_id node) then force
  else
    let dx := c0 (node_position other) - c0 (node_position node) in
    let dy := c1 (node_position other) - c1 (node_position node) in
    let dz := c2 (node_position other) - c2 (node_position node) in
    let distance := sqrt (dx * dx + dy * dy + dz * dz) in
    if Rltb distance 0.01 then force
    else
      let coupling :=
        synchronizationStrength config * memoryStrength node
        * memoryStrength other in
      let strength := jsdiv coupling distance in
      V3 (c0 force + jsdiv dx distance * strength)
         (c1 force + jsdiv dy distance * strength)
         (c2 force + jsdiv dz distance * strength).

(** The force on [node] from its group, accumulated from [[0, 0, 0]]. *)
Definition syncForce (config : MemoryConfig)
    (group : list HolarchicMemoryNode) (node : HolarchicMemoryNode) : vec3 :=
  fold_left (syncBody config node) group (V3 0 0 0).

(** [for (const node of group) { ...; forces.set(node.id, force) }]. *)
Definition syncGroup (config : MemoryConfig)
    (group : list HolarchicMemoryNode) (forces : list (string * vec3))
  : list (string * vec3) :=
  fold_left
    (fun forces node => mapSet (node_id node) (syncForce config group node)
                               forces)
    group forces.

Definition calculateSynchronizationForces (nodes : list HolarchicMemoryNode)
    (config : MemoryConfig) : list (string * vec3) :=
  fold_left
    (fun forces lg =>
       let group := snd lg in
       if (List.length group <? 2)%nat then forces
       else syncGroup config group forces)
    (groupNodesByLevel nodes) [].

(** ** [applyHolarchicConstraints] *)

(** The body of [for (const node of higherNodes)]. *)
Definition constraintBody (constraintStrength : R) (particle : Particle)
    (constraint : vec3) (node : HolarchicMemoryNode) : vec3 :=
  let dx := c0 (node_position node) - c0 (position particle) in
  let dy := c1 (node_position node) - c1 (position particle) in
  let dz := c2 (node_position node) - c2 (position particle) in
  let distance := sqrt (dx * dx + dy * dy + dz * dz) in
  if Rltb distance 0.01 then constraint
  else
    let levelDiff := (level node - holarchyLevel particle)%Z in
    let strength :=
      jsdiv (constraintStrength * memoryStrength node) (1 + IZR levelDiff) in
    V3 (c0 constraint + jsdiv dx distance * strength)
       (c1 constraint + jsdiv dy distance * strength)
       (c2 constraint + jsdiv dz distance * strength).

(** The constraint on one particle, accumulated from [[0, 0, 0]]. *)
Definition constraintOn (constraintStrength : R)
    (nodes : list HolarchicMemoryNode) (particle : Particle) : vec3 :=
  let higherNodes :=
    filter (fun n => (level n >? holarchyLevel particle)%Z) nodes in
  fold_left (constraintBody constraintStrength particle) higherNodes
            (V3 0 0 0).

Definition applyHolarchicConstraints (particles : list Particle)
    (nodes : list HolarchicMemoryNode) (constraintStrength : R)
  : list (string * vec3) :=
  fold_left
    (fun constraints particle =>
       mapSet (id particle) (constraintOn constraintStrength nodes particle)
              constraints)
    particles [].

(** ** The frame loop ([SimulationLoop], the callback of [useFrame]) *)

(** One frame at clock time [currentTime]; [lastUpdateTime] is the ref of
    that name.  The result is the store and the ref after the frame. *)
Definition simulationFrame (st : SimulationState) (lastUpdateTime : R)
    (currentTime : R) : SimulationState * R :=
  if negb (sim_isRunning st) || (List.length (sim_particles st) =? 0)%nat
  then (st, lastUpdateTime)
  else
    let deltaTime := Rmin (currentTime - lastUpdateTime) 0.05 in
    let lastUpdateTime := currentTime in
    if Rleb deltaTime 0 then (st, lastUpdateTime)
    else
      let integrated :=
        integrateHamiltonian (sim_particles st)
          (mkPhysicsConfig (sim_springConstant st) (sim_dampingFactor st)
             (sim_gravitationalConstant st) (sim_couplingStrength st)
             (sim_timeScale st))
          deltaTime (sim_handPosition st) (sim_gestureMode st) in
      let updatedParticles := fst integrated in
      let energies := snd integrated in
      let emergentParticles :=
        checkHolarchicEmergence updatedParticles (sim_emergenceThreshold st)
                                (sim_holarchyDepth st) in
      let newMemoryNodes :=
        updateMemoryNodes
          (if (0 <? List.length (sim_memoryNodes st))%nat
           then sim_memoryNodes st
           else buildHolarchicTree emergentParticles (sim_holarchyDepth st))
          emergentParticles
          (mkMemoryConfig (sim_memoryDecayRate st)
                          (sim_synchronizationStrength st) 0.5)
          deltaTime in
      (storeFrame st emergentParticles newMemoryNodes energies,
       lastUpdateTime).

(** ** Predicates used by the statements *)

(** A group of [levelGroups] holds a particle. *)
Definition nonempty_group (g : Z * list Particle) : Prop := snd g <> [].

(** Every parent reference of [nodes] is the id of a node of [nodes] of a
    strictly lower level that lists the child. *)
Definition linked (nodes : list HolarchicMemoryNode) : Prop :=
  forall k n pid,
    nth_error nodes k = Some n -> parent n = Some pid ->
    exists k2 m,
      nth_error nodes k2 = Some m /\ node_id m = pid
      /\ (level m < level n)%Z /\ In (node_id n) (children m).

(** [n] is the particle pushed for a pair of [particles0] that passed the
    tests of the inner loop, both ids being in [tm]. *)
Definition mergeRecord (particles0 : list Particle) (emergenceThreshold : R)
    (maxLevel : Z) (tm : set string) (n : Particle) : Prop :=
  exists pi pj newId,
    In pi particles0 /\ In pj particles0
    /\ holarchyLevel pi = holarchyLevel pj
    /\ (holarchyLevel pi < maxLevel - 1)%Z
    /\ closeAndSlow emergenceThreshold pi pj = true
    /\ n = mergedParticle pi pj newId
    /\ In (id pi) tm /\ In (id pj) tm.

(** [result] is the input followed by the particles pushed so far. *)
Definition emergenceInv (particles0 : list Particle) (emergenceThreshold : R)
    (maxLevel : Z) (st : EmergenceState) : Prop :=
  exists pushed,
    result st = particles0 ++ pushed
    /\ Forall (mergeRecord particles0 emergenceThreshold maxLevel (toMerge st))
              pushed.

(** [result] is the input followed by the pushed particles, of which
    there are no more than ids in [toMerge], all of them ids of the
    input. *)
Definition countInv (particles0 : list Particle) (st : EmergenceState)
  : Prop :=
  exists pushed,
    result st = particles0 ++ pushed
    /\ NoDup (toMerge st)
    /\ incl (toMerge st) (map id particles0)
    /\ (List.length pushed <= List.length (toMerge st))%nat.

(** [m'] is [m] with children pushed, and maybe another parent. *)
Definition extends (m m' : HolarchicMemoryNode) : Prop :=
  node_id m' = node_id m /\ level m' = level m
  /\ node_position m' = node_position m
  /\ activationEnergy m' = activationEnergy m
  /\ memoryStrength m' = memoryStrength m
  /\ exists pushed, children m' = children m ++ pushed.

(** [levelGroups.get(level)], the empty array standing for a missing
    key. *)
Fixpoint lookupGroup (lvl : Z) (levelGroups : list (Z * list Particle))
  : list Particle :=
  match levelGroups with
  | [] => []
  | (l, group) :: rest =>
      if Z.eqb l lvl then group else lookupGroup lvl rest
  end.

(** After the rounds [1 .. k] of the linking loop: [cur] is [nodes0] with
    children pushed; the first node and the nodes after index [k] have no
    parent; up to index [k] every node has its predecessor as parent and
    is listed by it. *)
Definition chainInv (nodes0 : list HolarchicMemoryNode) (k : nat)
    (cur : list HolarchicMemoryNode) : Prop :=
  Forall2 extends nodes0 cur
  /\ (forall i b, nth_error cur i = Some b -> (i = 0 \/ k < i)%nat ->
                  parent b = None)
  /\ (forall i a b,
         (S i <= k)%nat ->
         nth_error cur i = Some a -> nth_error cur (S i) = Some b ->
         parent b = Some (node_id a) /\ In (node_id b) (children a)).

(** * Properties *)

(** What the theorems may use of JavaScript's division: it is the division
    of the reals when the divisor is not zero. *)
Hypothesis jsdiv_spec : forall a b : R, b <> 0 -> jsdiv a b = a / b.

(** ** Booleans and comparisons *)

Lemma Rltb_true (x y : R) : x < y -> Rltb x y = true.
Proof. intros H. unfold Rltb. destruct (Rlt_dec x y); [reflexivity | contradiction]. Qed.

Lemma Rltb_false (x y : R) : ~ x < y -> Rltb x y = false.
Proof. intros H. unfold Rltb. destruct (Rlt_dec x y); [contradiction | reflexivity]. Qed.

Lemma Rltb_iff (x y : R) : Rltb x y = true <-> x < y.
Proof.
  unfold Rltb. destruct (Rlt_dec x y); split; intros; try assumption;
    try reflexivity; try contradiction; discriminate.
Qed.

Lemma Rltb_iff_false (x y : R) : Rltb x y = false <-> y <= x.
Proof.
  unfold Rltb. destruct (Rlt_dec x y); split; intros; try reflexivity;
    try discriminate; lra.
Qed.

Lemma Reqb_false (x y : R) : x <> y -> Reqb x y = false.
Proof. intros H. unfold Reqb. destruct (Req_dec_T x y); [contradiction | reflexivity]. Qed.

(** ** Vectors *)

Lemma vec3_eq (a b : vec3) :
  c0 a = c0 b -> c1 a = c1 b -> c2 a = c2 b -> a = b.
Proof. destruct a, b; simpl; intros; subst; reflexivity. Qed.

(** Two vectors are equal when a ring normalisation equates their
    components. *)
Ltac vec3_ring := apply vec3_eq; simpl; ring.

Lemma vec3Length_nonneg (v : vec3) : 0 <= vec3Length v.
Proof. unfold vec3Length. apply sqrt_pos. Qed.

Lemma vec3Length_sub_same (a : vec3) : vec3Length (vec3Sub a a) = 0.
Proof.
  unfold vec3Length, vec3Sub; simpl.
  replace ((c0 a - c0 a) * (c0 a - c0 a) + (c1 a - c1 a) * (c1 a - c1 a)
           + (c2 a - c2 a) * (c2 a - c2 a)) with 0 by ring.
  apply sqrt_0.
Qed.

(** ** The singularity guard (C4) *)

Lemma close_pair (particle other : Particle) :
  position other = position particle
  \/ vec3Length (vec3Sub (position other) (position particle)) < 0.1 ->
  Rltb (vec3Length (vec3Sub (position other) (position particle))) 0.1 = true.
Proof.
  intros [Heq | Hlt]; apply Rltb_true.
  - rewrite Heq, vec3Length_sub_same. lra.
  - exact Hlt.
Qed.

Lemma interaction_close (config : PhysicsConfig) (particle other : Particle)
    (force : vec3) :
  Rltb (vec3Length (vec3Sub (position other) (position particle))) 0.1 = true ->
  interaction config particle force other = force.
Proof.
  intros H. unfold interaction.
  destruct (String.eqb (id other) (id particle)); [reflexivity |].
  rewrite H. reflexivity.
Qed.

(** C4.  A pair of particles closer than 0.1, or at one position, adds
    nothing to the force and nothing to the potential energy: the body of
    either loop leaves its accumulator as it found it, the force on a
    particle is the force the population without the close particle exerts,
    and the potential energy of the pair alone is that of the two springs.
    This holds whatever [jsdiv] is: no quotient is looked at, so none with
    a zero divisor. *)
Theorem singularity_guard :
  forall (config : PhysicsConfig) (particle other : Particle) (force : vec3)
         (potential : R) (before after : list Particle)
         (handPosition : option vec3) (gestureMode : GestureMode),
    position other = position particle
    \/ vec3Length (vec3Sub (position other) (position particle)) < 0.1 ->
    interaction config particle force other = force
    /\ pairPotential config particle potential other = potential
    /\ calculateForce particle (before ++ other :: after) config
                      handPosition gestureMode
       = calculateForce particle (before ++ after) config
                        handPosition gestureMode
    /\ calculatePotentialEnergy [particle; other] config
       = 0
         + 0.5 * springConstant config
           * vec3Dot (position particle) (position particle)
         + 0.5 * springConstant config
           * vec3Dot (position other) (position other).
Proof.
  intros config particle other force potential before after hand mode Hclose.
  pose proof (close_pair particle other Hclose) as Hb.
  repeat split.
  - apply interaction_close; exact Hb.
  - unfold pairPotential. rewrite Hb. reflexivity.
  - unfold calculateForce.
    rewrite !fold_left_app. simpl.
    rewrite (interaction_close config particle other _ Hb). reflexivity.
  - unfold calculatePotentialEnergy. simpl.
    unfold pairPotential. rewrite Hb. reflexivity.
Qed.

(** ** The integrator (C3, C10) *)

Lemma mapi_from_as_map {A B : Type} (f : A -> nat -> B) (g : A -> B) :
  forall (l : list A) (k : nat),
    (forall i x, nth_error l i = Some x -> f x (k + i)%nat = g x) ->
    mapi_from f k l = map g l.
Proof.
  induction l as [| a l IH]; intros k H; simpl.
  - reflexivity.
  - f_equal.
    + rewrite <- (H O a eq_refl). f_equal. lia.
    + apply IH. intros i x Hx.
      rewrite <- (H (S i) x Hx). f_equal. lia.
Qed.

Lemma mapi_as_map {A B : Type} (f : A -> nat -> B) (g : A -> B) (l : list A) :
  (forall i x, nth_error l i = Some x -> f x i = g x) ->
  mapi f l = map g l.
Proof. intros H. unfold mapi. apply mapi_from_as_map. exact H. Qed.

Lemma mapi_from_map {A B C : Type} (f : B -> nat -> C) (h : A -> B) :
  forall (l : list A) (k : nat),
    mapi_from f k (map h l) = mapi_from (fun x i => f (h x) i) k l.
Proof.
  induction l as [| a l IH]; intros k; simpl; [reflexivity |].
  f_equal. apply IH.
Qed.

Lemma nth_map_at {A B : Type} (F : A -> B) (d : B) :
  forall (l : list A) (i : nat) (x : A),
    nth_error l i = Some x -> nth i (map F l) d = F x.
Proof.
  induction l as [| a l IH]; intros [| i] x H; simpl in *; try discriminate.
  - congruence.
  - apply IH; exact H.
Qed.

(** The two index-aligned passes of [integrateHamiltonian] are one map
    over the particles. *)
Lemma integrate_as_map (particles : list Particle) (config : PhysicsConfig)
    (dt : R) (handPosition : option vec3) (gestureMode : GestureMode) :
  let timeStep := dt * timeScale config in
  let F := fun p =>
    calculateForce p particles config handPosition gestureMode in
  let updated := map (fun p => advancePosition timeStep p (F p)) particles in
  let F' := fun p =>
    calculateForce p updated config handPosition gestureMode in
  fst (integrateHamiltonian particles config dt handPosition gestureMode)
  = map (fun p =>
           let p1 := advancePosition timeStep p (F p) in
           advanceMomentum timeStep p1 (F p) (F' p1))
        particles.
Proof.
  intros timeStep F updated F'. unfold integrateHamiltonian. simpl.
  fold timeStep.
  assert (Hup :
    mapi (fun p i => advancePosition timeStep p
                       (nth i (map F particles) vzero)) particles
    = updated).
  { apply mapi_as_map. intros i x Hx.
    rewrite (nth_map_at F vzero particles i x Hx). reflexivity. }
  fold F. rewrite Hup. fold F'.
  unfold updated at 2. unfold mapi. rewrite mapi_from_map.
  apply mapi_from_as_map. intros i x Hx. simpl.
  rewrite (nth_map_at F vzero particles i x Hx).
  unfold updated. rewrite map_map.
  rewrite (nth_map_at (fun p => F' (advancePosition timeStep p (F p)))
                      vzero particles i x Hx).
  reflexivity.
Qed.




Lemma Forall_mapi_from {A B : Type} (P : B -> Prop) (f : A -> nat -> B) :
  (forall x i, P (f x i)) ->
  forall (l : list A) (k : nat), Forall P (mapi_from f k l).
Proof.
  intros H. induction l as [| a l IH]; intros k; simpl; constructor; auto.
Qed.

Lemma advanceMomentum_energy (timeStep : R) (p : Particle)
    (force newForce : vec3) :
  let p' := advanceMomentum timeStep p force newForce in
  mass p <> 0 ->
  energy p'
  = (c0 (momentum p') * c0 (momentum p') + c1 (momentum p') * c1 (momentum p')
     + c2 (momentum p') * c2 (momentum p'))
    / (2 * mass p').
Proof.
  simpl. intros Hm. apply jsdiv_spec. lra.
Qed.

Lemma zero_step_particle (p : Particle) (force force1 force2 : vec3) :
  mass p <> 0 ->
  advanceMomentum 0 (advancePosition 0 p force) force1 force2
  = mkParticle (id p) (position p) (momentum p) (mass p) (charge p)
      (holarchyLevel p)
      ((c0 (momentum p) * c0 (momentum p) + c1 (momentum p) * c1 (momentum p)
        + c2 (momentum p) * c2 (momentum p))
       / (2 * mass p))
      (color p).
Proof.
  intros Hm. destruct p as [i q m ms ch lv en col]. simpl in Hm.
  unfold advanceMomentum, advancePosition, with_momentum_energy,
    with_position; simpl.
  f_equal.
  - vec3_ring.
  - vec3_ring.
  - rewrite jsdiv_spec by lra. unfold vec3Dot; simpl. f_equal. ring.
Qed.

(** C10.  With [dt * timeScale = 0] the integrator gives every particle
    (of a mass that is not zero) back with the position, the momentum and
    every other field it had, the energy apart, which is
    [(px^2 + py^2 + pz^2) / (2 m)] for the momentum [(px, py, pz)]; and
    whatever the step, the energy of a particle it returns is that
    quotient for the momentum it returns. *)
Theorem integrate_zero_step_frame :
  forall (particles : list Particle) (config : PhysicsConfig) (dt : R)
         (handPosition : option vec3) (gestureMode : GestureMode),
    dt * timeScale config = 0 ->
    (forall p, In p particles -> mass p <> 0) ->
    fst (integrateHamiltonian particles config dt handPosition gestureMode)
    = map (fun p =>
             mkParticle (id p) (position p) (momentum p) (mass p) (charge p)
               (holarchyLevel p)
               ((c0 (momentum p) * c0 (momentum p)
                 + c1 (momentum p) * c1 (momentum p)
                 + c2 (momentum p) * c2 (momentum p))
                / (2 * mass p))
               (color p))
          particles
    /\ forall dt' : R,
         Forall
           (fun p' =>
              energy p'
              = (c0 (momentum p') * c0 (momentum p')
                 + c1 (momentum p') * c1 (momentum p')
                 + c2 (momentum p') * c2 (momentum p'))
                / (2 * mass p'))
           (fst (integrateHamiltonian particles config dt' handPosition
                                      gestureMode)).
Proof.
  intros particles config dt hand mode Hzero Hmass. split.
  - rewrite integrate_as_map. cbv zeta. rewrite Hzero.
    apply map_ext_in. intros p Hp. apply zero_step_particle.
    exact (Hmass p Hp).
  - intros dt'. rewrite integrate_as_map. cbv zeta.
    apply Forall_forall. intros p' Hp'.
    apply in_map_iff in Hp'. destruct Hp' as [p [<- Hp]].
    apply advanceMomentum_energy. exact (Hmass p Hp).
Qed.

(** ** Memory nodes: decay and reinforcement (C6, C9) *)

Lemma includes_iff (l : list string) (x : string) :
  includes l x = true <-> In x l.
Proof.
  unfold includes. rewrite existsb_exists. split.
  - intros [y [Hy Heq]]. apply String.eqb_eq in Heq. subst. exact Hy.
  - intros H. exists x. split; [exact H | apply String.eqb_refl].
Qed.

Lemma matchingParticlesOf_iff (node : HolarchicMemoryNode)
    (particles : list Particle) (q : Particle) :
  In q (matchingParticlesOf node particles)
  <-> In q particles
      /\ (In (id q) (children node) \/ holarchyLevel q = level node).
Proof.
  unfold matchingParticlesOf. rewrite filter_In, orb_true_iff.
  rewrite includes_iff, Z.eqb_eq. reflexivity.
Qed.

Lemma fold_sum_acc (f : Particle -> R) (l : list Particle) (a : R) :
  fold_left (fun sum p => sum + f p) l a = a + sumOver f l.
Proof.
  unfold sumOver. revert a.
  induction l as [| x l IH]; intros a; simpl.
  - ring.
  - rewrite (IH (a + f x)), (IH (0 + f x)). ring.
Qed.

Lemma sumOver_cons (f : Particle -> R) (x : Particle) (l : list Particle) :
  sumOver f (x :: l) = f x + sumOver f l.
Proof. unfold sumOver at 1. simpl. rewrite fold_sum_acc. ring. Qed.

Lemma sumOver_app (f : Particle -> R) (l1 l2 : list Particle) :
  sumOver f (l1 ++ l2) = sumOver f l1 + sumOver f l2.
Proof.
  unfold sumOver at 1. rewrite fold_left_app, fold_sum_acc.
  reflexivity.
Qed.

Lemma sumOver_nonneg (f : Particle -> R) (l : list Particle) :
  (forall p, In p l -> 0 <= f p) -> 0 <= sumOver f l.
Proof.
  induction l as [| x l IH]; intros H.
  - unfold sumOver. simpl. lra.
  - rewrite sumOver_cons.
    pose proof (H x (or_introl eq_refl)).
    assert (0 <= sumOver f l) by (apply IH; intros y Hy; apply H; right; exact Hy).
    lra.
Qed.

Lemma totalMass_positive (l : list Particle) :
  l <> [] -> (forall p, In p l -> 0 < mass p) -> 0 < sumOver mass l.
Proof.
  intros Hne Hpos. destruct l as [| x l]; [contradiction |].
  rewrite sumOver_cons.
  pose proof (Hpos x (or_introl eq_refl)).
  assert (0 <= sumOver mass l).
  { apply sumOver_nonneg. intros y Hy. apply Rlt_le, Hpos. right. exact Hy. }
  lra.
Qed.

(** The centroid of particles of positive mass, written out: the sums run
    over the particles in their order, from 0. *)
Lemma massCentroid_explicit (l : list Particle) :
  l <> [] -> (forall p, In p l -> 0 < mass p) ->
  massCentroid l
  = V3 (fold_left (fun sum p => sum + c0 (position p) * mass p) l 0
        / fold_left (fun sum p => sum + mass p) l 0)
       (fold_left (fun sum p => sum + c1 (position p) * mass p) l 0
        / fold_left (fun sum p => sum + mass p) l 0)
       (fold_left (fun sum p => sum + c2 (position p) * mass p) l 0
        / fold_left (fun sum p => sum + mass p) l 0).
Proof.
  intros Hne Hpos. pose proof (totalMass_positive l Hne Hpos) as Hm.
  unfold massCentroid. rewrite !jsdiv_spec by lra. reflexivity.
Qed.



(** C9.  A particle at the level of a node counts as matching although
    its id is not among the node's children.  The matching particles are
    those with the id among the children or the level of the node; the
    node moves a hundredth of the way to their mass-weighted centroid, its
    strength is reinforced by a tenth of [exp (- distance)] to that
    centroid, up to 1, and its activation energy becomes the sum of their
    energies.  The sums run over all matching particles, in their
    order. *)
Theorem same_level_particle_matches :
  forall (node : HolarchicMemoryNode) (particles : list Particle)
         (config : MemoryConfig) (deltaTime : R) (p : Particle),
    (forall q, In q particles -> 0 < mass q) ->
    In p particles ->
    holarchyLevel p = level node ->
    ~ In (id p) (children node) ->
    let matching :=
      filter (fun q => existsb (String.eqb (id q)) (children node)
                       || Z.eqb (holarchyLevel q) (level node))
             particles in
    let totalMass := fold_left (fun sum q => sum + mass q) matching 0 in
    let cx :=
      fold_left (fun sum q => sum + c0 (position q) * mass q) matching 0
      / totalMass in
    let cy :=
      fold_left (fun sum q => sum + c1 (position q) * mass q) matching 0
      / totalMass in
    let cz :=
      fold_left (fun sum q => sum + c2 (position q) * mass q) matching 0
      / totalMass in
    let nx := c0 (node_position node) in
    let ny := c1 (node_position node) in
    let nz := c2 (node_position node) in
    let distance :=
      sqrt ((cx - nx) * (cx - nx) + (cy - ny) * (cy - ny)
            + (cz - nz) * (cz - nz)) in
    let node' := updateNode particles config deltaTime node in
    In p matching
    /\ matchingParticlesOf node particles = matching
    /\ (forall q, In q matching
                  <-> In q particles
                      /\ (In (id q) (children node)
                          \/ holarchyLevel q = level node))
    /\ node_position node'
       = V3 (nx + (cx - nx) * 0.01) (ny + (cy - ny) * 0.01)
            (nz + (cz - nz) * 0.01)
    /\ memoryStrength node'
       = Rmin 1 (memoryStrength node * (1 - decayRate config * deltaTime)
                 + exp (- distance) * 0.1)
    /\ activationEnergy node'
       = fold_left (fun sum q => sum + energy q) matching 0
    /\ node_id node' = node_id node /\ level node' = level node
    /\ children node' = children node /\ parent node' = parent node.
Proof.
  intros node particles config deltaTime p Hmass Hin Hlevel _ matching
         totalMass cx cy cz nx ny nz distance node'.
  assert (Hsame : matchingParticlesOf node particles = matching)
    by reflexivity.
  assert (Hm : In p matching).
  { rewrite <- Hsame. apply matchingParticlesOf_iff.
    split; [exact Hin | right; exact Hlevel]. }
  split; [exact Hm |]. split; [exact Hsame |].
  split; [intros q; rewrite <- Hsame; apply matchingParticlesOf_iff |].
  assert (Hne : matching <> []) by (intros E; rewrite E in Hm; exact Hm).
  assert (Hpos : forall q, In q matching -> 0 < mass q).
  { intros q Hq. apply Hmass. unfold matching in Hq.
    apply filter_In in Hq. exact (proj1 Hq). }
  assert (Hcentroid : massCentroid matching = V3 cx cy cz)
    by exact (massCentroid_explicit matching Hne Hpos).
  unfold node', updateNode. rewrite Hsame.
  destruct matching as [| x l] eqn:E; [contradiction |].
  cbn [List.length Nat.ltb Nat.leb]. cbv zeta.
  rewrite Hcentroid.
  repeat split; reflexivity.
Qed.

(** ** The read-only queries (C8) *)

(** The second component of the loop state of [recognizePattern] is the
    greatest of its initial value and the similarities of the nodes at the
    level. *)
Lemma recognize_best_bound (lvl : Z) (centroid : vec3) :
  forall (nodes : list HolarchicMemoryNode)
         (best : option HolarchicMemoryNode * R) (x : R),
    snd (fold_left (recognizeBody lvl centroid) nodes best) <= x
    <-> snd best <= x
        /\ forall node, In node nodes -> level node = lvl ->
                        similarityTo centroid node <= x.
Proof.
  induction nodes as [| n nodes IH]; intros best x; simpl.
  - split; [intros H; split; [exact H | intros ? []] | intros [H _]; exact H].
  - rewrite IH. unfold recognizeBody at 1.
    destruct (Z.eqb_spec (level n) lvl) as [Hl | Hl]; simpl.
    + unfold Rgtb. destruct (Rltb (snd best) (similarityTo centroid n)) eqn:E.
      * apply Rltb_iff in E. simpl. split.
        -- intros [H1 H2]. split; [lra |].
           intros node [-> | Hin] Hn; [exact H1 | apply H2; assumption].
        -- intros [H1 H2]. split; [apply H2; auto | intros; apply H2; auto].
      * apply Rltb_iff_false in E. split.
        -- intros [H1 H2]. split; [exact H1 |].
           intros node [-> | Hin] Hn; [lra | apply H2; assumption].
        -- intros [H1 H2]. split; [exact H1 | intros; apply H2; auto].
    + split.
      * intros [H1 H2]. split; [exact H1 |].
        intros node [-> | Hin] Hn; [contradiction | apply H2; assumption].
      * intros [H1 H2]. split; [exact H1 | intros; apply H2; auto].
Qed.

(** While no node has been chosen the best similarity is the initial one. *)
Lemma recognize_none_bound (lvl : Z) (centroid : vec3) (x : R) :
  forall (nodes : list HolarchicMemoryNode)
         (best : option HolarchicMemoryNode * R),
    (fst best = None -> snd best <= x) ->
    fst (fold_left (recognizeBody lvl centroid) nodes best) = None ->
    snd (fold_left (recognizeBody lvl centroid) nodes best) <= x.
Proof.
  induction nodes as [| n nodes IH]; intros best Hb; simpl.
  - exact Hb.
  - apply IH. unfold recognizeBody.
    destruct (negb (level n =? lvl)%Z); [exact Hb |].
    destruct (Rgtb (similarityTo centroid n) (snd best)); [| exact Hb].
    simpl. discriminate.
Qed.

(** [recognizePattern] answers none exactly when no particle is at the
    level or no node at the level has a similarity above 0.1. *)
Lemma recognize_none_iff (particles : list Particle)
    (nodes : list HolarchicMemoryNode) (lvl : Z) :
  recognizePattern particles nodes lvl = None
  <-> let levelParticles :=
        filter (fun p => Z.eqb (holarchyLevel p) lvl) particles in
      levelParticles = []
      \/ forall node, In node nodes -> level node = lvl ->
           similarityTo (massCentroid levelParticles) node <= 0.1.
Proof.
  cbv zeta. unfold recognizePattern.
  set (levelParticles := filter _ particles).
  destruct levelParticles as [| p0 rest] eqn:E; simpl.
  - split; auto.
  - set (centroid := massCentroid (p0 :: rest)).
    set (best := fold_left (recognizeBody lvl centroid) nodes (None, -1)).
    pose proof (recognize_best_bound lvl centroid nodes (None, -1) 0.1) as Hmax.
    fold best in Hmax. simpl in Hmax.
    pose proof (recognize_none_bound lvl centroid 0.1 nodes (None, -1)) as Hnone.
    fold best in Hnone. simpl in Hnone.
    unfold Rgtb. destruct (Rltb 0.1 (snd best)) eqn:Hb.
    + apply Rltb_iff in Hb. split.
      * intros Hf. exfalso.
        assert (snd best <= 0.1) by (apply Hnone; [intros; lra | exact Hf]).
        lra.
      * intros [Habs | Hall]; [discriminate |].
        exfalso.
        assert (snd best <= 0.1) by (apply Hmax; split; [lra | exact Hall]).
        lra.
    + apply Rltb_iff_false in Hb. split; [| reflexivity].
      intros _. right. apply Hmax. exact Hb.
Qed.

(** The similarity of a node to a point, written out. *)
Lemma similarityTo_explicit (cx cy cz : R) (node : HolarchicMemoryNode) :
  similarityTo (V3 cx cy cz) node
  = memoryStrength node
    * exp (- sqrt ((cx - c0 (node_position node))
                   * (cx - c0 (node_position node))
                   + (cy - c1 (node_position node))
                     * (cy - c1 (node_position node))
                   + (cz - c2 (node_position node))
                     * (cz - c2 (node_position node)))).
Proof. reflexivity. Qed.

(** C8.  The coherence of an empty population or of an empty set of nodes
    is 0 (that of one particle and one node of its level is
    [exp (- distance) * memoryStrength], so 0 is not what the function
    always answers).  For particles of positive mass, [recognizePattern]
    answers none exactly when no particle is at the level, or no node at
    the level has a score [memoryStrength * exp (- distance)] above 0.1,
    the distance being that of the node to the mass-weighted centroid of
    the particles of the level.  Both are total functions. *)
Theorem neutral_results :
  forall (particles : list Particle) (nodes : list HolarchicMemoryNode)
         (lvl : Z),
    (forall p, In p particles -> 0 < mass p) ->
    let levelParticles :=
      filter (fun p => Z.eqb (holarchyLevel p) lvl) particles in
    let totalMass := fold_left (fun sum p => sum + mass p) levelParticles 0 in
    let cx :=
      fold_left (fun sum p => sum + c0 (position p) * mass p) levelParticles 0
      / totalMass in
    let cy :=
      fold_left (fun sum p => sum + c1 (position p) * mass p) levelParticles 0
      / totalMass in
    let cz :=
      fold_left (fun sum p => sum + c2 (position p) * mass p) levelParticles 0
      / totalMass in
    let score := fun node : HolarchicMemoryNode =>
      memoryStrength node
      * exp (- sqrt ((cx - c0 (node_position node))
                     * (cx - c0 (node_position node))
                     + (cy - c1 (node_position node))
                       * (cy - c1 (node_position node))
                     + (cz - c2 (node_position node))
                       * (cz - c2 (node_position node)))) in
    calculateHolarchicCoherence [] nodes = 0
    /\ calculateHolarchicCoherence particles [] = 0
    /\ (forall (p : Particle) (n : HolarchicMemoryNode),
          holarchyLevel p = level n ->
          calculateHolarchicCoherence [p] [n]
          = exp (- sqrt ((c0 (position p) - c0 (node_position n))
                         * (c0 (position p) - c0 (node_position n))
                         + (c1 (position p) - c1 (node_position n))
                           * (c1 (position p) - c1 (node_position n))
                         + (c2 (position p) - c2 (node_position n))
                           * (c2 (position p) - c2 (node_position n))))
            * memoryStrength n)
    /\ (recognizePattern particles nodes lvl = None
        <-> levelParticles = []
            \/ forall node, In node nodes -> level node = lvl ->
                            score node <= 0.1).
Proof.
  intros particles nodes lvl Hmass levelParticles totalMass cx cy cz score.
  split; [reflexivity |].
  split.
  { unfold calculateHolarchicCoherence. simpl. rewrite orb_true_r.
    reflexivity. }
  split.
  { intros p n Hlevel. unfold calculateHolarchicCoherence. simpl.
    rewrite Hlevel, Z.eqb_refl. simpl.
    unfold distanceBetween. rewrite jsdiv_spec by lra. field. }
  rewrite recognize_none_iff. cbv zeta. fold levelParticles.
  destruct levelParticles as [| p0 rest] eqn:E.
  - split; intros _; left; reflexivity.
  - assert (Hcentroid : massCentroid (p0 :: rest) = V3 cx cy cz).
    { apply massCentroid_explicit; [discriminate |].
      intros q Hq. apply Hmass.
      assert (Hq' : In q (filter (fun p => Z.eqb (holarchyLevel p) lvl)
                                 particles))
        by (fold levelParticles; rewrite E; exact Hq).
      apply filter_In in Hq'. exact (proj1 Hq'). }
    rewrite Hcentroid.
    split; (intros [Habs | Hall]; [discriminate | right]);
      intros node Hn Hl; specialize (Hall node Hn Hl);
      rewrite similarityTo_explicit in *; exact Hall.
Qed.

(** ** The memory tree (C7) *)

(** *** Grouping by level *)

Lemma pushToGroup_keys (lvl : Z) (p : Particle) :
  forall (groups : list (Z * list Particle)) (l : Z),
    In l (map fst (pushToGroup lvl p groups))
    <-> l = lvl \/ In l (map fst groups).
Proof.
  induction groups as [| [l0 g] rest IH]; intros l; simpl.
  - intuition.
  - destruct (Z.eqb_spec l0 lvl) as [-> | Hne]; simpl.
    + intuition.
    + rewrite IH. intuition.
Qed.

Lemma pushToGroup_NoDup (lvl : Z) (p : Particle) :
  forall groups : list (Z * list Particle),
    NoDup (map fst groups) -> NoDup (map fst (pushToGroup lvl p groups)).
Proof.
  induction groups as [| [l0 g] rest IH]; intros Hnd; simpl.
  - constructor; [intros [] | constructor].
  - inversion Hnd as [| ? ? Hnot Hrest]; subst.
    destruct (Z.eqb_spec l0 lvl) as [-> | Hne]; simpl.
    + constructor; assumption.
    + constructor; [| apply IH; exact Hrest].
      rewrite pushToGroup_keys. intros [Heq | Hin]; [| contradiction].
      apply Hne. exact Heq.
Qed.

Lemma pushToGroup_nonempty (lvl : Z) (p : Particle) :
  forall groups : list (Z * list Particle),
    Forall nonempty_group groups ->
    Forall nonempty_group (pushToGroup lvl p groups).
Proof.
  induction groups as [| [l0 g] rest IH]; intros Hne; simpl.
  - constructor; [discriminate | constructor].
  - inversion Hne as [| ? ? Hg Hrest]; subst.
    destruct (Z.eqb l0 lvl).
    + constructor; [| exact Hrest].
      unfold nonempty_group; simpl. intros Happ.
      apply app_eq_nil in Happ. destruct Happ as [_ Habs]. discriminate.
    + constructor; [exact Hg | apply IH; exact Hrest].
Qed.

Lemma group_fold_invariant :
  forall (particles : list Particle) (groups : list (Z * list Particle)),
    NoDup (map fst groups) ->
    Forall nonempty_group groups ->
    let final :=
      fold_left
        (fun levelGroups p => pushToGroup (holarchyLevel p) p levelGroups)
        particles groups in
    NoDup (map fst final)
    /\ Forall nonempty_group final
    /\ forall l, In l (map fst final)
                 <-> In l (map fst groups)
                     \/ exists p, In p particles /\ holarchyLevel p = l.
Proof.
  induction particles as [| p particles IH]; intros groups Hnd Hne; simpl.
  - repeat split; try assumption.
    + intros H; left; exact H.
    + intros [H | [p [[] _]]]; exact H.
  - destruct (IH (pushToGroup (holarchyLevel p) p groups)
                 (pushToGroup_NoDup _ p groups Hnd)
                 (pushToGroup_nonempty _ p groups Hne))
      as [H1 [H2 H3]].
    repeat split; try assumption.
    + intros H. apply H3 in H. rewrite pushToGroup_keys in H.
      destruct H as [[-> | H] | [q [Hq Hl]]].
      * right. exists p. split; [left; reflexivity | reflexivity].
      * left; exact H.
      * right. exists q. split; [right; exact Hq | exact Hl].
    + intros H. apply H3. rewrite pushToGroup_keys.
      destruct H as [H | [q [[-> | Hq] Hl]]].
      * left; right; exact H.
      * left; left; symmetry; exact Hl.
      * right. exists q. split; assumption.
Qed.

Lemma groupByLevel_spec (particles : list Particle) :
  NoDup (map fst (groupByLevel particles))
  /\ Forall nonempty_group (groupByLevel particles)
  /\ forall l, In l (map fst (groupByLevel particles))
               <-> exists p, In p particles /\ holarchyLevel p = l.
Proof.
  destruct (group_fold_invariant particles [] (NoDup_nil Z) (Forall_nil _))
    as [H1 [H2 H3]].
  repeat split; try assumption.
  - intros H. apply H3 in H. destruct H as [[] | H]. exact H.
  - intros H. apply H3. right. exact H.
Qed.

(** *** One node for each group *)

Lemma createNodes_levels :
  forall (groups : list (Z * list Particle)) (k : nat),
    Forall nonempty_group groups ->
    map level (createNodes groups k) = map fst groups.
Proof.
  induction groups as [| [l g] rest IH]; intros k Hne; simpl.
  - reflexivity.
  - inversion Hne as [| ? ? Hg Hrest]; subst.
    destruct g as [| x g]; [exfalso; apply Hg; reflexivity |].
    simpl. f_equal. apply IH. exact Hrest.
Qed.

Lemma createNodes_parentless :
  forall (groups : list (Z * list Particle)) (k : nat),
    Forall (fun n => parent n = None) (createNodes groups k).
Proof.
  induction groups as [| [l g] rest IH]; intros k; simpl.
  - constructor.
  - destruct (0 <? List.length g)%nat; [constructor |]; auto.
Qed.

(** *** Sorting *)

Lemma insertByLevel_perm (n : HolarchicMemoryNode) :
  forall sorted, Permutation (insertByLevel n sorted) (n :: sorted).
Proof.
  induction sorted as [| m t IH]; simpl.
  - apply Permutation_refl.
  - destruct (level n <=? level m)%Z.
    + apply Permutation_refl.
    + apply perm_trans with (m :: n :: t).
      * apply perm_skip. exact IH.
      * apply perm_swap.
Qed.

Lemma sortByLevel_perm (nodes : list HolarchicMemoryNode) :
  Permutation (sortByLevel nodes) nodes.
Proof.
  induction nodes as [| n nodes IH]; simpl.
  - apply perm_nil.
  - apply perm_trans with (n :: sortByLevel nodes).
    + apply insertByLevel_perm.
    + apply perm_skip. exact IH.
Qed.

Lemma insertByLevel_ascending (n : HolarchicMemoryNode) :
  forall sorted,
    StronglySorted Z.lt (map level sorted) ->
    ~ In (level n) (map level sorted) ->
    StronglySorted Z.lt (map level (insertByLevel n sorted)).
Proof.
  induction sorted as [| m t IH]; intros Hs Hnot; simpl.
  - constructor; constructor.
  - simpl in Hs, Hnot. apply StronglySorted_inv in Hs.
    destruct Hs as [Ht Hm].
    destruct (Z.leb_spec (level n) (level m)) as [Hle | Hgt]; simpl.
    + assert (Hlt : (level n < level m)%Z).
      { destruct (Z.eq_dec (level n) (level m)) as [Heq | Hne]; [| lia].
        exfalso. apply Hnot. left. symmetry. exact Heq. }
      constructor; [constructor; assumption |].
      constructor; [exact Hlt |].
      apply (Forall_impl _ (fun x Hx => Z.lt_trans _ _ _ Hlt Hx) Hm).
    + constructor.
      * apply IH; [exact Ht | intros Hin; apply Hnot; right; exact Hin].
      * apply (Permutation_Forall
                 (Permutation_sym
                    (Permutation_map level (insertByLevel_perm n t)))).
        simpl. constructor; assumption.
Qed.

Lemma sortByLevel_ascending (nodes : list HolarchicMemoryNode) :
  NoDup (map level nodes) ->
  StronglySorted Z.lt (map level (sortByLevel nodes)).
Proof.
  induction nodes as [| n nodes IH]; intros Hnd; simpl.
  - constructor.
  - simpl in Hnd. inversion Hnd as [| ? ? Hnot Hrest]; subst.
    apply insertByLevel_ascending; [apply IH; exact Hrest |].
    intros Hin. apply Hnot.
    apply (Permutation_in _ (Permutation_map level (sortByLevel_perm nodes))).
    exact Hin.
Qed.

(** *** Linking *)

Lemma nth_error_update_at {A : Type} (f : A -> A) :
  forall (l : list A) (i k : nat),
    nth_error (update_at i f l) k
    = if (k =? i)%nat then option_map f (nth_error l k) else nth_error l k.
Proof.
  induction l as [| x l IH]; intros i k; simpl.
  - destruct k; destruct (_ =? _)%nat; reflexivity.
  - destruct i as [| i], k as [| k]; simpl; try reflexivity.
    apply IH.
Qed.

Lemma map_update_at {A B : Type} (g : A -> B) (f : A -> A) :
  (forall x, g (f x) = g x) ->
  forall (l : list A) (i : nat), map g (update_at i f l) = map g l.
Proof.
  intros H. induction l as [| x l IH]; intros i; simpl; [reflexivity |].
  destruct i; simpl; [rewrite H; reflexivity | rewrite IH; reflexivity].
Qed.

Lemma findParent_eq (nodes : list HolarchicMemoryNode) (lvl : Z) (j : nat) :
  findParent nodes lvl j
  = match nth_error nodes j with
    | Some nj =>
        if (level nj <? lvl)%Z then Some j
        else match j with
             | O => None
             | S j' => findParent nodes lvl j'
             end
    | None => None
    end.
Proof. destruct j; reflexivity. Qed.

Lemma findParent_spec (nodes : list HolarchicMemoryNode) (lvl : Z) :
  forall j0 j : nat,
    findParent nodes lvl j0 = Some j ->
    (j <= j0)%nat
    /\ exists nj, nth_error nodes j = Some nj /\ (level nj < lvl)%Z.
Proof.
  induction j0 as [| j0 IH]; intros j; rewrite findParent_eq.
  - destruct (nth_error nodes 0) as [nj |] eqn:E; [| discriminate].
    destruct (Z.ltb_spec (level nj) lvl); [| discriminate].
    intros [= <-]. split; [lia |]. exists nj. split; assumption.
  - destruct (nth_error nodes (S j0)) as [nj |] eqn:E; [| discriminate].
    destruct (Z.ltb_spec (level nj) lvl).
    + intros [= <-]. split; [lia |]. exists nj. split; assumption.
    + intros H'. destruct (IH j H') as [Hle Hex]. split; [lia | exact Hex].
Qed.

Lemma linkNode_levels (nodes : list HolarchicMemoryNode) (i : nat) :
  map level (linkNode nodes i) = map level nodes.
Proof.
  unfold linkNode. destruct i as [| i']; [reflexivity |].
  destruct (nth_error nodes (S i')) as [cur |]; [| reflexivity].
  destruct (findParent nodes (level cur) i') as [j |]; [| reflexivity].
  destruct (nth_error nodes j) as [nj |]; [| reflexivity].
  rewrite !map_update_at; reflexivity.
Qed.

Lemma linkNode_linked (nodes : list HolarchicMemoryNode) (i : nat) :
  linked nodes -> linked (linkNode nodes i).
Proof.
  intros Hinv. unfold linkNode. destruct i as [| i']; [exact Hinv |].
  destruct (nth_error nodes (S i')) as [cur |] eqn:Hcur; [| exact Hinv].
  destruct (findParent nodes (level cur) i') as [j |] eqn:Hf; [| exact Hinv].
  destruct (findParent_spec nodes (level cur) i' j Hf)
    as [Hle [nj [Hnj Hlt]]].
  rewrite Hnj.
  set (nodes' := update_at j _ (update_at (S i') _ nodes)).
  assert (Hat : forall k,
    nth_error nodes' k
    = if (k =? j)%nat then option_map
           (fun n => push_child n (node_id cur)) (nth_error nodes k)
      else if (k =? S i')%nat then option_map
           (fun n => with_parent n (Some (node_id nj))) (nth_error nodes k)
      else nth_error nodes k).
  { intros k. unfold nodes'. rewrite !nth_error_update_at.
    destruct (Nat.eqb_spec k j) as [-> | Hkj]; [| reflexivity].
    destruct (Nat.eqb_spec j (S i')); [lia | reflexivity]. }
  assert (Hkeep : forall k m,
    nth_error nodes k = Some m ->
    exists m', nth_error nodes' k = Some m' /\ node_id m' = node_id m
               /\ level m' = level m /\ incl (children m) (children m')).
  { intros k m Hk. rewrite Hat, Hk.
    destruct (k =? j)%nat; [| destruct (k =? S i')%nat]; simpl;
      eexists; (split; [reflexivity |]); simpl;
      repeat split; try apply incl_refl.
    apply incl_appl, incl_refl. }
  assert (Hold : forall n0 n pid,
    node_id n = node_id n0 -> level n = level n0 ->
    (exists k, nth_error nodes k = Some n0) -> parent n0 = Some pid ->
    exists k2 m, nth_error nodes' k2 = Some m /\ node_id m = pid
                 /\ (level m < level n)%Z /\ In (node_id n) (children m)).
  { intros n0 n pid Hid Hlv [k Hk] Hp.
    destruct (Hinv k n0 pid Hk Hp) as [k2 [m [Hk2 [Hm [Hl Hc]]]]].
    destruct (Hkeep k2 m Hk2) as [m' [Hk2' [Hid' [Hlv' Hincl]]]].
    exists k2, m'. split; [exact Hk2' |]. split; [congruence |].
    split; [rewrite Hlv', Hlv; exact Hl |].
    apply Hincl. rewrite Hid. exact Hc. }
  intros k n pid Hk Hp. rewrite Hat in Hk.
  destruct (Nat.eqb_spec k j) as [-> | Hkj].
  - rewrite Hnj in Hk. simpl in Hk. injection Hk as <-.
    apply (Hold nj); simpl; try reflexivity; [exists j; exact Hnj | exact Hp].
  - destruct (Nat.eqb_spec k (S i')) as [-> | Hki].
    + rewrite Hcur in Hk. simpl in Hk. injection Hk as <-.
      simpl in Hp. injection Hp as <-.
      exists j, (push_child nj (node_id cur)).
      rewrite Hat, Nat.eqb_refl, Hnj. simpl.
      repeat split; try assumption.
      apply in_or_app. right. left. reflexivity.
    + apply (Hold n); try reflexivity; [exists k; exact Hk | exact Hp].
Qed.

Lemma link_fold_levels (indices : list nat) :
  forall nodes, map level (fold_left linkNode indices nodes) = map level nodes.
Proof.
  induction indices as [| i indices IH]; intros nodes; simpl; [reflexivity |].
  rewrite IH. apply linkNode_levels.
Qed.

Lemma link_fold_linked (indices : list nat) :
  forall nodes, linked nodes -> linked (fold_left linkNode indices nodes).
Proof.
  induction indices as [| i indices IH]; intros nodes H; simpl; [exact H |].
  apply IH, linkNode_linked, H.
Qed.

Lemma parentless_linked (nodes : list HolarchicMemoryNode) :
  Forall (fun n => parent n = None) nodes -> linked nodes.
Proof.
  intros Hall k n pid Hk Hp. rewrite Forall_forall in Hall.
  rewrite (Hall n (nth_error_In _ _ Hk)) in Hp. discriminate.
Qed.

Lemma buildHolarchicTree_levels (particles : list Particle) (maxDepth : Z) :
  Permutation (map level (buildHolarchicTree particles maxDepth))
              (map fst (groupByLevel particles)).
Proof.
  unfold buildHolarchicTree, linkNodes. rewrite link_fold_levels.
  destruct (groupByLevel_spec particles) as [_ [Hne _]].
  rewrite <- (createNodes_levels (groupByLevel particles) 0 Hne).
  apply Permutation_map, sortByLevel_perm.
Qed.

Lemma buildHolarchicTree_linked (particles : list Particle) (maxDepth : Z) :
  linked (buildHolarchicTree particles maxDepth).
Proof.
  unfold buildHolarchicTree, linkNodes.
  apply link_fold_linked, parentless_linked.
  apply (Permutation_Forall
           (Permutation_sym
              (sortByLevel_perm (createNodes (groupByLevel particles) 0)))).
  apply createNodes_parentless.
Qed.

Lemma buildHolarchicTree_ascending (particles : list Particle)
    (maxDepth : Z) :
  StronglySorted Z.lt (map level (buildHolarchicTree particles maxDepth)).
Proof.
  unfold buildHolarchicTree, linkNodes. rewrite link_fold_levels.
  apply sortByLevel_ascending.
  destruct (groupByLevel_spec particles) as [Hnd [Hne _]].
  rewrite (createNodes_levels (groupByLevel particles) 0 Hne). exact Hnd.
Qed.

Lemma three_levels (l : list Z) :
  Permutation l [0; 0; 1]%Z ->
  l = [0; 0; 1]%Z \/ l = [0; 1; 0]%Z \/ l = [1; 0; 0]%Z.
Proof.
  intros H.
  pose proof (Permutation_length H) as Hlen.
  destruct l as [| a [| b [| c [| d l]]]]; try discriminate.
  assert (Ha : In a [0; 0; 1]%Z)
    by (apply (Permutation_in _ H); left; reflexivity).
  simpl in Ha. destruct Ha as [<- | [<- | [<- | []]]].
  - apply Permutation_cons_inv in H.
    apply Permutation_sym, Permutation_length_2_inv in H.
    destruct H as [[= -> ->] | [= -> ->]]; auto.
  - apply Permutation_cons_inv in H.
    apply Permutation_sym, Permutation_length_2_inv in H.
    destruct H as [[= -> ->] | [= -> ->]]; auto.
  - assert (H' : Permutation (1 :: [b; c])%Z ([0; 0] ++ 1 :: [])%Z) by exact H.
    apply Permutation_cons_app_inv in H'. simpl in H'.
    apply Permutation_sym, Permutation_length_2_inv in H'.
    destruct H' as [[= -> ->] | [= -> ->]]; auto.
Qed.

(** C7.  [buildHolarchicTree] makes one node for every level that has a
    particle and none for any other level, in ascending order of the
    levels; the parent of a node, when it has one, is the id of a node of
    the result of a strictly lower level that lists the node among its
    children.  For particles at the levels 0, 0 and 1, in whatever order,
    the result is a node of level 0 followed by a node of level 1 whose
    parent is the first, which lists it among its children. *)
Theorem memory_tree_forest :
  forall (particles : list Particle) (maxDepth : Z),
    let nodes := buildHolarchicTree particles maxDepth in
    (forall l : Z,
        count_occ Z.eq_dec (map level nodes) l
        = if existsb (fun p => Z.eqb (holarchyLevel p) l) particles
          then 1%nat else 0%nat)
    /\ StronglySorted Z.lt (map level nodes)
    /\ (forall n pid,
           In n nodes -> parent n = Some pid ->
           exists m, In m nodes /\ node_id m = pid
                     /\ (level m < level n)%Z
                     /\ In (node_id n) (children m))
    /\ (Permutation (map holarchyLevel particles) [0; 0; 1]%Z ->
        exists n0 n1,
          nodes = [n0; n1] /\ level n0 = 0%Z /\ level n1 = 1%Z
          /\ parent n0 = None /\ parent n1 = Some (node_id n0)
          /\ In (node_id n1) (children n0)).
Proof.
  intros particles maxDepth nodes. split; [| split; [| split]].
  - intros l.
    destruct (groupByLevel_spec particles) as [Hnd [_ Hkeys]].
    pose proof (buildHolarchicTree_levels particles maxDepth) as Hperm.
    fold nodes in Hperm.
    rewrite (proj1 (Permutation_count_occ Z.eq_dec _ _) Hperm l).
    destruct (existsb _ particles) eqn:E.
    + apply (proj1 (NoDup_count_occ' Z.eq_dec _) Hnd).
      apply Hkeys. apply existsb_exists in E. destruct E as [p [Hp Hl]].
      exists p. split; [exact Hp | apply Z.eqb_eq; exact Hl].
    + apply count_occ_not_In. intros Hin. apply Hkeys in Hin.
      destruct Hin as [p [Hp Hl]].
      assert (existsb (fun p => (holarchyLevel p =? l)%Z) particles = true).
      { apply existsb_exists. exists p. split; [exact Hp |].
        apply Z.eqb_eq; exact Hl. }
      congruence.
  - apply buildHolarchicTree_ascending.
  - intros n pid Hn Hp.
    destruct (In_nth_error _ _ Hn) as [k Hk].
    destruct (buildHolarchicTree_linked particles maxDepth k n pid Hk Hp)
      as [k2 [m [Hk2 H]]].
    exists m. split; [exact (nth_error_In _ _ Hk2) | exact H].
  - intros Hperm. apply three_levels in Hperm.
    unfold nodes, buildHolarchicTree, groupByLevel.
    destruct particles as [| a [| b [| c [| d l]]]];
      try (destruct Hperm as [H | [H | H]]; discriminate).
    simpl in Hperm.
    destruct Hperm as [H | [H | H]]; injection H as Ha Hb Hc;
      simpl; rewrite Ha, Hb, Hc; simpl;
      eexists; eexists; (split; [reflexivity |]); simpl;
      repeat split; try reflexivity; auto 10.
Qed.

(** ** Emergence (C1, C2) *)

Lemma has_iff (s : set string) (x : string) : has s x = true <-> In x s.
Proof.
  unfold has. split.
  - apply set_mem_correct1.
  - apply set_mem_correct2.
Qed.

Lemma add_iff (s : set string) (x y : string) :
  In x (add s y) <-> x = y \/ In x s.
Proof. unfold add. apply set_add_iff. Qed.

Lemma mergeRecord_mono (particles0 : list Particle) (thr : R) (maxLevel : Z)
    (tm tm' : set string) (n : Particle) :
  incl tm tm' ->
  mergeRecord particles0 thr maxLevel tm n ->
  mergeRecord particles0 thr maxLevel tm' n.
Proof.
  intros Hincl [pi [pj [newId [H1 [H2 [H3 [H4 [H5 [H6 [H7 H8]]]]]]]]]].
  exists pi, pj, newId. repeat split; try assumption; apply Hincl; assumption.
Qed.

Lemma mergeBody_inv (particles0 : list Particle) (thr : R) (maxLevel : Z)
    (pi pj : Particle) (st : EmergenceState) :
  In pi particles0 -> In pj particles0 ->
  emergenceInv particles0 thr maxLevel st ->
  emergenceInv particles0 thr maxLevel (mergeBody thr maxLevel pi st pj).
Proof.
  intros Hpi Hpj Hinv. unfold mergeBody.
  destruct (has (toMerge st) (id pj)); [exact Hinv |].
  destruct (Z.eqb_spec (holarchyLevel pi) (holarchyLevel pj)) as [Hl | Hl];
    simpl; [| exact Hinv].
  destruct (Z.geb_spec (holarchyLevel pi) (maxLevel - 1)) as [Hg | Hg];
    [exact Hinv |].
  destruct (closeAndSlow thr pi pj) eqn:Hclose; [| exact Hinv].
  destruct Hinv as [pushed [Hres Hall]].
  exists (pushed ++ [mergedParticle pi pj (particleIdAt (generated st))]).
  simpl. split.
  - rewrite Hres, app_assoc. reflexivity.
  - apply Forall_app. split.
    + apply (Forall_impl _ (fun n H =>
               mergeRecord_mono particles0 thr maxLevel (toMerge st) _ n
                 (fun x Hx => proj2 (add_iff _ x _)
                                (or_intror (proj2 (add_iff _ x _)
                                                  (or_intror Hx)))) H)).
      exact Hall.
    + constructor; [| constructor].
      exists pi, pj, (particleIdAt (generated st)).
      repeat split; try assumption.
      * apply add_iff. right. apply add_iff. left. reflexivity.
      * apply add_iff. left. reflexivity.
Qed.

Lemma mergeBody_fold_inv (particles0 : list Particle) (thr : R) (maxLevel : Z)
    (pi : Particle) :
  In pi particles0 ->
  forall (rest : list Particle) (st : EmergenceState),
    incl rest particles0 ->
    emergenceInv particles0 thr maxLevel st ->
    emergenceInv particles0 thr maxLevel
      (fold_left (mergeBody thr maxLevel pi) rest st).
Proof.
  intros Hpi. induction rest as [| pj rest IH]; intros st Hincl Hinv; simpl.
  - exact Hinv.
  - apply IH.
    + intros x Hx. apply Hincl. right. exact Hx.
    + apply mergeBody_inv; try assumption. apply Hincl. left. reflexivity.
Qed.

Lemma emergenceLoop_inv (particles0 : list Particle) (thr : R) (maxLevel : Z) :
  forall (particles : list Particle) (st : EmergenceState),
    incl particles particles0 ->
    emergenceInv particles0 thr maxLevel st ->
    emergenceInv particles0 thr maxLevel
      (emergenceLoop thr maxLevel particles st).
Proof.
  induction particles as [| pi rest IH]; intros st Hincl Hinv; simpl.
  - exact Hinv.
  - assert (Hrest : incl rest particles0)
      by (intros x Hx; apply Hincl; right; exact Hx).
    destruct (has (toMerge st) (id pi)).
    + apply IH; assumption.
    + apply IH; [exact Hrest |].
      apply mergeBody_fold_inv; try assumption.
      apply Hincl. left. reflexivity.
Qed.

Lemma emergence_final_inv (particles : list Particle) (thr : R) (maxLevel : Z) :
  emergenceInv particles thr maxLevel
    (emergenceLoop thr maxLevel particles (mkEmergence particles [] 0)).
Proof.
  apply emergenceLoop_inv; [apply incl_refl |].
  exists []. simpl. split; [rewrite app_nil_r; reflexivity | constructor].
Qed.

Lemma merged_absent (particles : list Particle) (thr : R) (maxLevel : Z)
    (p : Particle) :
  In (id p)
     (toMerge (emergenceLoop thr maxLevel particles
                             (mkEmergence particles [] 0))) ->
  ~ In p (checkHolarchicEmergence particles thr maxLevel).
Proof.
  intros Hin Hout. unfold checkHolarchicEmergence in Hout.
  apply filter_In in Hout. destruct Hout as [_ Hneg].
  apply has_iff in Hin. rewrite Hin in Hneg. discriminate.
Qed.

Lemma sqrt_lt_bound (x b : R) : 0 <= x -> 0 < b -> x < b * b -> sqrt x < b.
Proof.
  intros Hx Hb Hlt.
  rewrite <- (sqrt_square b) by lra.
  apply sqrt_lt_1_alt. split; assumption.
Qed.

Lemma has_true (s : set string) (x : string) : In x s -> has s x = true.
Proof. apply has_iff. Qed.

Lemma has_false (s : set string) (x : string) : ~ In x s -> has s x = false.
Proof.
  intros H. destruct (has s x) eqn:E; [| reflexivity].
  exfalso. apply H, has_iff, E.
Qed.

Lemma mergeBody_merge (thr : R) (maxLevel : Z) (pi pj : Particle)
    (st : EmergenceState) :
  has (toMerge st) (id pj) = false ->
  holarchyLevel pi = holarchyLevel pj ->
  (holarchyLevel pi < maxLevel - 1)%Z ->
  closeAndSlow thr pi pj = true ->
  mergeBody thr maxLevel pi st pj
  = mkEmergence
      (result st ++ [mergedParticle pi pj (particleIdAt (generated st))])
      (add (add (toMerge st) (id pi)) (id pj))
      (S (generated st)).
Proof.
  intros Hhas Hl Hmax Hclose. unfold mergeBody.
  rewrite Hhas, Hl, Z.eqb_refl, Hclose. simpl.
  destruct (Z.geb_spec (holarchyLevel pj) (maxLevel - 1)); [lia |].
  reflexivity.
Qed.

Lemma mergeBody_top_level (thr : R) (maxLevel : Z) (pi pj : Particle)
    (st : EmergenceState) :
  (maxLevel - 1 <= holarchyLevel pi)%Z ->
  mergeBody thr maxLevel pi st pj = st.
Proof.
  intros Hmax. unfold mergeBody.
  destruct (has (toMerge st) (id pj)); [reflexivity |].
  destruct (negb _); [reflexivity |].
  destruct (Z.geb_spec (holarchyLevel pi) (maxLevel - 1)); [reflexivity |].
  lia.
Qed.

Lemma closeAndSlow_at_rest (thr : R) (pi pj : Particle) :
  vec3Length (vec3Sub (position pj) (position pi)) < thr ->
  momentum pj = momentum pi ->
  mass pi + mass pj <> 0 ->
  closeAndSlow thr pi pj = true.
Proof.
  intros Hd Hm Hmass. unfold closeAndSlow.
  rewrite (Rltb_true _ _ Hd).
  rewrite Hm, vec3Length_sub_same, jsdiv_spec by exact Hmass.
  apply Rltb_true.
  pose proof (vec3Length_nonneg (vec3Sub (position pj) (position pi))).
  unfold Rdiv. rewrite Rmult_0_l. lra.
Qed.

(** C2, as the code has it.  Every particle that a pass pushes comes from
    a pair of input particles of one level: its mass, momentum and charge
    are the sums, its position the mass-weighted mean (the masses not
    adding up to zero), its level one more, its energy 0; and neither
    particle of the pair is in the output.  The two particles of the
    scenario merge into the particle of the scenario when [maxLevel] is at
    least 2, the level gate of the code, and the id given to the new
    particle is not one of theirs. *)
Theorem merge_conservation :
  (forall (particles : list Particle) (emergenceThreshold : R) (maxLevel : Z),
      let st :=
        emergenceLoop emergenceThreshold maxLevel particles
                      (mkEmergence particles [] 0) in
      let output :=
        checkHolarchicEmergence particles emergenceThreshold maxLevel in
      exists pushed,
        result st = particles ++ pushed
        /\ incl output (particles ++ pushed)
        /\ Forall
             (fun n =>
                exists pi pj,
                  In pi particles /\ In pj particles
                  /\ holarchyLevel pi = holarchyLevel pj
                  /\ (holarchyLevel pi < maxLevel - 1)%Z
                  /\ closeAndSlow emergenceThreshold pi pj = true
                  /\ mass n = mass pi + mass pj
                  /\ momentum n = vec3Add (momentum pi) (momentum pj)
                  /\ charge n = charge pi + charge pj
                  /\ (mass pi + mass pj <> 0 ->
                      position n
                      = vec3Scale
                          (vec3Add (vec3Scale (position pi) (mass pi))
                                   (vec3Scale (position pj) (mass pj)))
                          (/ (mass pi + mass pj)))
                  /\ holarchyLevel n = (holarchyLevel pi + 1)%Z
                  /\ energy n = 0
                  /\ ~ In pi output /\ ~ In pj output)
             pushed)
  /\ (forall (id1 id2 color1 color2 : string) (charge1 charge2 e1 e2 : R)
             (maxLevel : Z),
         (2 <= maxLevel)%Z ->
         particleIdAt 0 <> id1 -> particleIdAt 0 <> id2 ->
         checkHolarchicEmergence
           [mkParticle id1 (V3 0 0 0) (V3 0 0 0) 1 charge1 0 e1 color1;
            mkParticle id2 (V3 0.05 0 0) (V3 0 0 0) 1 charge2 0 e2 color2]
           0.7 maxLevel
         = [mkParticle (particleIdAt 0) (V3 0.025 0 0) (V3 0 0 0) 2
                       (charge1 + charge2) 1 0 "#22d3ee"]).
Proof.
  split.
  - intros particles thr maxLevel st output.
    destruct (emergence_final_inv particles thr maxLevel)
      as [pushed [Hres Hall]].
    fold st in Hres, Hall.
    exists pushed. split; [exact Hres |]. split.
    + intros x Hx. unfold output, checkHolarchicEmergence in Hx.
      apply filter_In in Hx. destruct Hx as [Hx _].
      fold st in Hx. rewrite Hres in Hx. exact Hx.
    + apply (Forall_impl _ (P := mergeRecord particles thr maxLevel
                                             (toMerge st))); [| exact Hall].
      intros n [pi [pj [newId [H1 [H2 [H3 [H4 [H5 [H6 [H7 H8]]]]]]]]]].
      exists pi, pj. subst n. simpl.
      repeat split; try assumption.
      * intros Hm. rewrite !jsdiv_spec by exact Hm.
        apply vec3_eq; simpl; unfold Rdiv; ring.
      * apply merged_absent. exact H7.
      * apply merged_absent. exact H8.
  - intros id1 id2 color1 color2 charge1 charge2 e1 e2 maxLevel Hmax Hf1 Hf2.
    set (p1 := mkParticle id1 _ _ _ _ _ _ _).
    set (p2 := mkParticle id2 _ _ _ _ _ _ _).
    assert (Hclose : closeAndSlow 0.7 p1 p2 = true).
    { apply closeAndSlow_at_rest; simpl; try reflexivity; try lra.
      unfold vec3Length, vec3Sub; simpl.
      apply sqrt_lt_bound; nra. }
    unfold checkHolarchicEmergence. simpl.
    rewrite mergeBody_merge; simpl;
      try reflexivity; try lia; try exact Hclose;
      try (apply has_false; intros []).
    rewrite (has_true _ id2)
      by (apply add_iff; left; reflexivity).
    simpl.
    rewrite (has_true _ id1)
      by (apply add_iff; right; apply add_iff; left; reflexivity).
    rewrite (has_true _ id2)
      by (apply add_iff; left; reflexivity).
    rewrite (has_false _ (particleIdAt 0)).
    + simpl. f_equal. unfold mergedParticle. simpl.
      rewrite !jsdiv_spec by lra.
      f_equal; try lra.
      * apply vec3_eq; simpl; lra.
      * apply vec3_eq; simpl; lra.
    + intros Hin. apply add_iff in Hin. destruct Hin as [Hin | Hin];
        [exact (Hf2 Hin) |].
      apply add_iff in Hin. destruct Hin as [Hin | []]. exact (Hf1 Hin).
Qed.

(** * Further properties of the code *)

(** ** Sums *)

Lemma sumR_acc {A : Type} (f : A -> R) (l : list A) (a : R) :
  fold_left (fun sum x => sum + f x) l a = a + sumR f l.
Proof.
  unfold sumR. revert a.
  induction l as [| x l IH]; intros a; simpl.
  - ring.
  - rewrite (IH (a + f x)), (IH (0 + f x)). ring.
Qed.

Lemma sumR_cons {A : Type} (f : A -> R) (x : A) (l : list A) :
  sumR f (x :: l) = f x + sumR f l.
Proof. unfold sumR at 1. simpl. rewrite sumR_acc. ring. Qed.

Lemma sumR_ext {A : Type} (f g : A -> R) (l : list A) :
  (forall x, In x l -> f x = g x) -> sumR f l = sumR g l.
Proof.
  induction l as [| x l IH]; intros H; [reflexivity |].
  rewrite !sumR_cons, (H x (or_introl eq_refl)), IH; [reflexivity |].
  intros y Hy. apply H. right. exact Hy.
Qed.

Lemma sumR_zero {A : Type} (l : list A) : sumR (fun _ => 0) l = 0.
Proof.
  induction l as [| x l IH]; [reflexivity |].
  rewrite sumR_cons, IH. ring.
Qed.

Lemma sumR_nonneg {A : Type} (f : A -> R) (l : list A) :
  (forall x, In x l -> 0 <= f x) -> 0 <= sumR f l.
Proof.
  induction l as [| x l IH]; intros H.
  - unfold sumR. simpl. lra.
  - rewrite sumR_cons.
    pose proof (H x (or_introl eq_refl)).
    assert (0 <= sumR f l) by (apply IH; intros y Hy; apply H; right; exact Hy).
    lra.
Qed.

(** ** [calculateForce]: the hand *)

(** X3.  The hand adds nothing to the force in the modes [spawn] and
    [destroy], and nothing at a distance [d] of at most 0.1 or at least 10;
    in between it pulls towards the hand with magnitude [5 / d^2] in the
    mode [attract] and pushes away with the same magnitude in the mode
    [repel]. *)
Theorem hand_force :
  forall (particle : Particle) (allParticles : list Particle)
         (config : PhysicsConfig) (hand : vec3) (gestureMode : GestureMode),
    let toHand := vec3Sub hand (position particle) in
    let d := vec3Length toHand in
    let base := calculateForce particle allParticles config None gestureMode in
    calculateForce particle allParticles config (Some hand) spawn = base
    /\ calculateForce particle allParticles config (Some hand) destroy = base
    /\ (d <= 0.1 \/ 10 <= d ->
        calculateForce particle allParticles config (Some hand) gestureMode
        = base)
    /\ (0.1 < d < 10 ->
        calculateForce particle allParticles config (Some hand) attract
        = vec3Add base (vec3Scale toHand (5 / (d * d * d)))
        /\ calculateForce particle allParticles config (Some hand) repel
           = vec3Add base (vec3Scale toHand (- (5 / (d * d * d))))).
Proof.
  intros particle l config hand mode toHand d base.
  unfold base, calculateForce, handInteraction. fold toHand. fold d.
  split; [| split; [| split]].
  - destruct (Rgtb d 0.1 && Rltb d 10); reflexivity.
  - destruct (Rgtb d 0.1 && Rltb d 10); reflexivity.
  - intros [Hlow | Hhigh].
    + unfold Rgtb. rewrite (Rltb_false 0.1 d) by lra. reflexivity.
    + rewrite (Rltb_false d 10) by lra. rewrite andb_false_r. reflexivity.
  - intros [Hlow Hhigh].
    unfold Rgtb. rewrite (Rltb_true 0.1 d Hlow), (Rltb_true d 10 Hhigh).
    simpl.
    unfold vec3Normalize. fold d. rewrite (Reqb_false d 0) by lra.
    rewrite !jsdiv_spec by nra.
    split; apply vec3_eq; simpl; field; lra.
Qed.

(** ** What the integrator leaves alone, and the energies it reports *)

(** X5.  A step of the integrator returns as many particles as it was
    given, in the same order, with the id, mass, charge, level and color
    they had. *)
Theorem integrate_frame :
  forall (particles : list Particle) (config : PhysicsConfig) (dt : R)
         (handPosition : option vec3) (gestureMode : GestureMode),
    let out :=
      fst (integrateHamiltonian particles config dt handPosition
                                gestureMode) in
    List.length out = List.length particles
    /\ map id out = map id particles
    /\ map mass out = map mass particles
    /\ map charge out = map charge particles
    /\ map holarchyLevel out = map holarchyLevel particles
    /\ map color out = map color particles.
Proof.
  intros particles config dt hand mode out.
  unfold out. rewrite integrate_as_map. cbv zeta.
  split; [apply length_map |].
  repeat split; rewrite map_map; apply map_ext; intros p; reflexivity.
Qed.

Lemma kinetic_as_energy (l : list Particle) :
  Forall (fun p => energy p
                   = jsdiv (vec3Dot (momentum p) (momentum p)) (2 * mass p))
         l ->
  calculateKineticEnergy l = sumOver energy l.
Proof.
  intros H.
  change (calculateKineticEnergy l)
    with (sumR (fun p => jsdiv (vec3Dot (momentum p) (momentum p))
                               (2 * mass p)) l).
  change (sumOver energy l) with (sumR energy l).
  apply sumR_ext. intros p Hp.
  rewrite Forall_forall in H. symmetry. apply H. exact Hp.
Qed.

(** X6.  The kinetic energy that a step reports is the sum of the
    [energy] fields of the particles it returns, the potential energy is
    that of the returned particles, and the total is their sum. *)
Theorem integrate_energies :
  forall (particles : list Particle) (config : PhysicsConfig) (dt : R)
         (handPosition : option vec3) (gestureMode : GestureMode),
    let r :=
      integrateHamiltonian particles config dt handPosition gestureMode in
    kinetic (snd r) = sumOver energy (fst r)
    /\ potential (snd r) = calculatePotentialEnergy (fst r) config
    /\ total (snd r) = kinetic (snd r) + potential (snd r).
Proof.
  intros particles config dt hand mode r.
  split; [| split; reflexivity].
  unfold r, integrateHamiltonian. simpl.
  apply kinetic_as_energy.
  apply Forall_mapi_from. intros x i. reflexivity.
Qed.

(** X7.  The kinetic energy of particles of positive mass is not
    negative, and it is zero when every momentum is zero. *)
Theorem kinetic_energy_nonnegative :
  forall particles : list Particle,
    (forall p, In p particles -> 0 < mass p) ->
    0 <= calculateKineticEnergy particles
    /\ ((forall p, In p particles -> momentum p = V3 0 0 0) ->
        calculateKineticEnergy particles = 0).
Proof.
  intros particles Hmass.
  change (calculateKineticEnergy particles)
    with (sumR (fun p => jsdiv (vec3Dot (momentum p) (momentum p))
                               (2 * mass p)) particles).
  split.
  - apply sumR_nonneg. intros p Hp. pose proof (Hmass p Hp) as Hm.
    rewrite jsdiv_spec by lra.
    apply Rmult_le_pos; [unfold vec3Dot; nra |].
    apply Rlt_le, Rinv_0_lt_compat. lra.
  - intros Hzero.
    rewrite (sumR_ext _ (fun _ => 0) particles).
    + apply sumR_zero.
    + intros p Hp. pose proof (Hmass p Hp) as Hm.
      rewrite jsdiv_spec by lra. rewrite (Hzero p Hp).
      unfold vec3Dot; simpl. field. lra.
Qed.

(** ** More on emergence *)

(** X9.  A pass keeps the levels within the depth: when no input particle
    is above level [maxLevel - 1], no output particle is. *)
Theorem emergence_levels_bounded :
  forall (particles : list Particle) (emergenceThreshold : R) (maxLevel : Z),
    Forall (fun p => (holarchyLevel p <= maxLevel - 1)%Z) particles ->
    Forall (fun p => (holarchyLevel p <= maxLevel - 1)%Z)
           (checkHolarchicEmergence particles emergenceThreshold maxLevel).
Proof.
  intros particles thr maxLevel Hin.
  rewrite Forall_forall in *. intros n Hn.
  unfold checkHolarchicEmergence in Hn. apply filter_In in Hn.
  destruct Hn as [Hn _].
  destruct (emergence_final_inv particles thr maxLevel)
    as [pushed [Hres Hall]].
  rewrite Hres in Hn. apply in_app_or in Hn. destruct Hn as [Hn | Hn].
  - apply Hin. exact Hn.
  - rewrite Forall_forall in Hall.
    destruct (Hall n Hn) as [pi [pj [newId [_ [_ [_ [Hlt [_ [Heq _]]]]]]]]].
    subst n. simpl. lia.
Qed.

Lemma closeAndSlow_nonpositive (thr : R) (pi pj : Particle) :
  thr <= 0 -> closeAndSlow thr pi pj = false.
Proof.
  intros Hthr. unfold closeAndSlow.
  pose proof (vec3Length_nonneg (vec3Sub (position pj) (position pi))).
  rewrite Rltb_false by lra. reflexivity.
Qed.

Lemma mergeBody_apart (thr : R) (maxLevel : Z) (pi pj : Particle)
    (st : EmergenceState) :
  closeAndSlow thr pi pj = false -> mergeBody thr maxLevel pi st pj = st.
Proof.
  intros H. unfold mergeBody. rewrite H.
  destruct (has _ _); [reflexivity |].
  destruct (negb _); [reflexivity |].
  destruct (_ >=? _)%Z; reflexivity.
Qed.

Lemma mergeBody_fold_stable (thr : R) (maxLevel : Z) (pi : Particle) :
  (forall st pj, mergeBody thr maxLevel pi st pj = st) ->
  forall (rest : list Particle) (st : EmergenceState),
    fold_left (mergeBody thr maxLevel pi) rest st = st.
Proof.
  intros H. induction rest as [| pj rest IH]; intros st; simpl.
  - reflexivity.
  - rewrite H. apply IH.
Qed.

Lemma emergenceLoop_stable (thr : R) (maxLevel : Z) :
  forall (particles : list Particle) (st : EmergenceState),
    (forall pi, In pi particles ->
                forall st' pj, mergeBody thr maxLevel pi st' pj = st') ->
    emergenceLoop thr maxLevel particles st = st.
Proof.
  induction particles as [| pi rest IH]; intros st H; simpl.
  - reflexivity.
  - assert (Hrest : forall pi', In pi' rest ->
              forall st' pj, mergeBody thr maxLevel pi' st' pj = st')
      by (intros pi' Hin; apply H; right; exact Hin).
    destruct (has (toMerge st) (id pi)).
    + apply IH. exact Hrest.
    + rewrite (mergeBody_fold_stable thr maxLevel pi
                 (H pi (or_introl eq_refl))).
      apply IH. exact Hrest.
Qed.

Lemma filter_unmarked_nothing (l : list Particle) :
  filter (fun p => negb (has [] (id p))) l = l.
Proof.
  induction l as [| x l IH]; [reflexivity |].
  cbn [filter]. change (has [] (id x)) with false. cbn [negb].
  rewrite IH. reflexivity.
Qed.

(** X10.  A pass gives the particles back as they are when the threshold
    is not positive, and when every particle is at level [maxLevel - 1] or
    above. *)
Theorem emergence_nothing_to_merge :
  forall (particles : list Particle) (emergenceThreshold : R) (maxLevel : Z),
    emergenceThreshold <= 0
    \/ Forall (fun p => (maxLevel - 1 <= holarchyLevel p)%Z) particles ->
    checkHolarchicEmergence particles emergenceThreshold maxLevel
    = particles.
Proof.
  intros particles thr maxLevel H.
  unfold checkHolarchicEmergence.
  rewrite emergenceLoop_stable.
  - simpl. apply filter_unmarked_nothing.
  - intros pi Hpi st' pj. destruct H as [Hthr | Htop].
    + apply mergeBody_apart, closeAndSlow_nonpositive, Hthr.
    + apply mergeBody_top_level.
      rewrite Forall_forall in Htop. apply Htop. exact Hpi.
Qed.

Lemma add_length_ge (s : set string) (x : string) :
  (List.length s <= List.length (add s x))%nat.
Proof.
  unfold add. induction s as [| y s IH]; simpl.
  - lia.
  - destruct (string_dec x y); simpl; lia.
Qed.

Lemma add_length_new (s : set string) (x : string) :
  ~ In x s -> List.length (add s x) = S (List.length s).
Proof.
  unfold add. induction s as [| y s IH]; intros Hnot; simpl.
  - reflexivity.
  - destruct (string_dec x y) as [-> | Hne].
    + exfalso. apply Hnot. left. reflexivity.
    + simpl. rewrite IH; [reflexivity |].
      intros Hin. apply Hnot. right. exact Hin.
Qed.

Lemma mergeBody_count (particles0 : list Particle) (thr : R) (maxLevel : Z)
    (pi pj : Particle) (st : EmergenceState) :
  In pi particles0 -> In pj particles0 ->
  countInv particles0 st ->
  countInv particles0 (mergeBody thr maxLevel pi st pj).
Proof.
  intros Hpi Hpj Hinv. unfold mergeBody.
  destruct (has (toMerge st) (id pj)) eqn:Hhas; [exact Hinv |].
  destruct (negb _); [exact Hinv |].
  destruct (_ >=? _)%Z; [exact Hinv |].
  destruct (closeAndSlow thr pi pj); [| exact Hinv].
  destruct Hinv as [pushed [Hres [Hnd [Hincl Hlen]]]].
  exists (pushed ++ [mergedParticle pi pj (particleIdAt (generated st))]).
  simpl. split; [rewrite Hres, app_assoc; reflexivity |].
  split; [apply set_add_nodup, set_add_nodup, Hnd |].
  split.
  - intros x Hx. apply add_iff in Hx. destruct Hx as [-> | Hx].
    + apply in_map. exact Hpj.
    + apply add_iff in Hx. destruct Hx as [-> | Hx].
      * apply in_map. exact Hpi.
      * apply Hincl. exact Hx.
  - rewrite length_app. simpl.
    assert (Hnew : ~ In (id pj) (toMerge st)).
    { intros Hin. apply has_iff in Hin. congruence. }
    destruct (string_dec (id pj) (id pi)) as [Heq | Hne].
    + pose proof (add_length_ge (add (toMerge st) (id pi)) (id pj)).
      rewrite <- Heq in *.
      rewrite (add_length_new _ _ Hnew) in H. lia.
    + rewrite add_length_new.
      * pose proof (add_length_ge (toMerge st) (id pi)). lia.
      * intros Hin. apply add_iff in Hin.
        destruct Hin as [Hin | Hin]; [exact (Hne Hin) | exact (Hnew Hin)].
Qed.

Lemma mergeBody_fold_count (particles0 : list Particle) (thr : R)
    (maxLevel : Z) (pi : Particle) :
  In pi particles0 ->
  forall (rest : list Particle) (st : EmergenceState),
    incl rest particles0 ->
    countInv particles0 st ->
    countInv particles0 (fold_left (mergeBody thr maxLevel pi) rest st).
Proof.
  intros Hpi. induction rest as [| pj rest IH]; intros st Hincl Hinv; simpl.
  - exact Hinv.
  - apply IH.
    + intros x Hx. apply Hincl. right. exact Hx.
    + apply mergeBody_count; try assumption. apply Hincl. left. reflexivity.
Qed.

Lemma emergenceLoop_count (particles0 : list Particle) (thr : R)
    (maxLevel : Z) :
  forall (particles : list Particle) (st : EmergenceState),
    incl particles particles0 ->
    countInv particles0 st ->
    countInv particles0 (emergenceLoop thr maxLevel particles st).
Proof.
  induction particles as [| pi rest IH]; intros st Hincl Hinv; simpl.
  - exact Hinv.
  - assert (Hrest : incl rest particles0)
      by (intros x Hx; apply Hincl; right; exact Hx).
    assert (Hpi : In pi particles0) by (apply Hincl; left; reflexivity).
    destruct (has (toMerge st) (id pi)); [apply IH; assumption |].
    apply IH; [exact Hrest |].
    apply mergeBody_fold_count; assumption.
Qed.

Lemma filter_shorter {A : Type} (f : A -> bool) (l : list A) :
  (List.length (filter f l) <= List.length l)%nat.
Proof.
  induction l as [| x l IH]; simpl; [lia |].
  destruct (f x); simpl; lia.
Qed.

Lemma filter_mono_length {A : Type} (f g : A -> bool) (l : list A) :
  (forall x, f x = true -> g x = true) ->
  (List.length (filter f l) <= List.length (filter g l))%nat.
Proof.
  intros Himp. induction l as [| z l IH]; simpl; [lia |].
  destruct (f z) eqn:Ef.
  - rewrite (Himp z Ef). simpl. lia.
  - destruct (g z); simpl; lia.
Qed.

Lemma filter_strictly_shorter {A : Type} (f g : A -> bool) (l : list A) :
  (forall x, f x = true -> g x = true) ->
  (exists x, In x l /\ g x = true /\ f x = false) ->
  (S (List.length (filter f l)) <= List.length (filter g l))%nat.
Proof.
  intros Himp. induction l as [| y l IH]; intros [x [Hin [Hg Hf]]].
  - destruct Hin.
  - pose proof (filter_mono_length f g l Himp) as Hle.
    simpl. destruct Hin as [-> | Hin].
    + rewrite Hg, Hf. simpl. lia.
    + assert (IH' : (S (List.length (filter f l))
                     <= List.length (filter g l))%nat)
        by (apply IH; exists x; auto).
      destruct (f y) eqn:Ef.
      * rewrite (Himp y Ef). simpl. lia.
      * destruct (g y); simpl; lia.
Qed.

Lemma marked_count (l : list Particle) :
  forall tm : set string,
    NoDup tm -> incl tm (map id l) ->
    (List.length tm
     + List.length (filter (fun p => negb (has tm (id p))) l)
     <= List.length l)%nat.
Proof.
  induction tm as [| x tm IH]; intros Hnd Hincl.
  - rewrite filter_unmarked_nothing. simpl. lia.
  - inversion Hnd as [| ? ? Hnot Hnd']; subst.
    assert (Hincl' : incl tm (map id l))
      by (intros y Hy; apply Hincl; right; exact Hy).
    specialize (IH Hnd' Hincl').
    assert (Hx : In x (map id l)) by (apply Hincl; left; reflexivity).
    apply in_map_iff in Hx. destruct Hx as [p0 [Hid Hp0]].
    assert (Hlt :
      (S (List.length (filter (fun p => negb (has (x :: tm) (id p))) l))
       <= List.length (filter (fun p => negb (has tm (id p))) l))%nat).
    { apply filter_strictly_shorter.
      - intros p Hp. apply negb_true_iff in Hp. apply negb_true_iff.
        apply has_false. intros Hin.
        assert (has (x :: tm) (id p) = true)
          by (apply has_true; right; exact Hin).
        congruence.
      - exists p0. split; [exact Hp0 |]. split.
        + apply negb_true_iff, has_false. rewrite Hid. exact Hnot.
        + apply negb_false_iff, has_true. left. symmetry. exact Hid. }
    simpl. lia.
Qed.

(** X11.  A pass never gives back more particles than it was given. *)
Theorem emergence_never_grows :
  forall (particles : list Particle) (emergenceThreshold : R) (maxLevel : Z),
    (List.length
       (checkHolarchicEmergence particles emergenceThreshold maxLevel)
     <= List.length particles)%nat.
Proof.
  intros particles thr maxLevel.
  assert (Hinv : countInv particles
                   (emergenceLoop thr maxLevel particles
                                  (mkEmergence particles [] 0))).
  { apply emergenceLoop_count; [apply incl_refl |].
    exists []. simpl. rewrite app_nil_r.
    repeat split; [constructor | intros x [] | lia]. }
  destruct Hinv as [pushed [Hres [Hnd [Hincl Hlen]]]].
  unfold checkHolarchicEmergence. rewrite Hres, filter_app, length_app.
  pose proof (marked_count particles _ Hnd Hincl).
  pose proof (filter_shorter
                (fun p => negb (has (toMerge
                   (emergenceLoop thr maxLevel particles
                      (mkEmergence particles [] 0))) (id p))) pushed).
  lia.
Qed.

(** ** More on the memory tree *)

Lemma lookupGroup_push (lvl : Z) (p : Particle) (l : Z) :
  forall groups : list (Z * list Particle),
    lookupGroup l (pushToGroup lvl p groups)
    = if Z.eqb l lvl then lookupGroup l groups ++ [p]
      else lookupGroup l groups.
Proof.
  induction groups as [| [l0 g] rest IH]; simpl.
  - rewrite (Z.eqb_sym lvl l). destruct (Z.eqb l lvl); reflexivity.
  - destruct (Z.eqb_spec l0 lvl) as [-> | Hne]; simpl.
    + rewrite (Z.eqb_sym lvl l). destruct (Z.eqb l lvl); reflexivity.
    + destruct (Z.eqb_spec l0 l) as [-> | Hne'].
      * destruct (Z.eqb_spec l lvl); [contradiction | reflexivity].
      * apply IH.
Qed.

Lemma lookupGroup_fold (l : Z) :
  forall (particles : list Particle) (groups : list (Z * list Particle)),
    lookupGroup l
      (fold_left
         (fun levelGroups p => pushToGroup (holarchyLevel p) p levelGroups)
         particles groups)
    = lookupGroup l groups
      ++ filter (fun p => Z.eqb (holarchyLevel p) l) particles.
Proof.
  induction particles as [| p particles IH]; intros groups; simpl.
  - rewrite app_nil_r. reflexivity.
  - rewrite IH, lookupGroup_push. rewrite (Z.eqb_sym (holarchyLevel p) l).
    destruct (Z.eqb l (holarchyLevel p)).
    + rewrite <- app_assoc. reflexivity.
    + reflexivity.
Qed.

Lemma lookupGroup_In (l : Z) (g : list Particle) :
  forall groups : list (Z * list Particle),
    NoDup (map fst groups) -> In (l, g) groups -> lookupGroup l groups = g.
Proof.
  induction groups as [| [l0 g0] rest IH]; intros Hnd Hin; simpl.
  - destruct Hin.
  - inversion Hnd as [| ? ? Hnot Hrest]; subst.
    destruct Hin as [[= -> ->] | Hin].
    + rewrite Z.eqb_refl. reflexivity.
    + destruct (Z.eqb_spec l0 l) as [-> | Hne].
      * exfalso. apply Hnot. simpl.
        apply (in_map fst) in Hin. exact Hin.
      * apply IH; assumption.
Qed.

Lemma groupByLevel_groups (particles : list Particle) (l : Z)
    (g : list Particle) :
  In (l, g) (groupByLevel particles) ->
  g = filter (fun p => Z.eqb (holarchyLevel p) l) particles /\ g <> [].
Proof.
  intros Hin.
  destruct (groupByLevel_spec particles) as [Hnd [Hne _]].
  split.
  - rewrite <- (lookupGroup_In l g _ Hnd Hin).
    unfold groupByLevel. rewrite lookupGroup_fold. reflexivity.
  - rewrite Forall_forall in Hne. exact (Hne (l, g) Hin).
Qed.

Lemma createNodes_origin :
  forall (groups : list (Z * list Particle)) (k : nat) (n : HolarchicMemoryNode),
    In n (createNodes groups k) ->
    exists l g newId,
      In (l, g) groups
      /\ n = createMemoryNodeFromParticles g l None newId.
Proof.
  induction groups as [| [l g] rest IH]; intros k n Hin; simpl in Hin.
  - destruct Hin.
  - destruct (0 <? List.length g)%nat.
    + destruct Hin as [<- | Hin].
      * exists l, g, (nodeIdAt k). split; [left; reflexivity | reflexivity].
      * destruct (IH _ _ Hin) as [l' [g' [i' [H1 H2]]]].
        exists l', g', i'. split; [right; exact H1 | exact H2].
    + destruct (IH _ _ Hin) as [l' [g' [i' [H1 H2]]]].
      exists l', g', i'. split; [right; exact H1 | exact H2].
Qed.

Lemma extends_refl (m : HolarchicMemoryNode) : extends m m.
Proof.
  repeat split. exists []. rewrite app_nil_r. reflexivity.
Qed.

Lemma extends_trans (a b c : HolarchicMemoryNode) :
  extends a b -> extends b c -> extends a c.
Proof.
  intros [A1 [A2 [A3 [A4 [A5 [pa A6]]]]]] [B1 [B2 [B3 [B4 [B5 [pb B6]]]]]].
  repeat split; try congruence.
  exists (pa ++ pb). rewrite B6, A6, app_assoc. reflexivity.
Qed.

Lemma update_at_extends (f : HolarchicMemoryNode -> HolarchicMemoryNode) :
  (forall x, extends x (f x)) ->
  forall (l : list HolarchicMemoryNode) (i : nat),
    Forall2 extends l (update_at i f l).
Proof.
  intros Hf. induction l as [| x l IH]; intros i; simpl.
  - constructor.
  - destruct i.
    + constructor; [apply Hf |].
      clear. induction l; constructor; [apply extends_refl | assumption].
    + constructor; [apply extends_refl | apply IH].
Qed.

Lemma Forall2_extends_trans (l1 l2 l3 : list HolarchicMemoryNode) :
  Forall2 extends l1 l2 -> Forall2 extends l2 l3 -> Forall2 extends l1 l3.
Proof.
  intros H12. revert l3.
  induction H12 as [| a b l1 l2 Hab _ IH]; intros l3 H23.
  - inversion H23. constructor.
  - inversion H23 as [| ? c ? l3' Hbc Hrest]; subst.
    constructor; [exact (extends_trans a b c Hab Hbc) | apply IH, Hrest].
Qed.

Lemma Forall2_extends_refl (l : list HolarchicMemoryNode) :
  Forall2 extends l l.
Proof. induction l; constructor; [apply extends_refl | assumption]. Qed.

Lemma linkNode_extends (nodes : list HolarchicMemoryNode) (i : nat) :
  Forall2 extends nodes (linkNode nodes i).
Proof.
  unfold linkNode. destruct i as [| i']; [apply Forall2_extends_refl |].
  destruct (nth_error nodes (S i')) as [cur |];
    [| apply Forall2_extends_refl].
  destruct (findParent nodes (level cur) i') as [j |];
    [| apply Forall2_extends_refl].
  destruct (nth_error nodes j) as [nj |]; [| apply Forall2_extends_refl].
  eapply Forall2_extends_trans.
  - apply (update_at_extends
             (fun n => with_parent n (Some (node_id nj)))).
    intros x. repeat split. exists []. simpl. rewrite app_nil_r. reflexivity.
  - apply update_at_extends. intros x. repeat split.
    exists [node_id cur]. reflexivity.
Qed.

Lemma link_fold_extends (indices : list nat) :
  forall nodes, Forall2 extends nodes (fold_left linkNode indices nodes).
Proof.
  induction indices as [| i indices IH]; intros nodes; simpl.
  - apply Forall2_extends_refl.
  - eapply Forall2_extends_trans; [apply linkNode_extends | apply IH].
Qed.

Lemma Forall2_In_r {A B : Type} (R : A -> B -> Prop) (l1 : list A)
    (l2 : list B) (y : B) :
  Forall2 R l1 l2 -> In y l2 -> exists x, In x l1 /\ R x y.
Proof.
  induction 1 as [| a b l1 l2 Hab _ IH]; intros Hin.
  - destruct Hin.
  - destruct Hin as [<- | Hin].
    + exists a. split; [left; reflexivity | exact Hab].
    + destruct (IH Hin) as [x [Hx Hr]]. exists x. split; [right |]; assumption.
Qed.

(** Every node of the tree comes from the group of its level. *)
Lemma tree_nodes_groups :
  forall (particles : list Particle) (maxDepth : Z),
    Forall
      (fun n =>
         let group :=
           filter (fun p => Z.eqb (holarchyLevel p) (level n)) particles in
         group <> []
         /\ node_position n = massCentroid group
         /\ activationEnergy n = sumOver energy group
         /\ memoryStrength n = 1
         /\ exists linked, children n = map id group ++ linked)
      (buildHolarchicTree particles maxDepth)
    /\ Forall
         (fun p =>
            exists n,
              In n (buildHolarchicTree particles maxDepth)
              /\ level n = holarchyLevel p /\ In (id p) (children n))
         particles.
Proof.
  intros particles maxDepth.
  assert (Hnodes :
    Forall
      (fun n =>
         let group :=
           filter (fun p => Z.eqb (holarchyLevel p) (level n)) particles in
         group <> []
         /\ node_position n = massCentroid group
         /\ activationEnergy n = sumOver energy group
         /\ memoryStrength n = 1
         /\ exists linked, children n = map id group ++ linked)
      (buildHolarchicTree particles maxDepth)).
  { apply Forall_forall. intros n Hn. cbv zeta.
    unfold buildHolarchicTree, linkNodes in Hn.
    destruct (Forall2_In_r _ _ _ n (link_fold_extends _ _) Hn)
      as [m [Hm [E1 [E2 [E3 [E4 [E5 [pushed E6]]]]]]]].
    apply (Permutation_in _ (sortByLevel_perm _)) in Hm.
    destruct (createNodes_origin _ _ _ Hm) as [l [g [newId [Hg Heq]]]].
    destruct (groupByLevel_groups particles l g Hg) as [Hfilter Hne].
    subst m. simpl in *. rewrite E2.
    rewrite <- Hfilter.
    split; [exact Hne |]. split; [exact E3 |]. split; [exact E4 |].
    split; [exact E5 |]. exists pushed. exact E6. }
  split; [exact Hnodes |].
  apply Forall_forall. intros p Hp.
  destruct (groupByLevel_spec particles) as [_ [_ Hkeys]].
  assert (Hl : In (holarchyLevel p) (map level
                 (buildHolarchicTree particles maxDepth))).
  { apply (Permutation_in _
             (Permutation_sym (buildHolarchicTree_levels particles maxDepth))).
    apply Hkeys. exists p. split; [exact Hp | reflexivity]. }
  apply in_map_iff in Hl. destruct Hl as [n [Hlevel Hn]].
  exists n. split; [exact Hn |]. split; [exact Hlevel |].
  rewrite Forall_forall in Hnodes.
  destruct (Hnodes n Hn) as [_ [_ [_ [_ [linked Hch]]]]].
  rewrite Hch. apply in_or_app. left.
  apply in_map. apply filter_In. split; [exact Hp |].
  apply Z.eqb_eq. symmetry. exact Hlevel.
Qed.

(** X12.  For particles of positive mass, every node of the tree stands
    for the particles of its level: there are such particles, the node is
    at their mass-weighted centroid (the sum of position times mass over
    the sum of the masses, over the particles in their order), its
    activation energy is the sum of their energies, its strength is 1, and
    its children begin with their ids in the order of the input (the id of
    a linked node may follow).  Every particle has its id among the
    children of a node of its level. *)
Theorem tree_nodes_summarise_levels :
  forall (particles : list Particle) (maxDepth : Z),
    (forall p, In p particles -> 0 < mass p) ->
    let weighted := fun (f : Particle -> R) (l : list Particle) =>
      fold_left (fun sum p => sum + f p * mass p) l 0
      / fold_left (fun sum p => sum + mass p) l 0 in
    Forall
      (fun n =>
         let group :=
           filter (fun p => Z.eqb (holarchyLevel p) (level n)) particles in
         group <> []
         /\ node_position n
            = V3 (weighted (fun p => c0 (position p)) group)
                 (weighted (fun p => c1 (position p)) group)
                 (weighted (fun p => c2 (position p)) group)
         /\ activationEnergy n = fold_left (fun sum p => sum + energy p) group 0
         /\ memoryStrength n = 1
         /\ exists linked, children n = map id group ++ linked)
      (buildHolarchicTree particles maxDepth)
    /\ Forall
         (fun p =>
            exists n,
              In n (buildHolarchicTree particles maxDepth)
              /\ level n = holarchyLevel p /\ In (id p) (children n))
         particles.
Proof.
  intros particles maxDepth Hmass weighted.
  destruct (tree_nodes_groups particles maxDepth) as [Hnodes Hcover].
  split; [| exact Hcover].
  apply Forall_forall. intros n Hn.
  rewrite Forall_forall in Hnodes.
  destruct (Hnodes n Hn) as [Hne [Hpos [Hact [Hstr Hch]]]].
  cbv zeta in *.
  split; [exact Hne |]. split; [| split; [exact Hact | split; assumption]].
  rewrite Hpos. apply massCentroid_explicit; [exact Hne |].
  intros q Hq. apply Hmass. apply filter_In in Hq. exact (proj1 Hq).
Qed.

Lemma Forall2_extends_levels (l1 l2 : list HolarchicMemoryNode) :
  Forall2 extends l1 l2 -> map level l2 = map level l1.
Proof.
  induction 1 as [| a b l1 l2 [_ [Hl _]] _ IH]; simpl; [reflexivity |].
  rewrite Hl, IH. reflexivity.
Qed.

Lemma ascending_neighbours :
  forall (l : list HolarchicMemoryNode) (i : nat) (a b : HolarchicMemoryNode),
    StronglySorted Z.lt (map level l) ->
    nth_error l i = Some a -> nth_error l (S i) = Some b ->
    (level a < level b)%Z.
Proof.
  induction l as [| x l IH]; intros i a b Hs Ha Hb.
  - destruct i; discriminate.
  - simpl in Hs. apply StronglySorted_inv in Hs. destruct Hs as [Hs Hx].
    destruct i as [| i].
    + simpl in Ha. injection Ha as <-. rewrite Forall_forall in Hx. apply Hx.
      apply in_map. exact (nth_error_In l 0 Hb).
    + exact (IH i a b Hs Ha Hb).
Qed.

Lemma linkNode_chain (nodes0 cur : list HolarchicMemoryNode) (k : nat) :
  StronglySorted Z.lt (map level nodes0) ->
  (S k < List.length cur)%nat ->
  chainInv nodes0 k cur ->
  chainInv nodes0 (S k) (linkNode cur (S k)).
Proof.
  intros Hsorted Hlen [Hext [Hroot Hchain]].
  assert (Hsorted' : StronglySorted Z.lt (map level cur))
    by (rewrite (Forall2_extends_levels _ _ Hext); exact Hsorted).
  destruct (nth_error cur (S k)) as [c |] eqn:Hc;
    [| apply nth_error_None in Hc; lia].
  destruct (nth_error cur k) as [a |] eqn:Ha;
    [| apply nth_error_None in Ha; lia].
  pose proof (ascending_neighbours cur k a c Hsorted' Ha Hc) as Hlt.
  assert (Hfind : findParent cur (level c) k = Some k).
  { rewrite findParent_eq, Ha.
    destruct (Z.ltb_spec (level a) (level c)); [reflexivity | lia]. }
  assert (Hlink : linkNode cur (S k)
                  = update_at k (fun n => push_child n (node_id c))
                      (update_at (S k)
                         (fun n => with_parent n (Some (node_id a))) cur)).
  { unfold linkNode. rewrite Hc, Hfind, Ha. reflexivity. }
  assert (Hat : forall i,
    nth_error (linkNode cur (S k)) i
    = if (i =? k)%nat then option_map
           (fun n => push_child n (node_id c)) (nth_error cur i)
      else if (i =? S k)%nat then option_map
           (fun n => with_parent n (Some (node_id a))) (nth_error cur i)
      else nth_error cur i).
  { intros i. rewrite Hlink, !nth_error_update_at.
    destruct (Nat.eqb_spec i k) as [-> | Hik]; [| reflexivity].
    destruct (Nat.eqb_spec k (S k)); [lia | reflexivity]. }
  split; [| split].
  - exact (Forall2_extends_trans _ _ _ Hext (linkNode_extends cur (S k))).
  - intros i b Hb Hi. rewrite Hat in Hb.
    destruct (Nat.eqb_spec i k) as [-> | Hik].
    + rewrite Ha in Hb. simpl in Hb. injection Hb as <-. simpl.
      apply (Hroot k a Ha). lia.
    + destruct (Nat.eqb_spec i (S k)) as [-> | Hisk]; [lia |].
      apply (Hroot i b Hb). lia.
  - intros i x y Hi Hx Hy. rewrite Hat in Hx, Hy.
    destruct (Nat.eqb_spec (S i) k) as [Hsik | Hsik].
    + (* the pair (k - 1, k): the later one had a child pushed *)
      rewrite <- Hsik in *.
      destruct (Nat.eqb_spec i (S i)); [lia |].
      destruct (Nat.eqb_spec i (S (S i))); [lia |].
      rewrite Ha in Hy. simpl in Hy. injection Hy as <-. simpl.
      exact (Hchain i x a (Nat.le_refl _) Hx Ha).
    + destruct (Nat.eqb_spec (S i) (S k)) as [Heq | Hne].
      * (* the pair (k, k + 1): linked in this round *)
        injection Heq as ->.
        rewrite Nat.eqb_refl, Ha in Hx. simpl in Hx. injection Hx as <-.
        rewrite Hc in Hy. simpl in Hy. injection Hy as <-. simpl.
        split; [reflexivity |].
        apply in_or_app. right. left. reflexivity.
      * destruct (Nat.eqb_spec i k); [lia |].
        destruct (Nat.eqb_spec i (S k)); [lia |].
        apply (Hchain i x y); [lia | exact Hx | exact Hy].
Qed.

Lemma link_fold_chain (nodes0 : list HolarchicMemoryNode) :
  StronglySorted Z.lt (map level nodes0) ->
  forall (len s : nat) (cur : list HolarchicMemoryNode),
    (s + len < List.length nodes0)%nat ->
    chainInv nodes0 s cur ->
    chainInv nodes0 (s + len) (fold_left linkNode (seq (S s) len) cur).
Proof.
  intros Hsorted. induction len as [| len IH]; intros s cur Hlen Hinv; simpl.
  - rewrite Nat.add_0_r. exact Hinv.
  - replace (s + S len)%nat with (S s + len)%nat by lia.
    apply IH; [lia |].
    apply linkNode_chain; [exact Hsorted | | exact Hinv].
    destruct Hinv as [Hext _].
    rewrite <- (Forall2_length Hext). lia.
Qed.

(** X13.  The tree is a chain: its first node has no parent, and every
    other node has the node before it, which is of a strictly lower level,
    as its parent and is listed among that node's children. *)
Theorem tree_is_a_chain :
  forall (particles : list Particle) (maxDepth : Z),
    let nodes := buildHolarchicTree particles maxDepth in
    (forall n, nth_error nodes 0 = Some n -> parent n = None)
    /\ (forall i a b,
           nth_error nodes i = Some a -> nth_error nodes (S i) = Some b ->
           parent b = Some (node_id a)
           /\ In (node_id b) (children a)
           /\ (level a < level b)%Z).
Proof.
  intros particles maxDepth nodes.
  set (sorted := sortByLevel (createNodes (groupByLevel particles) 0)).
  assert (Hsorted : StronglySorted Z.lt (map level sorted)).
  { apply sortByLevel_ascending.
    destruct (groupByLevel_spec particles) as [Hnd [Hne _]].
    rewrite (createNodes_levels _ 0 Hne). exact Hnd. }
  assert (Hroots : Forall (fun n => parent n = None) sorted).
  { apply (Permutation_Forall (Permutation_sym (sortByLevel_perm _))).
    apply createNodes_parentless. }
  assert (Hinit : chainInv sorted 0 sorted).
  { split; [apply Forall2_extends_refl |]. split.
    - intros i b Hb _. rewrite Forall_forall in Hroots.
      apply Hroots. exact (nth_error_In _ _ Hb).
    - intros i a b Hi. lia. }
  assert (Hfinal : chainInv sorted (List.length sorted - 1) nodes).
  { unfold nodes, buildHolarchicTree, linkNodes. fold sorted.
    destruct sorted as [| x rest] eqn:E.
    - simpl. exact Hinit.
    - rewrite <- E in *.
      replace (List.length sorted - 1)%nat
        with (0 + (List.length sorted - 1))%nat by lia.
      apply link_fold_chain; [exact Hsorted | | exact Hinit].
      rewrite E. simpl. lia. }
  destruct Hfinal as [Hext [Hroot Hchain]].
  assert (Hlen : List.length nodes = List.length sorted)
    by (symmetry; exact (Forall2_length Hext)).
  assert (Hlevels : StronglySorted Z.lt (map level nodes))
    by (rewrite (Forall2_extends_levels _ _ Hext); exact Hsorted).
  split.
  - intros n Hn. apply (Hroot 0%nat n Hn). left. reflexivity.
  - intros i a b Ha Hb.
    assert (Hi : (S i < List.length nodes)%nat)
      by (apply nth_error_Some; congruence).
    destruct (Hchain i a b) as [H1 H2]; [lia | exact Ha | exact Hb |].
    split; [exact H1 |]. split; [exact H2 |].
    exact (ascending_neighbours nodes i a b Hlevels Ha Hb).
Qed.

(** ** More on the memory update *)

Lemma updateNode_frame (particles : list Particle) (config : MemoryConfig)
    (deltaTime : R) (node : HolarchicMemoryNode) :
  let node' := updateNode particles config deltaTime node in
  node_id node' = node_id node /\ level node' = level node
  /\ children node' = children node /\ parent node' = parent node.
Proof.
  unfold updateNode.
  destruct (0 <? List.length (matchingParticlesOf node particles))%nat;
    simpl; repeat split; reflexivity.
Qed.

(** X14.  Every node that [updateMemoryNodes] returns has a strength above
    0.01; and when the strengths it is given are between 0 and 1 and
    [decayRate * deltaTime] is not negative, the strengths it returns are
    at most 1. *)
Theorem memory_strength_bounds :
  forall (nodes : list HolarchicMemoryNode) (particles : list Particle)
         (config : MemoryConfig) (deltaTime : R),
    Forall (fun n => 0.01 < memoryStrength n)
           (updateMemoryNodes nodes particles config deltaTime)
    /\ (Forall (fun n => 0 <= memoryStrength n <= 1) nodes ->
        0 <= decayRate config * deltaTime ->
        Forall (fun n => memoryStrength n <= 1)
               (updateMemoryNodes nodes particles config deltaTime)).
Proof.
  intros nodes particles config dt. split.
  - apply Forall_forall. intros n Hn. unfold updateMemoryNodes in Hn.
    apply filter_In in Hn. destruct Hn as [_ Hn].
    apply Rltb_iff in Hn. exact Hn.
  - intros Hin Hrate. apply Forall_forall. intros n' Hn'.
    unfold updateMemoryNodes in Hn'. apply filter_In in Hn'.
    destruct Hn' as [Hn' _]. apply in_map_iff in Hn'.
    destruct Hn' as [n [<- Hn]].
    rewrite Forall_forall in Hin. specialize (Hin n Hn).
    unfold updateNode.
    destruct (0 <? List.length (matchingParticlesOf n particles))%nat; simpl.
    + apply Rmin_l.
    + nra.
Qed.

(** X15.  [updateMemoryNodes] returns no more nodes than it was given, and
    each of them is a node it was given with the same id, level, children
    and parent. *)
Theorem memory_update_frame :
  forall (nodes : list HolarchicMemoryNode) (particles : list Particle)
         (config : MemoryConfig) (deltaTime : R),
    (List.length (updateMemoryNodes nodes particles config deltaTime)
     <= List.length nodes)%nat
    /\ Forall
         (fun n' =>
            exists n,
              In n nodes /\ node_id n' = node_id n /\ level n' = level n
              /\ children n' = children n /\ parent n' = parent n)
         (updateMemoryNodes nodes particles config deltaTime).
Proof.
  intros nodes particles config dt. split.
  - unfold updateMemoryNodes.
    rewrite <- (length_map (updateNode particles config dt) nodes).
    apply filter_shorter.
  - apply Forall_forall. intros n' Hn'.
    unfold updateMemoryNodes in Hn'. apply filter_In in Hn'.
    destruct Hn' as [Hn' _]. apply in_map_iff in Hn'.
    destruct Hn' as [n [<- Hn]].
    exists n. split; [exact Hn |].
    apply updateNode_frame.
Qed.

(** ** More on the queries *)

Lemma recognize_chosen (lvl : Z) (centroid : vec3) :
  forall (nodes : list HolarchicMemoryNode)
         (best : option HolarchicMemoryNode * R) (n : HolarchicMemoryNode),
    fst (fold_left (recognizeBody lvl centroid) nodes best) = Some n ->
    (In n nodes /\ level n = lvl
     /\ snd (fold_left (recognizeBody lvl centroid) nodes best)
        = similarityTo centroid n)
    \/ (fst best = Some n
        /\ snd (fold_left (recognizeBody lvl centroid) nodes best)
           = snd best).
Proof.
  induction nodes as [| x rest IH]; intros best n Hn; simpl in *.
  - right. split; [exact Hn | reflexivity].
  - destruct (IH _ n Hn) as [[Hin [Hl Hs]] | [Hb Hs]].
    + left. split; [right; exact Hin |]. split; assumption.
    + assert (Hcase :
        recognizeBody lvl centroid best x = best
        \/ (recognizeBody lvl centroid best x
            = (Some x, similarityTo centroid x)
            /\ level x = lvl)).
      { unfold recognizeBody.
        destruct (Z.eqb_spec (level x) lvl) as [Hl | Hl]; simpl;
          [| left; reflexivity].
        destruct (Rgtb (similarityTo centroid x) (snd best));
          [right; split; [reflexivity | exact Hl] | left; reflexivity]. }
      destruct Hcase as [E | [E Hl]]; rewrite E in Hb, Hs |- *.
      * right. split; assumption.
      * simpl in Hb, Hs. injection Hb as <-.
        left. split; [left; reflexivity |]. split; assumption.
Qed.

(** The node returned has the greatest similarity of its level. *)
Lemma recognize_best_of_level :
  forall (particles : list Particle) (nodes : list HolarchicMemoryNode)
         (lvl : Z) (n : HolarchicMemoryNode),
    recognizePattern particles nodes lvl = Some n ->
    let centroid :=
      massCentroid (filter (fun p => Z.eqb (holarchyLevel p) lvl) particles)
    in
    In n nodes /\ level n = lvl
    /\ 0.1 < similarityTo centroid n
    /\ forall m, In m nodes -> level m = lvl ->
                 similarityTo centroid m <= similarityTo centroid n.
Proof.
  intros particles nodes lvl n Hrec centroid.
  unfold recognizePattern in Hrec. fold centroid in Hrec.
  destruct (List.length _ =? 0)%nat; [discriminate |].
  set (best := fold_left (recognizeBody lvl centroid) nodes (None, -1))
    in Hrec.
  unfold Rgtb in Hrec. destruct (Rltb 0.1 (snd best)) eqn:Hb;
    [| discriminate].
  apply Rltb_iff in Hb.
  destruct (recognize_chosen lvl centroid nodes (None, -1) n Hrec)
    as [[Hin [Hl Hs]] | [Habs _]]; [| discriminate].
  fold best in Hs.
  split; [exact Hin |]. split; [exact Hl |].
  split; [rewrite <- Hs; exact Hb |].
  intros m Hm Hlm. rewrite <- Hs.
  pose proof (proj1 (recognize_best_bound lvl centroid nodes (None, -1)
                       (snd best)) (Rle_refl _)) as [_ Hall].
  apply Hall; assumption.
Qed.

(** X17.  For particles of positive mass, the node that
    [recognizePattern] returns is one of the nodes, at the level asked
    for, with a score [memoryStrength * exp (- distance)] above 0.1, the
    distance being that of the node to the mass-weighted centroid of the
    particles of that level, and no node of that level has a greater
    score. *)
Theorem recognize_returns_best :
  forall (particles : list Particle) (nodes : list HolarchicMemoryNode)
         (lvl : Z) (n : HolarchicMemoryNode),
    (forall p, In p particles -> 0 < mass p) ->
    recognizePattern particles nodes lvl = Some n ->
    let levelParticles :=
      filter (fun p => Z.eqb (holarchyLevel p) lvl) particles in
    let totalMass := fold_left (fun sum p => sum + mass p) levelParticles 0 in
    let cx :=
      fold_left (fun sum p => sum + c0 (position p) * mass p) levelParticles 0
      / totalMass in
    let cy :=
      fold_left (fun sum p => sum + c1 (position p) * mass p) levelParticles 0
      / totalMass in
    let cz :=
      fold_left (fun sum p => sum + c2 (position p) * mass p) levelParticles 0
      / totalMass in
    let score := fun node : HolarchicMemoryNode =>
      memoryStrength node
      * exp (- sqrt ((cx - c0 (node_position node))
                     * (cx - c0 (node_position node))
                     + (cy - c1 (node_position node))
                       * (cy - c1 (node_position node))
                     + (cz - c2 (node_position node))
                       * (cz - c2 (node_position node)))) in
    In n nodes /\ level n = lvl
    /\ 0.1 < score n
    /\ forall m, In m nodes -> level m = lvl -> score m <= score n.
Proof.
  intros particles nodes lvl n Hmass Hsome levelParticles totalMass cx cy cz
         score.
  pose proof (recognize_best_of_level particles nodes lvl n Hsome) as Hbest.
  cbv zeta in Hbest. fold levelParticles in Hbest.
  assert (Hne : levelParticles <> []).
  { intros E. unfold recognizePattern in Hsome.
    fold levelParticles in Hsome. rewrite E in Hsome. discriminate. }
  assert (Hcentroid : massCentroid levelParticles = V3 cx cy cz).
  { apply massCentroid_explicit; [exact Hne |].
    intros q Hq. apply Hmass. apply filter_In in Hq. exact (proj1 Hq). }
  rewrite Hcentroid in Hbest.
  destruct Hbest as [H1 [H2 [H3 H4]]].
  split; [exact H1 |]. split; [exact H2 |].
  split; [rewrite similarityTo_explicit in H3; exact H3 |].
  intros m Hm Hl. specialize (H4 m Hm Hl).
  rewrite !similarityTo_explicit in H4. exact H4.
Qed.

Lemma exp_neg_unit (d : R) : 0 <= d -> 0 < exp (- d) <= 1.
Proof.
  intros Hd. split; [apply exp_pos |].
  destruct (Rle_lt_or_eq_dec 0 d Hd) as [Hlt | <-].
  - apply Rlt_le. rewrite <- exp_0. apply exp_increasing. lra.
  - rewrite Ropp_0, exp_0. lra.
Qed.

Lemma distanceBetween_nonneg (a b : vec3) : 0 <= distanceBetween a b.
Proof. unfold distanceBetween. apply sqrt_pos. Qed.

Lemma coherenceBody_bound (node : HolarchicMemoryNode) :
  0 <= memoryStrength node <= 1 ->
  forall (levelParticles : list Particle) (acc : R * nat),
    0 <= fst acc <= INR (snd acc) ->
    0 <= fst (fold_left (coherenceBody node) levelParticles acc)
      <= INR (snd (fold_left (coherenceBody node) levelParticles acc)).
Proof.
  intros Hs. induction levelParticles as [| p rest IH]; intros acc Hacc; simpl.
  - exact Hacc.
  - apply IH. unfold coherenceBody. cbn [fst snd]. rewrite S_INR.
    pose proof (exp_neg_unit _ (distanceBetween_nonneg (position p)
                                  (node_position node))) as He.
    nra.
Qed.

(** X18.  With strengths between 0 and 1 the coherence is between 0 and
    1. *)
Theorem coherence_bounds :
  forall (particles : list Particle) (nodes : list HolarchicMemoryNode),
    Forall (fun n => 0 <= memoryStrength n <= 1) nodes ->
    0 <= calculateHolarchicCoherence particles nodes <= 1.
Proof.
  intros particles nodes Hs. unfold calculateHolarchicCoherence.
  destruct (_ || _); [lra |].
  set (step := fun (acc : R * nat) (node : HolarchicMemoryNode) => _).
  assert (Hinv : forall (l : list HolarchicMemoryNode) (acc : R * nat),
            Forall (fun n => 0 <= memoryStrength n <= 1) l ->
            0 <= fst acc <= INR (snd acc) ->
            0 <= fst (fold_left step l acc) <= INR (snd (fold_left step l acc))).
  { induction l as [| n l IH]; intros acc Hl Hacc; simpl; [exact Hacc |].
    inversion Hl as [| ? ? Hn Hl']; subst.
    apply IH; [exact Hl' |]. unfold step.
    destruct (List.length _ =? 0)%nat; [exact Hacc |].
    apply coherenceBody_bound; assumption. }
  specialize (Hinv nodes (0, O) Hs). cbn [fst snd INR] in Hinv.
  specialize (Hinv (conj (Rle_refl 0) (Rle_refl 0))).
  destruct (0 <? snd (fold_left step nodes (0%R, O)))%nat eqn:Hc; [| lra].
  apply Nat.ltb_lt in Hc. apply lt_0_INR in Hc.
  rewrite jsdiv_spec by lra.
  split.
  - apply Rmult_le_pos; [lra |]. apply Rlt_le, Rinv_0_lt_compat. exact Hc.
  - apply (Rmult_le_reg_r (INR (snd (fold_left step nodes (0, O)))));
      [exact Hc |].
    unfold Rdiv. rewrite Rmult_assoc, Rinv_l by lra. lra.
Qed.

(** ** Maps *)

Lemma mapGet_mapSet_same {V : Type} (k : string) (v : V) :
  forall m : list (string * V), mapGet k (mapSet k v m) = Some v.
Proof.
  induction m as [| [k' v'] m IH]; simpl.
  - rewrite String.eqb_refl. reflexivity.
  - destruct (String.eqb k' k) eqn:E; simpl; rewrite E; [reflexivity | exact IH].
Qed.

Lemma mapGet_mapSet_other {V : Type} (k k0 : string) (v : V) :
  k <> k0 ->
  forall m : list (string * V), mapGet k (mapSet k0 v m) = mapGet k m.
Proof.
  intros Hne. induction m as [| [k' v'] m IH]; simpl.
  - destruct (String.eqb_spec k0 k) as [Heq | _]; [| reflexivity].
    exfalso. apply Hne. symmetry. exact Heq.
  - destruct (String.eqb_spec k' k0) as [-> | Hne']; simpl.
    + destruct (String.eqb_spec k0 k) as [Heq | _]; [| reflexivity].
      exfalso. apply Hne. symmetry. exact Heq.
    + rewrite IH. reflexivity.
Qed.

Lemma mapSet_fresh {V : Type} (k : string) (v : V) :
  forall m : list (string * V),
    ~ In k (map fst m) -> mapSet k v m = m ++ [(k, v)].
Proof.
  induction m as [| [k' v'] m IH]; intros Hnot; simpl.
  - reflexivity.
  - destruct (String.eqb_spec k' k) as [-> | Hne].
    + exfalso. apply Hnot. left. reflexivity.
    + rewrite IH; [reflexivity |]. intros Hin. apply Hnot. right. exact Hin.
Qed.

(** ** Synchronization forces *)

Lemma groupNodes_one_level (l : Z) :
  forall (nodes g : list HolarchicMemoryNode),
    (forall n, In n nodes -> level n = l) ->
    fold_left (fun levelGroups n => pushNodeToGroup (level n) n levelGroups)
              nodes [(l, g)]
    = [(l, g ++ nodes)].
Proof.
  induction nodes as [| n nodes IH]; intros g Hl; simpl.
  - rewrite app_nil_r. reflexivity.
  - rewrite (Hl n (or_introl eq_refl)), Z.eqb_refl.
    rewrite IH by (intros m Hm; apply Hl; right; exact Hm).
    rewrite <- app_assoc. reflexivity.
Qed.

Lemma syncGroup_fresh (F : HolarchicMemoryNode -> vec3) :
  forall (group : list HolarchicMemoryNode) (forces : list (string * vec3)),
    NoDup (map node_id group) ->
    (forall n, In n group -> ~ In (node_id n) (map fst forces)) ->
    fold_left (fun forces node => mapSet (node_id node) (F node) forces)
              group forces
    = forces ++ map (fun n => (node_id n, F n)) group.
Proof.
  induction group as [| n group IH]; intros forces Hnd Hfresh; simpl.
  - rewrite app_nil_r. reflexivity.
  - inversion Hnd as [| ? ? Hnot Hnd']; subst.
    rewrite (mapSet_fresh _ _ forces (Hfresh n (or_introl eq_refl))).
    rewrite IH; [rewrite <- app_assoc; reflexivity | exact Hnd' |].
    intros m Hm Hin. rewrite map_app in Hin. apply in_app_or in Hin.
    destruct Hin as [Hin | [Heq | []]].
    + exact (Hfresh m (or_intror Hm) Hin).
    + simpl in Heq. apply Hnot. rewrite Heq. apply in_map. exact Hm.
Qed.

Lemma sync_one_level (config : MemoryConfig) (l : Z) :
  forall nodes : list HolarchicMemoryNode,
    (2 <= List.length nodes)%nat ->
    (forall n, In n nodes -> level n = l) ->
    NoDup (map node_id nodes) ->
    calculateSynchronizationForces nodes config
    = map (fun n => (node_id n, syncForce config nodes n)) nodes.
Proof.
  intros nodes Hlen Hlevel Hnd.
  unfold calculateSynchronizationForces, groupNodesByLevel.
  destruct nodes as [| n nodes]; [simpl in Hlen; lia |].
  cbn [fold_left]. cbn [pushNodeToGroup].
  rewrite (Hlevel n (or_introl eq_refl)).
  rewrite groupNodes_one_level
    by (intros m Hm; apply Hlevel; right; exact Hm).
  cbn [fold_left snd app].
  destruct (List.length (n :: nodes) <? 2)%nat eqn:E;
    [apply Nat.ltb_lt in E; lia |].
  unfold syncGroup.
  rewrite (syncGroup_fresh (syncForce config (n :: nodes)) (n :: nodes) []
             Hnd) by (intros m _ []).
  reflexivity.
Qed.

(** The force on [a] from the group [[a; b]] or [[b; a]]: [a] itself is
    skipped, and [b] is looked at once. *)
Lemma syncForce_pair (config : MemoryConfig) (a b : HolarchicMemoryNode) :
  node_id a <> node_id b ->
  syncForce config [a; b] a = syncBody config a (V3 0 0 0) b
  /\ syncForce config [b; a] a = syncBody config a (V3 0 0 0) b.
Proof.
  intros Hne. unfold syncForce. simpl.
  assert (Hself : forall force, syncBody config a force a = force).
  { intros force. unfold syncBody. rewrite String.eqb_refl. reflexivity. }
  rewrite !Hself. split; reflexivity.
Qed.

(** X19.  For two or more nodes of one level with different ids,
    [calculateSynchronizationForces] has exactly one entry for each node,
    under its id and in the order of the nodes.  For two such nodes at a
    distance [d] of 0.01 or more, the force on either is the separation
    towards the other, divided by [d] and multiplied by
    [synchronizationStrength * memoryStrength * memoryStrength / d]; when
    they are closer than 0.01, both forces are zero. *)
Theorem synchronization_force_entries :
  forall (nodes : list HolarchicMemoryNode) (config : MemoryConfig) (l : Z),
    (2 <= List.length nodes)%nat ->
    (forall n, In n nodes -> level n = l) ->
    NoDup (map node_id nodes) ->
    map fst (calculateSynchronizationForces nodes config) = map node_id nodes
    /\ forall a b : HolarchicMemoryNode,
         nodes = [a; b] ->
         let pull := fun n o : HolarchicMemoryNode =>
           let dx := c0 (node_position o) - c0 (node_position n) in
           let dy := c1 (node_position o) - c1 (node_position n) in
           let dz := c2 (node_position o) - c2 (node_position n) in
           let d := sqrt (dx * dx + dy * dy + dz * dz) in
           let strength :=
             jsdiv (synchronizationStrength config * memoryStrength n
                    * memoryStrength o) d in
           V3 (jsdiv dx d * strength) (jsdiv dy d * strength)
              (jsdiv dz d * strength) in
         let dx := c0 (node_position b) - c0 (node_position a) in
         let dy := c1 (node_position b) - c1 (node_position a) in
         let dz := c2 (node_position b) - c2 (node_position a) in
         let d := sqrt (dx * dx + dy * dy + dz * dz) in
         (0.01 <= d ->
          calculateSynchronizationForces nodes config
          = [(node_id a, pull a b); (node_id b, pull b a)])
         /\ (d < 0.01 ->
             calculateSynchronizationForces nodes config
             = [(node_id a, V3 0 0 0); (node_id b, V3 0 0 0)]).
Proof.
  intros nodes config l Hlen Hlevel Hnd.
  pose proof (sync_one_level config l nodes Hlen Hlevel Hnd) as Heq.
  split.
  - rewrite Heq, map_map. apply map_ext. intros n. reflexivity.
  - intros a b Hab pull dx dy dz d. subst nodes.
    assert (Hne : node_id a <> node_id b).
    { simpl in Hnd. inversion Hnd as [| ? ? Hnot _]; subst.
      intros E. apply Hnot. left. symmetry. exact E. }
    assert (Hsym :
      sqrt ((c0 (node_position a) - c0 (node_position b))
            * (c0 (node_position a) - c0 (node_position b))
            + (c1 (node_position a) - c1 (node_position b))
              * (c1 (node_position a) - c1 (node_position b))
            + (c2 (node_position a) - c2 (node_position b))
              * (c2 (node_position a) - c2 (node_position b)))
      = d).
    { unfold d, dx, dy, dz. f_equal. ring. }
    rewrite Heq. cbn [map].
    rewrite (proj1 (syncForce_pair config a b Hne)).
    rewrite (proj2 (syncForce_pair config b a (not_eq_sym Hne))).
    unfold syncBody.
    destruct (String.eqb_spec (node_id b) (node_id a)) as [E | _];
      [exfalso; apply Hne; symmetry; exact E |].
    destruct (String.eqb_spec (node_id a) (node_id b)) as [E | _];
      [exfalso; apply Hne; exact E |].
    cbv zeta. rewrite Hsym. fold dx dy dz. fold d.
    split; intros Hd.
    + rewrite (Rltb_false d 0.01) by lra.
      unfold pull. cbv zeta. rewrite Hsym. fold dx dy dz. fold d.
      f_equal; [| f_equal]; f_equal; apply vec3_eq; simpl; ring.
    + rewrite (Rltb_true d 0.01 Hd). reflexivity.
Qed.

Lemma pushNodeToGroup_fresh (lvl : Z) (n : HolarchicMemoryNode) :
  forall groups : list (Z * list HolarchicMemoryNode),
    ~ In lvl (map fst groups) ->
    pushNodeToGroup lvl n groups = groups ++ [(lvl, [n])].
Proof.
  induction groups as [| [l g] rest IH]; intros Hnot; simpl.
  - reflexivity.
  - destruct (Z.eqb_spec l lvl) as [-> | Hne].
    + exfalso. apply Hnot. left. reflexivity.
    + rewrite IH; [reflexivity |]. intros Hin. apply Hnot. right. exact Hin.
Qed.

Lemma groupNodes_singletons :
  forall (nodes : list HolarchicMemoryNode)
         (groups : list (Z * list HolarchicMemoryNode)),
    NoDup (map level nodes) ->
    (forall n, In n nodes -> ~ In (level n) (map fst groups)) ->
    Forall (fun lg => List.length (snd lg) = 1%nat) groups ->
    Forall (fun lg => List.length (snd lg) = 1%nat)
           (fold_left
              (fun levelGroups n => pushNodeToGroup (level n) n levelGroups)
              nodes groups).
Proof.
  induction nodes as [| n nodes IH]; intros groups Hnd Hfresh Hone; simpl.
  - exact Hone.
  - simpl in Hnd. inversion Hnd as [| ? ? Hnot Hnd']; subst.
    rewrite (pushNodeToGroup_fresh _ n groups (Hfresh n (or_introl eq_refl))).
    apply IH; [exact Hnd' | |].
    + intros m Hm Hin. rewrite map_app in Hin. apply in_app_or in Hin.
      destruct Hin as [Hin | [Heq | []]].
      * exact (Hfresh m (or_intror Hm) Hin).
      * simpl in Heq. apply Hnot. rewrite Heq. apply in_map. exact Hm.
    + apply Forall_app. split; [exact Hone |].
      constructor; [reflexivity | constructor].
Qed.

Lemma ascending_NoDup (l : list Z) : StronglySorted Z.lt l -> NoDup l.
Proof.
  induction 1 as [| x l _ IH Hx]; constructor; [| exact IH].
  intros Hin. rewrite Forall_forall in Hx. specialize (Hx x Hin). lia.
Qed.

Lemma sync_singletons (config : MemoryConfig) :
  forall (groups : list (Z * list HolarchicMemoryNode))
         (forces : list (string * vec3)),
    Forall (fun lg => List.length (snd lg) = 1%nat) groups ->
    fold_left
      (fun forces lg =>
         let group := snd lg in
         if (List.length group <? 2)%nat then forces
         else syncGroup config group forces)
      groups forces
    = forces.
Proof.
  induction groups as [| lg groups IH]; intros forces Hone; simpl.
  - reflexivity.
  - inversion Hone as [| ? ? H1 Hrest]; subst.
    rewrite H1. simpl. apply IH. exact Hrest.
Qed.

(** X20.  Nodes of pairwise different levels get no synchronization
    force at all, not even an entry; so it is for the tree that
    [buildHolarchicTree] makes, which has one node for a level. *)
Theorem no_synchronization_across_levels :
  forall (nodes : list HolarchicMemoryNode) (particles : list Particle)
         (maxDepth : Z) (config : MemoryConfig),
    (NoDup (map level nodes) ->
     calculateSynchronizationForces nodes config = [])
    /\ calculateSynchronizationForces
         (buildHolarchicTree particles maxDepth) config = [].
Proof.
  assert (H : forall nodes config,
            NoDup (map level nodes) ->
            calculateSynchronizationForces nodes config = []).
  { intros nodes config Hnd. unfold calculateSynchronizationForces.
    apply sync_singletons. unfold groupNodesByLevel.
    apply groupNodes_singletons;
      [exact Hnd | intros n _ [] | constructor]. }
  intros nodes particles maxDepth config. split; [apply H |].
  apply H, ascending_NoDup, buildHolarchicTree_ascending.
Qed.

(** ** Top-down constraints *)

Lemma constraints_fold_keys (F : Particle -> vec3) (k : string) :
  forall (particles : list Particle) (m : list (string * vec3)),
    mapGet k
      (fold_left (fun constraints p => mapSet (id p) (F p) constraints)
                 particles m) <> None
    <-> mapGet k m <> None \/ In k (map id particles).
Proof.
  induction particles as [| p particles IH]; intros m; simpl.
  - tauto.
  - rewrite IH. destruct (string_dec k (id p)) as [-> | Hne].
    + rewrite mapGet_mapSet_same. split; [auto |].
      intros _. left. discriminate.
    + rewrite (mapGet_mapSet_other k (id p) _ Hne).
      split; [tauto |]. intros [H | [H | H]]; auto.
Qed.

Lemma constraints_fold_skip (F : Particle -> vec3) (k : string) :
  forall (particles : list Particle) (m : list (string * vec3)),
    ~ In k (map id particles) ->
    mapGet k
      (fold_left (fun constraints p => mapSet (id p) (F p) constraints)
                 particles m)
    = mapGet k m.
Proof.
  induction particles as [| p particles IH]; intros m Hnot; simpl.
  - reflexivity.
  - rewrite IH by (intros Hin; apply Hnot; right; exact Hin).
    apply mapGet_mapSet_other. intros Heq. apply Hnot. left.
    symmetry. exact Heq.
Qed.

Lemma constraints_fold_value (F : Particle -> vec3) :
  forall (particles : list Particle) (m : list (string * vec3))
         (p : Particle),
    NoDup (map id particles) -> In p particles ->
    mapGet (id p)
      (fold_left (fun constraints p => mapSet (id p) (F p) constraints)
                 particles m)
    = Some (F p).
Proof.
  induction particles as [| x particles IH]; intros m p Hnd Hin; simpl.
  - destruct Hin.
  - simpl in Hnd. inversion Hnd as [| ? ? Hnot Hnd']; subst.
    destruct Hin as [-> | Hin].
    + rewrite (constraints_fold_skip F (id p) particles _ Hnot).
      apply mapGet_mapSet_same.
    + apply IH; assumption.
Qed.

(** X21.  [applyHolarchicConstraints] has an entry for the id of every
    particle and for nothing else; with different ids, the entry of a
    particle is the sum of the pulls of the nodes above its level; and a
    particle with no node above its level gets the zero vector.  The sum
    is built node by node: a node that is not above the level of the
    particle, or is closer to it than 0.01, leaves it as it is; any other
    node adds the separation divided by the distance and multiplied by
    [constraintStrength * memoryStrength / (1 + levelDiff)]. *)
Theorem constraints_cover_particles :
  forall (particles : list Particle) (nodes : list HolarchicMemoryNode)
         (constraintStrength : R),
    let constraints :=
      applyHolarchicConstraints particles nodes constraintStrength in
    (forall k, mapGet k constraints <> None <-> In k (map id particles))
    /\ (NoDup (map id particles) ->
        forall p, In p particles ->
          mapGet (id p) constraints
          = Some (constraintOn constraintStrength nodes p))
    /\ (forall p,
          (forall n, In n nodes -> (level n <= holarchyLevel p)%Z) ->
          constraintOn constraintStrength nodes p = V3 0 0 0)
    /\ (forall (p : Particle) (before : list HolarchicMemoryNode)
               (n : HolarchicMemoryNode),
          let sofar := constraintOn constraintStrength before p in
          let dx := c0 (node_position n) - c0 (position p) in
          let dy := c1 (node_position n) - c1 (position p) in
          let dz := c2 (node_position n) - c2 (position p) in
          let d := sqrt (dx * dx + dy * dy + dz * dz) in
          let strength :=
            jsdiv (constraintStrength * memoryStrength n)
                  (1 + IZR (level n - holarchyLevel p)) in
          ((level n <= holarchyLevel p)%Z \/ d < 0.01 ->
           constraintOn constraintStrength (before ++ [n]) p = sofar)
          /\ ((holarchyLevel p < level n)%Z -> 0.01 <= d ->
              constraintOn constraintStrength (before ++ [n]) p
              = V3 (c0 sofar + jsdiv dx d * strength)
                   (c1 sofar + jsdiv dy d * strength)
                   (c2 sofar + jsdiv dz d * strength))).
Proof.
  intros particles nodes cs constraints. split; [| split; [| split]].
  - intros k. unfold constraints, applyHolarchicConstraints.
    rewrite constraints_fold_keys. simpl. tauto.
  - intros Hnd p Hp. unfold constraints, applyHolarchicConstraints.
    apply (constraints_fold_value (constraintOn cs nodes)); assumption.
  - intros p Hlow. unfold constraintOn.
    replace (filter (fun n => (level n >? holarchyLevel p)%Z) nodes)
      with (@nil HolarchicMemoryNode); [reflexivity |].
    symmetry. induction nodes as [| n nodes IH]; [reflexivity |].
    simpl. pose proof (Hlow n (or_introl eq_refl)).
    destruct (Z.gtb_spec (level n) (holarchyLevel p)); [lia |].
    apply IH. intros m Hm. apply Hlow. right. exact Hm.
  - intros p before n sofar dx dy dz d strength.
    unfold sofar, constraintOn. rewrite filter_app, fold_left_app.
    set (acc := fold_left (constraintBody cs p) _ (V3 0 0 0)).
    cbn [filter].
    destruct (Z.gtb_spec (level n) (holarchyLevel p)) as [Hhigh | Hlow].
    + cbn [fold_left app]. unfold constraintBody. cbv zeta.
      fold dx dy dz. fold d. fold strength.
      destruct (Rltb d 0.01) eqn:E.
      * apply Rltb_iff in E. split; [reflexivity | intros _ Hd; lra].
      * apply Rltb_iff_false in E.
        split; [intros [Hle | Hd]; [lia | lra] | reflexivity].
    + cbn [fold_left app]. split; [reflexivity | intros Hlt; lia].
Qed.

(** ** The store *)

Lemma removeParticle_absent (particles : list Particle) (name : string) :
  ~ In name (map id particles) -> removeParticle particles name = particles.
Proof.
  unfold removeParticle.
  induction particles as [| p particles IH]; intros Hnot; simpl.
  - reflexivity.
  - destruct (String.eqb_spec (id p) name) as [Heq | Hne]; simpl.
    + exfalso. apply Hnot. left. exact Heq.
    + rewrite IH; [reflexivity |]. intros Hin. apply Hnot. right. exact Hin.
Qed.

(** X22.  After [removeParticle] no particle has the id removed, and
    every other particle is still there in its place; removing the id of
    a particle just added, when no other particle has it, gives the
    particles there were before. *)
Theorem remove_after_add :
  forall (particles : list Particle) (particle : Particle) (name : string),
    ~ In name (map id (removeParticle particles name))
    /\ (forall p, In p (removeParticle particles name)
                  <-> In p particles /\ id p <> name)
    /\ (~ In (id particle) (map id particles) ->
        removeParticle (addParticle particles particle) (id particle)
        = particles).
Proof.
  intros particles particle name. split; [| split].
  - intros Hin. apply in_map_iff in Hin. destruct Hin as [p [Hid Hp]].
    unfold removeParticle in Hp. apply filter_In in Hp.
    destruct Hp as [_ Hp]. rewrite Hid, String.eqb_refl in Hp. discriminate.
  - intros p. unfold removeParticle. rewrite filter_In, negb_true_iff.
    split; intros [H1 H2]; (split; [exact H1 |]).
    + intros Heq. rewrite Heq, String.eqb_refl in H2. discriminate.
    + apply String.eqb_neq. exact H2.
  - intros Hfresh. unfold addParticle, removeParticle.
    rewrite filter_app. simpl. rewrite String.eqb_refl. simpl.
    rewrite app_nil_r. apply (removeParticle_absent _ _ Hfresh).
Qed.

Lemma vec3Length_scale (v : vec3) (k : R) :
  vec3Length (vec3Scale v k) = Rabs k * vec3Length v.
Proof.
  unfold vec3Length, vec3Scale. simpl.
  replace (c0 v * k * (c0 v * k) + c1 v * k * (c1 v * k)
           + c2 v * k * (c2 v * k))
    with (Rsqr k * (c0 v * c0 v + c1 v * c1 v + c2 v * c2 v))
    by (unfold Rsqr; ring).
  rewrite sqrt_mult; [| apply Rle_0_sqr | nra].
  rewrite sqrt_Rsqr_abs. reflexivity.
Qed.

(** X23.  A node above the level of a particle leaves its constraint as it
    is when it is closer than 0.01; from a distance [d] of 0.01 or more it
    adds a pull along the separation of magnitude
    [|constraintStrength * memoryStrength| / (1 + levelDiff)]. *)
Theorem constraint_pull :
  forall (constraintStrength : R) (particle : Particle)
         (node : HolarchicMemoryNode) (constraint : vec3),
    (holarchyLevel particle < level node)%Z ->
    let diff := vec3Sub (node_position node) (position particle) in
    let d := vec3Length diff in
    let pull :=
      vec3Scale diff
        (constraintStrength * memoryStrength node
         / (1 + IZR (level node - holarchyLevel particle)) / d) in
    (d < 0.01 ->
     constraintBody constraintStrength particle constraint node = constraint)
    /\ (0.01 <= d ->
        constraintBody constraintStrength particle constraint node
        = vec3Add constraint pull
        /\ vec3Length pull
           = Rabs (constraintStrength * memoryStrength node)
             / (1 + IZR (level node - holarchyLevel particle))).
Proof.
  intros cs particle node constraint Hlevel diff d pull.
  assert (Hq : 0 < 1 + IZR (level node - holarchyLevel particle)).
  { assert (0 < IZR (level node - holarchyLevel particle))
      by (apply IZR_lt; lia).
    lra. }
  unfold constraintBody.
  change (sqrt
            ((c0 (node_position node) - c0 (position particle))
             * (c0 (node_position node) - c0 (position particle))
             + (c1 (node_position node) - c1 (position particle))
               * (c1 (node_position node) - c1 (position particle))
             + (c2 (node_position node) - c2 (position particle))
               * (c2 (node_position node) - c2 (position particle))))
    with d.
  split.
  - intros Hd. rewrite (Rltb_true _ _ Hd). reflexivity.
  - intros Hd. rewrite (Rltb_false d 0.01) by lra.
    split.
    + rewrite !jsdiv_spec by lra.
      unfold pull. apply vec3_eq; simpl; field; lra.
    + unfold pull. rewrite vec3Length_scale. fold d.
      set (q := 1 + IZR (level node - holarchyLevel particle)) in *.
      unfold Rdiv. rewrite !Rabs_mult.
      rewrite (Rabs_pos_eq (/ q))
        by (apply Rlt_le, Rinv_0_lt_compat; exact Hq).
      rewrite (Rabs_pos_eq (/ d))
        by (apply Rlt_le, Rinv_0_lt_compat; lra).
      field. lra.
Qed.

(** ** The frame loop *)

Lemma Rleb_true (x y : R) : x <= y -> Rleb x y = true.
Proof.
  intros H. unfold Rleb. destruct (Rle_dec x y); [reflexivity | contradiction].
Qed.

Lemma Rleb_false (x y : R) : y < x -> Rleb x y = false.
Proof.
  intros H. unfold Rleb. destruct (Rle_dec x y); [lra | reflexivity].
Qed.

Lemma running_and_populated (st : SimulationState) :
  sim_isRunning st = true -> sim_particles st <> [] ->
  negb (sim_isRunning st) || (List.length (sim_particles st) =? 0)%nat
  = false.
Proof.
  intros Hrun Hne. rewrite Hrun. simpl.
  destruct (sim_particles st); [contradiction | reflexivity].
Qed.

(** X24.  A frame does nothing when the simulation is paused or has no
    particle, not even to the time of the last update.  A running frame
    records the clock time; it changes nothing else when the clock has not
    advanced, and when 0.05 or more has passed it does what a frame of
    exactly 0.05 does. *)
Theorem frame_timing :
  forall (st : SimulationState) (lastUpdateTime currentTime : R),
    (sim_isRunning st = false \/ sim_particles st = [] ->
     simulationFrame st lastUpdateTime currentTime = (st, lastUpdateTime))
    /\ (sim_isRunning st = true -> sim_particles st <> [] ->
        (currentTime <= lastUpdateTime ->
         simulationFrame st lastUpdateTime currentTime = (st, currentTime))
        /\ (0.05 <= currentTime - lastUpdateTime ->
            simulationFrame st lastUpdateTime currentTime
            = (fst (simulationFrame st 0 0.05), currentTime))).
Proof.
  intros st last t. split.
  - intros [Hpaused | Hempty]; unfold simulationFrame.
    + rewrite Hpaused. reflexivity.
    + rewrite Hempty. rewrite orb_true_r. reflexivity.
  - intros Hrun Hne.
    pose proof (running_and_populated st Hrun Hne) as Hgo.
    split.
    + intros Hback. unfold simulationFrame. rewrite Hgo.
      rewrite Rleb_true; [reflexivity |].
      apply Rle_trans with (t - last); [apply Rmin_l | lra].
    + intros Hlong. unfold simulationFrame. rewrite Hgo.
      rewrite (Rmin_right (t - last) 0.05 Hlong).
      replace (Rmin (0.05 - 0) 0.05) with 0.05
        by (symmetry; apply Rmin_right; lra).
      rewrite (Rleb_false 0.05 0) by lra.
      reflexivity.
Qed.

Lemma emergence_length_le (particles : list Particle) (thr : R)
    (maxLevel : Z) :
  (List.length (checkHolarchicEmergence particles thr maxLevel)
   <= List.length particles)%nat.
Proof.
  destruct (emergenceLoop_count particles thr maxLevel particles
              (mkEmergence particles [] 0) (incl_refl _))
    as [pushed [Hres [Hnd [Hincl Hlen]]]].
  { exists []. simpl. rewrite app_nil_r.
    repeat split; [constructor | intros x [] | lia]. }
  unfold checkHolarchicEmergence. rewrite Hres, filter_app, length_app.
  pose proof (marked_count particles _ Hnd Hincl).
  match goal with
  | |- (_ + List.length (filter ?f pushed) <= _)%nat =>
      pose proof (filter_shorter f pushed)
  end.
  lia.
Qed.

(** X25.  Whatever a frame does, the store has no more particles after it
    than before, the parameters, the hand and the gesture mode are as they
    were, and, when there were memory nodes, every memory node afterwards
    is one of them by id, level, children and parent: memory is built from
    the particles only when there is none. *)
Theorem frame_invariants :
  forall (st : SimulationState) (lastUpdateTime currentTime : R),
    let st' := fst (simulationFrame st lastUpdateTime currentTime) in
    (List.length (sim_particles st') <= List.length (sim_particles st))%nat
    /\ (sim_isRunning st' = sim_isRunning st
        /\ sim_timeScale st' = sim_timeScale st
        /\ sim_springConstant st' = sim_springConstant st
        /\ sim_dampingFactor st' = sim_dampingFactor st
        /\ sim_gravitationalConstant st' = sim_gravitationalConstant st
        /\ sim_couplingStrength st' = sim_couplingStrength st
        /\ sim_holarchyDepth st' = sim_holarchyDepth st
        /\ sim_emergenceThreshold st' = sim_emergenceThreshold st
        /\ sim_memoryDecayRate st' = sim_memoryDecayRate st
        /\ sim_synchronizationStrength st' = sim_synchronizationStrength st
        /\ sim_handPosition st' = sim_handPosition st
        /\ sim_gestureMode st' = sim_gestureMode st)
    /\ (sim_memoryNodes st <> [] ->
        Forall
          (fun n' =>
             exists n,
               In n (sim_memoryNodes st) /\ node_id n' = node_id n
               /\ level n' = level n /\ children n' = children n
               /\ parent n' = parent n)
          (sim_memoryNodes st')).
Proof.
  intros st last t st'. unfold st', simulationFrame.
  destruct (negb (sim_isRunning st) || _) eqn:Hskip.
  { simpl. split; [lia |]. split; [repeat split |].
    intros _. apply Forall_forall. intros n Hn. exists n. auto. }
  destruct (Rleb (Rmin (t - last) 0.05) 0).
  { simpl. split; [lia |]. split; [repeat split |].
    intros _. apply Forall_forall. intros n Hn. exists n. auto. }
  cbn [fst]. unfold storeFrame.
  cbn [sim_particles sim_memoryNodes sim_isRunning sim_timeScale
       sim_springConstant sim_dampingFactor sim_gravitationalConstant
       sim_couplingStrength sim_holarchyDepth sim_emergenceThreshold
       sim_memoryDecayRate sim_synchronizationStrength sim_handPosition
       sim_gestureMode].
  split; [| split; [repeat split |]].
  - eapply Nat.le_trans; [apply emergence_length_le |].
    rewrite integrate_as_map. cbv zeta. rewrite length_map. lia.
  - intros Hmem.
    destruct (sim_memoryNodes st) as [| m ms] eqn:E; [contradiction |].
    cbn [List.length Nat.ltb Nat.leb].
    apply Forall_forall. intros n' Hn'.
    unfold updateMemoryNodes in Hn'. apply filter_In in Hn'.
    destruct Hn' as [Hn' _]. apply in_map_iff in Hn'.
    destruct Hn' as [n [<- Hn]].
    exists n. split; [exact Hn |]. apply updateNode_frame.
Qed.

End Engine.

(** * The pairwise force on doubles (C5) *)

(** ** Negation in the specification of the floats

    Rounding to nearest is symmetric: a product, a sum or a difference of
    negated operands is the negated result, up to the sign of a zero. *)

Section FloatSpecification.
Variables prec emax : Z.

Lemma binary_round_aux_opp (s : bool) (m e : Z) (l : location) :
  binary_round_aux prec emax (negb s) m e l
  = SFopp (binary_round_aux prec emax s m e l).
Proof.
  unfold binary_round_aux.
  destruct (shr_fexp prec emax m e l) as [mrs' e'].
  destruct (shr_fexp prec emax _ e' loc_Exact) as [mrs'' e''].
  destruct (shr_m mrs''); try reflexivity.
  destruct (Z.leb _ _); reflexivity.
Qed.

Lemma binary_round_opp (s : bool) (m : positive) (e : Z) :
  binary_round prec emax (negb s) m e = SFopp (binary_round prec emax s m e).
Proof.
  unfold binary_round. destruct (shl_align _ _ _) as [mz ez].
  apply binary_round_aux_opp.
Qed.

Lemma binary_normalize_opp (m e : Z) :
  SFnegates (binary_normalize prec emax m e false)
            (binary_normalize prec emax (Z.opp m) e false).
Proof.
  destruct m as [| p | p]; simpl.
  - right. split; exists false; reflexivity.
  - left. apply (binary_round_opp false).
  - left. rewrite (binary_round_opp false).
    destruct (binary_round prec emax false p e) as [[]|[]| |[] ? ?]; reflexivity.
Qed.

Lemma SFopp_involutive (x : spec_float) : SFopp (SFopp x) = x.
Proof. destruct x as [[]|[]| |[] ? ?]; reflexivity. Qed.

Ltac negates_easy :=
  first [ left; reflexivity
        | right; split; eexists; reflexivity ].

Lemma SFsub_negates (x y : spec_float) :
  SFnegates (SFsub prec emax x y) (SFsub prec emax y x).
Proof.
  destruct x as [sx | sx | | sx mx ex], y as [sy | sy | | sy my ey];
    try negates_easy;
    try (destruct sx; negates_easy); try (destruct sy; negates_easy);
    try (destruct sx, sy; negates_easy).
  unfold SFsub. cbv zeta.
  rewrite (Z.min_comm ey ex).
  set (A := cond_Zopp sx _). set (B := cond_Zopp sy _).
  replace (Z.sub B A) with (Z.opp (Z.sub A B)) by lia.
  apply binary_normalize_opp.
Qed.

Lemma cond_Zopp_negb (s : bool) (m : Z) :
  cond_Zopp (negb s) m = Z.opp (cond_Zopp s m).
Proof. destruct s; simpl; lia. Qed.

Lemma SFadd_opp (x y : spec_float) :
  SFnegates (SFadd prec emax x y) (SFadd prec emax (SFopp x) (SFopp y)).
Proof.
  destruct x as [sx | sx | | sx mx ex], y as [sy | sy | | sy my ey];
    try negates_easy;
    try (destruct sx; negates_easy); try (destruct sy; negates_easy);
    try (destruct sx, sy; negates_easy).
  unfold SFopp, SFadd. cbv zeta.
  rewrite !cond_Zopp_negb.
  set (A := cond_Zopp sx _). set (B := cond_Zopp sy _).
  replace (Z.add (Z.opp A) (Z.opp B)) with (Z.opp (Z.add A B)) by lia.
  apply binary_normalize_opp.
Qed.

Lemma SFadd_zero_l (s s' : bool) (y : spec_float) :
  SFnegates (SFadd prec emax (S754_zero s) y)
            (SFadd prec emax (S754_zero s') (SFopp y)).
Proof.
  destruct y as [sy | sy | | sy my ey]; try negates_easy.
  destruct s, s', sy; negates_easy.
Qed.

Lemma SFadd_negates (a a' b b' : spec_float) :
  SFnegates a a' -> SFnegates b b' ->
  SFnegates (SFadd prec emax a b) (SFadd prec emax a' b').
Proof.
  intros [-> | [[sa ->] [sa' ->]]] [-> | [[sb ->] [sb' ->]]].
  - apply SFadd_opp.
  - replace (S754_zero sb') with (SFopp (S754_zero (negb sb')))
      by (destruct sb'; reflexivity).
    destruct a as [s | s | | s m e]; try negates_easy.
    + destruct s, sb, sb'; negates_easy.
  - apply SFadd_zero_l.
  - destruct sa, sa', sb, sb'; negates_easy.
Qed.

Lemma SFmul_opp_l (x y : spec_float) :
  SFmul prec emax (SFopp x) y = SFopp (SFmul prec emax x y).
Proof.
  destruct x as [sx | sx | | sx mx ex], y as [sy | sy | | sy my ey];
    try reflexivity; try (destruct sx, sy; reflexivity).
  unfold SFopp at 1, SFmul.
  replace (xorb (negb sx) sy) with (negb (xorb sx sy))
    by (destruct sx, sy; reflexivity).
  apply binary_round_aux_opp.
Qed.

Lemma SFmul_negates (x x' s : spec_float) :
  SFnegates x x' ->
  SFnegates (SFmul prec emax x s) (SFmul prec emax x' s).
Proof.
  intros [-> | [[sa ->] [sa' ->]]].
  - left. apply SFmul_opp_l.
  - destruct s as [sy | sy | | sy my ey]; negates_easy.
Qed.

Lemma SFmul_square (x x' : spec_float) :
  SFnegates x x' -> SFmul prec emax x x = SFmul prec emax x' x'.
Proof.
  intros [-> | [[sa ->] [sa' ->]]].
  - destruct x as [[] | [] | | [] mx ex]; reflexivity.
  - destruct sa, sa'; reflexivity.
Qed.

Lemma SFabs_negates (x x' : spec_float) :
  SFnegates x x' -> SFabs x = SFabs x'.
Proof.
  intros [-> | [[sa ->] [sa' ->]]].
  - destruct x as [[] | [] | | [] mx ex]; reflexivity.
  - reflexivity.
Qed.
End FloatSpecification.

(** *** The same for the floats themselves *)

Lemma isZero_eqb (x : float) :
  PrimFloat.eqb x 0%float = true <-> isZero (Prim2SF x).
Proof.
  rewrite FloatAxioms.eqb_spec.
  change (Prim2SF 0%float) with (S754_zero false).
  destruct (Prim2SF x) as [s | s | | s m e]; unfold SFeqb; simpl.
  - split; [intros _; exists s; reflexivity | reflexivity].
  - split; [destruct s; discriminate | intros [? H]; discriminate].
  - split; [discriminate | intros [? H]; discriminate].
  - split; [destruct s; discriminate | intros [? H]; discriminate].
Qed.

Lemma negated_spec (x y : float) :
  negated x y <-> SFnegates (Prim2SF x) (Prim2SF y).
Proof.
  unfold negated, SFnegates. rewrite !isZero_eqb, <- opp_spec.
  split; intros [H | H]; auto.
  - left. rewrite H. reflexivity.
  - left. apply Prim2SF_inj. exact H.
Qed.

Lemma sub_negated (a b : float) :
  negated (PrimFloat.sub a b) (PrimFloat.sub b a).
Proof. apply negated_spec. rewrite !sub_spec. apply SFsub_negates. Qed.

Lemma add_negated (a a' b b' : float) :
  negated a a' -> negated b b' ->
  negated (PrimFloat.add a b) (PrimFloat.add a' b').
Proof.
  rewrite !negated_spec, !add_spec. apply SFadd_negates.
Qed.

Lemma mul_negated (x x' s : float) :
  negated x x' -> negated (PrimFloat.mul x s) (PrimFloat.mul x' s).
Proof. rewrite !negated_spec, !mul_spec. apply SFmul_negates. Qed.

Lemma mul_square (x x' : float) :
  negated x x' -> PrimFloat.mul x x = PrimFloat.mul x' x'.
Proof.
  rewrite negated_spec. intros H. apply Prim2SF_inj.
  rewrite !mul_spec. apply SFmul_square. exact H.
Qed.

Lemma abs_negated (x x' : float) :
  negated x x' -> PrimFloat.abs x = PrimFloat.abs x'.
Proof.
  rewrite negated_spec. intros H. apply Prim2SF_inj.
  rewrite !abs_spec. apply SFabs_negates. exact H.
Qed.

Lemma zero_negated : negated 0%float 0%float.
Proof. right. split; reflexivity. Qed.

Lemma vec3Length_negated (a b : Binary64.vec3) :
  Binary64.vec3Length (Binary64.vec3Sub a b)
  = Binary64.vec3Length (Binary64.vec3Sub b a).
Proof.
  unfold Binary64.vec3Length, Binary64.vec3Sub. simpl.
  rewrite (mul_square _ _ (sub_negated (Binary64.c0 a) (Binary64.c0 b))).
  rewrite (mul_square _ _ (sub_negated (Binary64.c1 a) (Binary64.c1 b))).
  rewrite (mul_square _ _ (sub_negated (Binary64.c2 a) (Binary64.c2 b))).
  reflexivity.
Qed.

Lemma vec3Sub_negated (a b : Binary64.vec3) :
  negatedVec (Binary64.vec3Sub a b) (Binary64.vec3Sub b a).
Proof. repeat split; apply sub_negated. Qed.

Lemma vec3Scale_negated (u v : Binary64.vec3) (s : float) :
  negatedVec u v ->
  negatedVec (Binary64.vec3Scale u s) (Binary64.vec3Scale v s).
Proof.
  intros [H0 [H1 H2]]. repeat split; simpl; apply mul_negated; assumption.
Qed.

Lemma vec3Add_negated (u u' v v' : Binary64.vec3) :
  negatedVec u u' -> negatedVec v v' ->
  negatedVec (Binary64.vec3Add u v) (Binary64.vec3Add u' v').
Proof.
  intros [H0 [H1 H2]] [K0 [K1 K2]].
  repeat split; simpl; apply add_negated; assumption.
Qed.

Lemma vzero_negated :
  negatedVec (Binary64.V3 0 0 0) (Binary64.V3 0 0 0).
Proof. repeat split; apply zero_negated. Qed.

Lemma vec3Normalize_negated (a b : Binary64.vec3) :
  negatedVec (Binary64.vec3Normalize (Binary64.vec3Sub a b))
             (Binary64.vec3Normalize (Binary64.vec3Sub b a)).
Proof.
  unfold Binary64.vec3Normalize. rewrite (vec3Length_negated b a).
  destruct (PrimFloat.eqb _ _).
  - apply vzero_negated.
  - apply vec3Scale_negated, vec3Sub_negated.
Qed.


Set Warnings "-inexact-float".

(** A distance that is not below 0.1 is not zero. *)
Lemma apart_not_zero (d : float) :
  PrimFloat.ltb d 0.1%float = false -> PrimFloat.eqb d 0%float = false.
Proof.
  intros Hfar. destruct (PrimFloat.eqb d 0%float) eqn:E; [| reflexivity].
  apply isZero_eqb in E. destruct E as [sign Hzero].
  rewrite ltb_spec, Hzero in Hfar. vm_compute in Hfar. discriminate.
Qed.

(** C5, as the code has it.  On doubles the pairwise force on [pi] from
    [pj] is the negation of the one on [pj] from [pi], component by
    component (a zero may differ in sign), whenever the products
    [G * m_i * m_j] and [k * q_i * q_j] come out the same with the two
    particles exchanged, as they do for equal masses and equal charges.
    The pairwise force of two particles of different ids at a distance
    [d] that is not below 0.1 is, along each axis, the separation over [d]
    times [G * m_i * m_j / d^2], plus the separation over [d] times
    [- (k * q_i * q_j / d^2)] times the level factor, added in this order
    to 0. *)
Theorem pairwise_force_negation_binary64 :
  forall (config : Binary64.PhysicsConfig) (pi pj : Binary64.Particle),
    (Binary64.gravitationalConstant config * Binary64.mass pi
     * Binary64.mass pj
     = Binary64.gravitationalConstant config * Binary64.mass pj
       * Binary64.mass pi)%float ->
    (Binary64.couplingStrength config * Binary64.charge pi
     * Binary64.charge pj
     = Binary64.couplingStrength config * Binary64.charge pj
       * Binary64.charge pi)%float ->
    negatedVec (Binary64.pairwiseForce config pi pj)
               (Binary64.pairwiseForce config pj pi)
    /\ (Binary64.id pi <> Binary64.id pj ->
        let dx := (Binary64.c0 (Binary64.position pj)
                   - Binary64.c0 (Binary64.position pi))%float in
        let dy := (Binary64.c1 (Binary64.position pj)
                   - Binary64.c1 (Binary64.position pi))%float in
        let dz := (Binary64.c2 (Binary64.position pj)
                   - Binary64.c2 (Binary64.position pi))%float in
        let d := PrimFloat.sqrt (dx * dx + dy * dy + dz * dz)%float in
        PrimFloat.ltb d 0.1%float = false ->
        let grav :=
          (Binary64.gravitationalConstant config * Binary64.mass pi
           * Binary64.mass pj / (d * d))%float in
        let levelDiff :=
          PrimFloat.abs (Binary64.holarchyLevel pi
                         - Binary64.holarchyLevel pj)%float in
        let factor :=
          if PrimFloat.eqb levelDiff 0%float then 1%float
          else (0.5 / (1 + levelDiff))%float in
        let coulomb :=
          (- (Binary64.couplingStrength config * Binary64.charge pi
              * Binary64.charge pj / (d * d)) * factor)%float in
        Binary64.pairwiseForce config pi pj
        = Binary64.V3
            (0 + dx * (1 / d) * grav + dx * (1 / d) * coulomb)%float
            (0 + dy * (1 / d) * grav + dy * (1 / d) * coulomb)%float
            (0 + dz * (1 / d) * grav + dz * (1 / d) * coulomb)%float).
Proof.
  intros config pi pj Hm Hq. split.
  - unfold Binary64.pairwiseForce, Binary64.interaction.
    rewrite (String.eqb_sym (Binary64.id pj) (Binary64.id pi)).
    destruct (String.eqb (Binary64.id pi) (Binary64.id pj));
      [apply vzero_negated |].
    rewrite (vec3Length_negated (Binary64.position pi)
                                (Binary64.position pj)).
    destruct (PrimFloat.ltb _ _); [apply vzero_negated |].
    rewrite Hm, Hq.
    rewrite (abs_negated _ _ (sub_negated (Binary64.holarchyLevel pi)
                                          (Binary64.holarchyLevel pj))).
    apply vec3Add_negated; [apply vec3Add_negated |].
    + apply vzero_negated.
    + apply vec3Scale_negated, vec3Normalize_negated.
    + apply vec3Scale_negated, vec3Normalize_negated.
  - intros Hid dx dy dz d Hfar grav levelDiff factor coulomb.
    unfold Binary64.pairwiseForce, Binary64.interaction.
    destruct (String.eqb_spec (Binary64.id pj) (Binary64.id pi)) as [E | _];
      [exfalso; apply Hid; symmetry; exact E |].
    unfold Binary64.vec3Normalize.
    change (Binary64.vec3Length
              (Binary64.vec3Sub (Binary64.position pj)
                                (Binary64.position pi)))
      with d.
    rewrite Hfar, (apart_not_zero d Hfar).
    reflexivity.
Qed.

Set Warnings "inexact-float".

(** * The theorems at concrete inputs *)

(** The division of the reals is a [jsdiv]. *)
Lemma Rdiv_is_jsdiv : forall a b : R, b <> 0 -> Rdiv a b = a / b.
Proof. intros a b _. reflexivity. Qed.

Lemma quantum_close (name1 name2 : string) (q : vec3) :
  closeAndSlow Rdiv 0.7 (quantum name1 q) (quantum name2 q) = true.
Proof.
  apply (closeAndSlow_at_rest Rdiv Rdiv_is_jsdiv); simpl.
  - rewrite vec3Length_sub_same. lra.
  - reflexivity.
  - lra.
Qed.

Lemma masses_A_D : forall p, In p [particleA; particleD] -> mass p <> 0.
Proof. intros p [<- | [<- | []]]; simpl; lra. Qed.

(** C1, where the code departs from it.  Three level-0 particles at one
    place: the first is merged with the second and, already marked, merged
    again with the third.  The output holds two merged particles, each
    with the mass of the first particle in it. *)
Theorem emergence_reuses_marked_particle :
  checkHolarchicEmergence Rdiv mergedIds [particleA; particleB; particleC]
                          0.7 3
  = [mergedParticle Rdiv particleA particleB "m0";
     mergedParticle Rdiv particleA particleC "m1"]
  /\ map mass (checkHolarchicEmergence Rdiv mergedIds
                 [particleA; particleB; particleC] 0.7 3)
     = [mass particleA + mass particleB; mass particleA + mass particleC].
Proof.
  assert (H : checkHolarchicEmergence Rdiv mergedIds
                [particleA; particleB; particleC] 0.7 3
              = [mergedParticle Rdiv particleA particleB "m0";
                 mergedParticle Rdiv particleA particleC "m1"]).
  { unfold checkHolarchicEmergence. simpl.
    rewrite (mergeBody_merge Rdiv mergedIds 0.7 3 particleA particleB);
      [| reflexivity | reflexivity | reflexivity | apply quantum_close].
    rewrite (mergeBody_merge Rdiv mergedIds 0.7 3 particleA particleC);
      [| reflexivity | reflexivity | reflexivity | apply quantum_close].
    reflexivity. }
  split; [exact H | rewrite H; reflexivity].
Qed.

(** C2, where the scenario fails as stated: with [maxLevel = 1] the level
    gate of the code keeps the two particles of the scenario apart, and
    the pass gives them back. *)
Lemma scenario_blocked_at_depth_one :
  checkHolarchicEmergence Rdiv mergedIds [scenarioP1; scenarioP2] 0.7 1
  = [scenarioP1; scenarioP2].
Proof.
  unfold checkHolarchicEmergence. simpl. reflexivity.
Qed.

(** C2 at the scenario, with [maxLevel = 3]. *)
Lemma merge_conservation_witness :
  ((2 <= 3)%Z /\ mergedIds 0 <> "p1"%string /\ mergedIds 0 <> "p2"%string)
  /\ checkHolarchicEmergence Rdiv mergedIds [scenarioP1; scenarioP2] 0.7 3
     = [mkParticle "m0" (V3 0.025 0 0) (V3 0 0 0) 2 (1 + 1) 1 0 "#22d3ee"].
Proof.
  assert (H1 : (2 <= 3)%Z) by lia.
  assert (H2 : mergedIds 0 <> "p1"%string) by discriminate.
  assert (H3 : mergedIds 0 <> "p2"%string) by discriminate.
  split; [repeat split; assumption |].
  exact (proj2 (merge_conservation Rdiv mergedIds Rdiv_is_jsdiv)
               "p1"%string "p2"%string "#6366f1"%string "#6366f1"%string
               1 1 0 0 3%Z H1 H2 H3).
Defined.


(** C4 for two particles at one place. *)
Lemma singularity_guard_witness :
  (position particleB = position particleA
   \/ vec3Length (vec3Sub (position particleB) (position particleA)) < 0.1)
  /\ interaction Rdiv defaultConfig particleA (V3 0 0 0) particleB = V3 0 0 0
  /\ pairPotential Rdiv defaultConfig particleA 0 particleB = 0.
Proof.
  assert (H : position particleB = position particleA
              \/ vec3Length (vec3Sub (position particleB)
                                     (position particleA)) < 0.1)
    by (left; reflexivity).
  split; [exact H |].
  destruct (singularity_guard Rdiv defaultConfig particleA particleB
              (V3 0 0 0) 0 [] [] None attract H) as [H1 [H2 _]].
  split; [exact H1 | exact H2].
Defined.

Set Warnings "-inexact-float".

(** C5, where the claim fails as stated: two particles of masses 1.2 and
    1.5 at distance 1.  The force on the first is -0.12 along x, the force
    on the second 0.11999999999999997, not 0.12: [0.1 * 1.2 * 1.5] and
    [0.1 * 1.5 * 1.2] round differently. *)
Lemma unequal_masses_break_negation :
  (PrimFloat.ltb 0 (Binary64.mass Binary64.light) = true
   /\ PrimFloat.ltb 0 (Binary64.mass Binary64.heavy) = true
   /\ PrimFloat.leb 0.1
        (Binary64.vec3Length
           (Binary64.vec3Sub (Binary64.position Binary64.heavy)
                             (Binary64.position Binary64.light))) = true)
  /\ Binary64.c0
       (Binary64.pairwiseForce Binary64.defaultConfig Binary64.light
                               Binary64.heavy)
     = (-0.12)%float
  /\ Binary64.c0
       (Binary64.pairwiseForce Binary64.defaultConfig Binary64.heavy
                               Binary64.light)
     = 0.11999999999999997%float
  /\ PrimFloat.eqb
       (Binary64.c0
          (Binary64.pairwiseForce Binary64.defaultConfig Binary64.light
                                  Binary64.heavy))
       (PrimFloat.opp
          (Binary64.c0
             (Binary64.pairwiseForce Binary64.defaultConfig Binary64.heavy
                                     Binary64.light)))
     = false.
Proof. repeat split; vm_compute; reflexivity. Qed.

Set Warnings "inexact-float".

(** C5 for two particles of mass 1 and charge 1 at distance 1. *)
Lemma pairwise_force_negation_binary64_witness :
  ((Binary64.gravitationalConstant Binary64.defaultConfig
    * Binary64.mass Binary64.unitLeft * Binary64.mass Binary64.unitRight
    = Binary64.gravitationalConstant Binary64.defaultConfig
      * Binary64.mass Binary64.unitRight * Binary64.mass Binary64.unitLeft)%float
   /\ (Binary64.couplingStrength Binary64.defaultConfig
       * Binary64.charge Binary64.unitLeft * Binary64.charge Binary64.unitRight
       = Binary64.couplingStrength Binary64.defaultConfig
         * Binary64.charge Binary64.unitRight
         * Binary64.charge Binary64.unitLeft)%float)
  /\ negatedVec
       (Binary64.pairwiseForce Binary64.defaultConfig Binary64.unitLeft
                               Binary64.unitRight)
       (Binary64.pairwiseForce Binary64.defaultConfig Binary64.unitRight
                               Binary64.unitLeft).
Proof.
  split; [split; reflexivity |].
  exact (proj1 (pairwise_force_negation_binary64 Binary64.defaultConfig
                  Binary64.unitLeft Binary64.unitRight eq_refl eq_refl)).
Defined.



(** C7 for particles at the levels 0, 0 and 1. *)
Lemma memory_tree_forest_witness :
  Permutation (map holarchyLevel [particleA; particleB; particleE])
              [0; 0; 1]%Z
  /\ exists n0 n1,
       buildHolarchicTree Rdiv memoryIds [particleA; particleB; particleE] 3
       = [n0; n1]
       /\ level n0 = 0%Z /\ level n1 = 1%Z
       /\ parent n0 = None /\ parent n1 = Some (node_id n0)
       /\ In (node_id n1) (children n0).
Proof.
  assert (H : Permutation (map holarchyLevel [particleA; particleB; particleE])
                          [0; 0; 1]%Z)
    by apply Permutation_refl.
  split; [exact H |].
  exact (proj2 (proj2 (proj2 (memory_tree_forest Rdiv memoryIds
                                [particleA; particleB; particleE] 3%Z)))
               H).
Defined.

Lemma positive_mass_A : forall p, In p [particleA] -> 0 < mass p.
Proof. intros p [<- | []]; simpl; lra. Qed.

Lemma exp_far (d : R) : 10 <= d -> exp (- d) <= 0.1.
Proof.
  intros Hd.
  assert (He : 1 + d < exp d) by (apply exp_ineq1; lra).
  rewrite exp_Ropp. replace 0.1 with (/ 10) by lra.
  apply Rlt_le, Rinv_lt_contravar; nra.
Qed.

(** C8 for one particle at the origin and one node of its level at
    distance 10: the score of the node is [exp (- 10)], and the answer is
    none. *)
Lemma neutral_results_witness :
  (forall p, In p [particleA] -> 0 < mass p)
  /\ recognizePattern Rdiv [particleA] [farNode] 0 = None.
Proof.
  split; [exact positive_mass_A |].
  apply (proj2 (proj2 (proj2 (proj2
           (neutral_results Rdiv Rdiv_is_jsdiv [particleA] [farNode] 0%Z
              positive_mass_A))))).
  right. intros node [<- | []] _. simpl.
  replace (((0 + 0 * 1) / (0 + 1) - 10) * ((0 + 0 * 1) / (0 + 1) - 10)
           + ((0 + 0 * 1) / (0 + 1) - 0) * ((0 + 0 * 1) / (0 + 1) - 0)
           + ((0 + 0 * 1) / (0 + 1) - 0) * ((0 + 0 * 1) / (0 + 1) - 0))
    with (10 * 10) by lra.
  rewrite sqrt_square by lra.
  pose proof (exp_far 10 (Rle_refl 10)). lra.
Defined.

Lemma positive_mass_D : forall p, In p [particleD] -> 0 < mass p.
Proof. intros p [<- | []]; simpl; lra. Qed.

(** C9 for a level-0 node at the origin without children and one level-0
    particle at distance 1: the node moves to 0.01. *)
Lemma same_level_particle_matches_witness :
  ((forall q, In q [particleD] -> 0 < mass q)
   /\ In particleD [particleD]
   /\ holarchyLevel particleD = level quantumNode
   /\ ~ In (id particleD) (children quantumNode))
  /\ node_position
       (updateNode Rdiv [particleD] defaultMemoryConfig 0.016 quantumNode)
     = V3 0.01 0 0.
Proof.
  assert (H1 : In particleD [particleD]) by (left; reflexivity).
  assert (H2 : holarchyLevel particleD = level quantumNode) by reflexivity.
  assert (H3 : ~ In (id particleD) (children quantumNode)) by (intros []).
  split; [split; [exact positive_mass_D | repeat split; assumption] |].
  rewrite (proj1 (proj2 (proj2 (proj2
             (same_level_particle_matches Rdiv Rdiv_is_jsdiv quantumNode
                [particleD] defaultMemoryConfig 0.016 particleD
                positive_mass_D H1 H2 H3))))).
  simpl. f_equal; lra.
Defined.

(** C10 for two particles and a frame of length 0. *)
Lemma integrate_zero_step_frame_witness :
  (0 * timeScale defaultConfig = 0
   /\ forall p, In p [particleA; particleD] -> mass p <> 0)
  /\ map position
       (fst (integrateHamiltonian Rdiv [particleA; particleD] defaultConfig 0
                                  None attract))
     = map position [particleA; particleD]
  /\ map momentum
       (fst (integrateHamiltonian Rdiv [particleA; particleD] defaultConfig 0
                                  None attract))
     = map momentum [particleA; particleD].
Proof.
  assert (H : 0 * timeScale defaultConfig = 0) by (simpl; lra).
  split; [split; [exact H | exact masses_A_D] |].
  rewrite (proj1 (integrate_zero_step_frame Rdiv Rdiv_is_jsdiv
                    [particleA; particleD] defaultConfig 0 None attract H
                    masses_A_D)).
  split; reflexivity.
Defined.

(** ** The further properties at concrete inputs *)

(** X3 for a hand at distance 1 in the mode [spawn]. *)
Lemma hand_force_witness :
  calculateForce Rdiv particleA [particleA; particleD] defaultConfig
                 (Some (V3 1 0 0)) spawn
  = calculateForce Rdiv particleA [particleA; particleD] defaultConfig
                   None spawn.
Proof.
  exact (proj1 (hand_force Rdiv Rdiv_is_jsdiv particleA
                  [particleA; particleD] defaultConfig (V3 1 0 0) spawn)).
Defined.

Lemma positive_masses_A_D :
  forall p, In p [particleA; particleD] -> 0 < mass p.
Proof. intros p [<- | [<- | []]]; simpl; lra. Qed.

(** X7 for two particles of mass 1. *)
Lemma kinetic_energy_nonnegative_witness :
  (forall p, In p [particleA; particleD] -> 0 < mass p)
  /\ 0 <= calculateKineticEnergy Rdiv [particleA; particleD].
Proof.
  split; [exact positive_masses_A_D |].
  exact (proj1 (kinetic_energy_nonnegative Rdiv Rdiv_is_jsdiv
                  [particleA; particleD] positive_masses_A_D)).
Defined.

Lemma levels_A_B_C :
  Forall (fun p => (holarchyLevel p <= 3 - 1)%Z)
         [particleA; particleB; particleC].
Proof. repeat constructor; simpl; lia. Qed.

(** X9 for three level-0 particles and a depth of 3. *)
Lemma emergence_levels_bounded_witness :
  Forall (fun p => (holarchyLevel p <= 3 - 1)%Z)
         [particleA; particleB; particleC]
  /\ Forall (fun p => (holarchyLevel p <= 3 - 1)%Z)
            (checkHolarchicEmergence Rdiv mergedIds
               [particleA; particleB; particleC] 0.7 3).
Proof.
  split; [exact levels_A_B_C |].
  exact (emergence_levels_bounded Rdiv mergedIds
           [particleA; particleB; particleC] 0.7 3 levels_A_B_C).
Defined.

(** X10 for three particles at one place and a threshold of 0. *)
Lemma emergence_nothing_to_merge_witness :
  (0 <= 0
   \/ Forall (fun p => (3 - 1 <= holarchyLevel p)%Z)
             [particleA; particleB; particleC])
  /\ checkHolarchicEmergence Rdiv mergedIds
       [particleA; particleB; particleC] 0 3
     = [particleA; particleB; particleC].
Proof.
  assert (H : 0 <= 0
              \/ Forall (fun p => (3 - 1 <= holarchyLevel p)%Z)
                        [particleA; particleB; particleC])
    by (left; lra).
  split; [exact H |].
  exact (emergence_nothing_to_merge Rdiv mergedIds
           [particleA; particleB; particleC] 0 3 H).
Defined.

Lemma centroid_of_A : massCentroid Rdiv [particleA] = V3 0 0 0.
Proof.
  unfold massCentroid, sumOver. simpl.
  f_equal; lra.
Qed.

Lemma similarity_at_origin : similarityTo (V3 0 0 0) quantumNode = 1.
Proof.
  unfold similarityTo, distanceBetween. simpl.
  replace ((0 - 0) * (0 - 0) + (0 - 0) * (0 - 0) + (0 - 0) * (0 - 0))
    with 0 by ring.
  rewrite sqrt_0, Ropp_0, exp_0. ring.
Qed.

Lemma recognize_A : recognizePattern Rdiv [particleA] [quantumNode] 0
                    = Some quantumNode.
Proof.
  unfold recognizePattern. simpl.
  rewrite centroid_of_A. unfold recognizeBody. simpl.
  rewrite similarity_at_origin.
  unfold Rgtb. rewrite (Rltb_true (-1) 1) by lra. simpl.
  rewrite (Rltb_true 0.1 1) by lra. reflexivity.
Qed.

Lemma positive_masses_A_E :
  forall p, In p [particleA; particleE] -> 0 < mass p.
Proof. intros p [<- | [<- | []]]; simpl; lra. Qed.

(** X12 for a level-0 and a level-1 particle. *)
Lemma tree_nodes_summarise_levels_witness :
  (forall p, In p [particleA; particleE] -> 0 < mass p)
  /\ Forall
       (fun p =>
          exists n,
            In n (buildHolarchicTree Rdiv memoryIds [particleA; particleE] 3)
            /\ level n = holarchyLevel p /\ In (id p) (children n))
       [particleA; particleE].
Proof.
  split; [exact positive_masses_A_E |].
  exact (proj2 (tree_nodes_summarise_levels Rdiv memoryIds Rdiv_is_jsdiv
                  [particleA; particleE] 3%Z positive_masses_A_E)).
Defined.

(** X17 for one particle and one node, both of level 0 at the origin. *)
Lemma recognize_returns_best_witness :
  ((forall p, In p [particleA] -> 0 < mass p)
   /\ recognizePattern Rdiv [particleA] [quantumNode] 0 = Some quantumNode)
  /\ In quantumNode [quantumNode] /\ level quantumNode = 0%Z.
Proof.
  split; [split; [exact positive_mass_A | exact recognize_A] |].
  destruct (recognize_returns_best Rdiv Rdiv_is_jsdiv [particleA]
              [quantumNode] 0 quantumNode positive_mass_A recognize_A)
    as [H1 [H2 _]].
  split; [exact H1 | exact H2].
Defined.

Lemma unit_strength_quantumNode :
  Forall (fun n => 0 <= memoryStrength n <= 1) [quantumNode].
Proof. repeat constructor; simpl; lra. Qed.

(** X18 for one particle and one node of strength 1. *)
Lemma coherence_bounds_witness :
  Forall (fun n => 0 <= memoryStrength n <= 1) [quantumNode]
  /\ 0 <= calculateHolarchicCoherence Rdiv [particleA] [quantumNode] <= 1.
Proof.
  split; [exact unit_strength_quantumNode |].
  exact (coherence_bounds Rdiv Rdiv_is_jsdiv [particleA] [quantumNode]
           unit_strength_quantumNode).
Defined.

Lemma one_level_left_right :
  forall n, In n [nodeLeft; nodeRight] -> level n = 0%Z.
Proof. intros n [<- | [<- | []]]; reflexivity. Qed.

Lemma ids_left_right : NoDup (map node_id [nodeLeft; nodeRight]).
Proof.
  simpl. constructor.
  - intros [H | []]. discriminate.
  - constructor; [intros [] | constructor].
Qed.

(** X19 for two level-0 nodes at distance 1. *)
Lemma synchronization_force_entries_witness :
  ((2 <= List.length [nodeLeft; nodeRight])%nat
   /\ (forall n, In n [nodeLeft; nodeRight] -> level n = 0%Z)
   /\ NoDup (map node_id [nodeLeft; nodeRight]))
  /\ map fst (calculateSynchronizationForces Rdiv [nodeLeft; nodeRight]
                                             defaultMemoryConfig)
     = map node_id [nodeLeft; nodeRight].
Proof.
  assert (H1 : (2 <= List.length [nodeLeft; nodeRight])%nat)
    by (simpl; lia).
  split; [repeat split;
          [exact H1 | exact one_level_left_right | exact ids_left_right] |].
  exact (proj1 (synchronization_force_entries Rdiv [nodeLeft; nodeRight]
                  defaultMemoryConfig 0%Z H1 one_level_left_right
                  ids_left_right)).
Defined.

(** X23 for a level-0 particle and a level-1 node at one place. *)
Lemma constraint_pull_witness :
  (holarchyLevel particleA < level atomicNode)%Z
  /\ constraintBody Rdiv 1 particleA (V3 0 0 0) atomicNode = V3 0 0 0.
Proof.
  assert (H : (holarchyLevel particleA < level atomicNode)%Z)
    by (simpl; lia).
  split; [exact H |].
  apply (proj1 (constraint_pull Rdiv Rdiv_is_jsdiv 1 particleA atomicNode
                  (V3 0 0 0) H)).
  simpl. rewrite (vec3Length_sub_same (V3 0 0 0)). lra.
Defined.
